(** * rv32emu: the RV32-IMC instruction templates and the path/set utilities

    A shallow embedding of [src/rv32_template.c] (the per-instruction
    semantics that the interpreter expands through [RVOP]) and of the
    [sanitize_path] / [set_add] / [set_has] helpers of [src/utils.c],
    followed by the properties proved about them.

    Conventions.  A C value of type [uint32_t] is a [Z] in [0, 2^32); every
    arithmetic result that C would truncate is wrapped explicitly with
    [u32] (or [u64] for the cycle counter), a cast to [int32_t] is [i32].
    Register indices ([uint8_t rd, rs1, rs2]) are [nat].  Pointers to
    decoded instructions are indices into an arena held by the machine. *)

From Stdlib Require Import ZArith Lia Bool List Ascii String.
From stdpp Require Import prelude functions strings gmap.

#[local] Open Scope Z_scope.

(* ===================================================================== *)
(** ** Machine integers *)
(* ===================================================================== *)

(** [(uint8_t) z] *)
Definition u8 (z : Z) : Z := z mod 2 ^ 8.

(** [(uint16_t) z] *)
Definition u16 (z : Z) : Z := z mod 2 ^ 16.

(** [(int16_t) z] *)
Definition i16 (z : Z) : Z := (z + 2 ^ 15) mod 2 ^ 16 - 2 ^ 15.

(** [(uint32_t) z] *)
Definition u32 (z : Z) : Z := z mod 2 ^ 32.

(** [(int32_t) z]: the two's complement reading of the low 32 bits. *)
Definition i32 (z : Z) : Z := (z + 2 ^ 31) mod 2 ^ 32 - 2 ^ 31.

(** [(uint64_t) z] *)
Definition u64 (z : Z) : Z := z mod 2 ^ 64.

(** [(int64_t) z] *)
Definition i64 (z : Z) : Z := (z + 2 ^ 63) mod 2 ^ 64 - 2 ^ 63.

(** [~0U] and [~1U] *)
Definition ALL_ONES : Z := 0xFFFFFFFF.
Definition NOT_1U : Z := 0xFFFFFFFE.

(** Being a value of type [uint32_t]. *)
Definition is_u32 (z : Z) : Prop := 0 <= z < 2 ^ 32.

(* ===================================================================== *)
(** ** Decoded instructions *)
(* ===================================================================== *)

(** The opcode tags of the templates embedded below ([rv_insn_##inst]). *)
Inductive rv_opcode : Type :=
  | rv_insn_nop | rv_insn_lui | rv_insn_auipc
  | rv_insn_jal | rv_insn_jalr
  | rv_insn_beq | rv_insn_bne | rv_insn_blt | rv_insn_bge
  | rv_insn_bltu | rv_insn_bgeu
  | rv_insn_lb | rv_insn_lh | rv_insn_lw | rv_insn_lbu | rv_insn_lhu
  | rv_insn_sb | rv_insn_sh | rv_insn_sw
  | rv_insn_addi
  | rv_insn_slli | rv_insn_srli | rv_insn_srai
  | rv_insn_mulh | rv_insn_mulhsu | rv_insn_mulhu
  | rv_insn_div | rv_insn_divu | rv_insn_rem | rv_insn_remu
  | rv_insn_clw | rv_insn_csw | rv_insn_cjal | rv_insn_cli
  | rv_insn_csrli | rv_insn_csrai
  | rv_insn_cj | rv_insn_clwsp | rv_insn_cjr | rv_insn_cjalr
  | rv_insn_cswsp.

(** Modelled from the spec: [HISTORY_SIZE], the capacity H of a branch
    history table (its [#define] is not in the template file); the spec
    gives 8 as the default. *)
Definition HISTORY_SIZE : nat := 8.

(** Modelled from the spec: [branch_history_table_t] (declared outside the
    template file): H pairs (PC, target record) and a round-robin index.
    A target is a pointer to a decoded instruction, [None] being [NULL]. *)
Record branch_history_table : Type := mk_bht {
  bht_PC : list Z;
  bht_target : list (option nat);
  bht_idx : nat
}.

(** Modelled from the spec: [rv_insn_t], the decoded instruction record
    (declared outside the template file): opcode tag, register fields,
    immediate, shift amount, the successor in the block and the two
    optional successor references of a control transfer. *)
Record rv_insn : Type := mk_insn {
  opcode : rv_opcode;
  rd : nat;
  rs1 : nat;
  rs2 : nat;
  imm : Z;                         (* int32_t *)
  shamt : Z;                       (* uint8_t *)
  next : option nat;               (* struct rv_insn *next *)
  branch_taken : option nat;
  branch_untaken : option nat;
  branch_table : branch_history_table
}.

(** [rv_reg_zero], [rv_reg_ra], [rv_reg_sp] *)
Definition rv_reg_zero : nat := 0.
Definition rv_reg_ra : nat := 1.
Definition rv_reg_sp : nat := 2.

(** [__rv_insn_##inst##_len]: 2 for a compressed instruction, else 4. *)
Definition insn_len (op : rv_opcode) : Z :=
  match op with
  | rv_insn_clw | rv_insn_csw | rv_insn_cjal | rv_insn_cli
  | rv_insn_csrli | rv_insn_csrai | rv_insn_cj | rv_insn_clwsp
  | rv_insn_cjr | rv_insn_cjalr | rv_insn_cswsp => 2
  | _ => 4
  end.

(* ===================================================================== *)
(** ** Architectural state *)
(* ===================================================================== *)

(** The class of a misalignment exception ([rv_except_##type##_misaligned]). *)
Inductive misalign_kind : Type := insn | load | store.

(** One invocation of a host memory callback. *)
Inductive io_event : Type :=
  | ev_read_b (addr : Z) | ev_read_s (addr : Z) | ev_read_w (addr : Z)
  | ev_write_b (addr val : Z) | ev_write_s (addr val : Z)
  | ev_write_w (addr val : Z).

(** [rv->io]: the host callback table.  The host keeps its memory in a
    state of type [M]; a read returns a value, a write a new host state. *)
Record riscv_io (M : Type) : Type := mk_io {
  mem_read_b : M -> Z -> Z;
  mem_read_s : M -> Z -> Z;
  mem_read_w : M -> Z -> Z;
  mem_write_b : M -> Z -> Z -> M;
  mem_write_s : M -> Z -> Z -> M;
  mem_write_w : M -> Z -> Z -> M
}.
Arguments mem_read_b {M}.
Arguments mem_read_s {M}.
Arguments mem_read_w {M}.
Arguments mem_write_b {M}.
Arguments mem_write_s {M}.
Arguments mem_write_w {M}.

(** [riscv_t] together with what the templates reach through it: the host
    memory behind the callbacks with the log of callback invocations, the
    two statics of the interpreter ([is_branch_taken], [last_pc]), the arena
    of decoded instructions and the block map.  [misalign] is the field
    latched by a misalignment exception. *)
Record riscv (M : Type) : Type := mk_riscv {
  X : nat -> Z;                    (* uint32_t X[32] *)
  PC : Z;                          (* uint32_t *)
  csr_cycle : Z;                   (* uint64_t *)
  compressed : bool;
  misalign : option (misalign_kind * Z);
  io : riscv_io M;
  mem : M;
  io_log : list io_event;
  is_branch_taken : bool;
  last_pc : Z;
  insns : gmap nat rv_insn;
  block_map : gmap Z nat           (* PC of a block |-> its ir_head *)
}.
Arguments X {M}.
Arguments PC {M}.
Arguments csr_cycle {M}.
Arguments compressed {M}.
Arguments misalign {M}.
Arguments io {M}.
Arguments mem {M}.
Arguments io_log {M}.
Arguments is_branch_taken {M}.
Arguments last_pc {M}.
Arguments insns {M}.
Arguments block_map {M}.

Section Machine.
Context {M : Type}.

(** Field updates of [riscv_t]. *)
Definition set_X (r : nat) (v : Z) (rv : riscv M) : riscv M :=
  mk_riscv M (<[r := v]> (X rv)) (PC rv) (csr_cycle rv) (compressed rv)
    (misalign rv) (io rv) (mem rv) (io_log rv) (is_branch_taken rv)
    (last_pc rv) (insns rv) (block_map rv).

Definition set_PC (v : Z) (rv : riscv M) : riscv M :=
  mk_riscv M (X rv) v (csr_cycle rv) (compressed rv)
    (misalign rv) (io rv) (mem rv) (io_log rv) (is_branch_taken rv)
    (last_pc rv) (insns rv) (block_map rv).

Definition set_csr_cycle (v : Z) (rv : riscv M) : riscv M :=
  mk_riscv M (X rv) (PC rv) v (compressed rv)
    (misalign rv) (io rv) (mem rv) (io_log rv) (is_branch_taken rv)
    (last_pc rv) (insns rv) (block_map rv).

Definition set_compressed (v : bool) (rv : riscv M) : riscv M :=
  mk_riscv M (X rv) (PC rv) (csr_cycle rv) v
    (misalign rv) (io rv) (mem rv) (io_log rv) (is_branch_taken rv)
    (last_pc rv) (insns rv) (block_map rv).

Definition set_misalign (v : option (misalign_kind * Z)) (rv : riscv M)
  : riscv M :=
  mk_riscv M (X rv) (PC rv) (csr_cycle rv) (compressed rv)
    v (io rv) (mem rv) (io_log rv) (is_branch_taken rv)
    (last_pc rv) (insns rv) (block_map rv).

Definition set_mem (m : M) (ev : io_event) (rv : riscv M) : riscv M :=
  mk_riscv M (X rv) (PC rv) (csr_cycle rv) (compressed rv)
    (misalign rv) (io rv) m (io_log rv ++ [ev]) (is_branch_taken rv)
    (last_pc rv) (insns rv) (block_map rv).

Definition set_is_branch_taken (v : bool) (rv : riscv M) : riscv M :=
  mk_riscv M (X rv) (PC rv) (csr_cycle rv) (compressed rv)
    (misalign rv) (io rv) (mem rv) (io_log rv) v
    (last_pc rv) (insns rv) (block_map rv).

Definition set_last_pc (v : Z) (rv : riscv M) : riscv M :=
  mk_riscv M (X rv) (PC rv) (csr_cycle rv) (compressed rv)
    (misalign rv) (io rv) (mem rv) (io_log rv) (is_branch_taken rv)
    v (insns rv) (block_map rv).

Definition set_insn (p : nat) (ir : rv_insn) (rv : riscv M) : riscv M :=
  mk_riscv M (X rv) (PC rv) (csr_cycle rv) (compressed rv)
    (misalign rv) (io rv) (mem rv) (io_log rv) (is_branch_taken rv)
    (last_pc rv) (<[p := ir]> (insns rv)) (block_map rv).

Definition log_io (ev : io_event) (rv : riscv M) : riscv M :=
  set_mem (mem rv) ev rv.

Definition set_branch_table (t : branch_history_table) (ir : rv_insn)
  : rv_insn :=
  mk_insn (opcode ir) (rd ir) (rs1 ir) (rs2 ir) (imm ir) (shamt ir)
    (next ir) (branch_taken ir) (branch_untaken ir) t.

(* ===================================================================== *)
(** ** The interpreter frame of a template *)
(* ===================================================================== *)

(** How an expanded template [do_##inst(rv, ir, cycle, PC)] leaves:
    by a guaranteed tail call into another decoded instruction
    ([MUST_TAIL return target->impl(rv, target, cycle, PC)]), by returning
    a [bool], or by dereferencing [NULL] / reaching [__UNREACHABLE]. *)
Inductive outcome : Type :=
  | TailCall (target : nat) (rv : riscv M) (cycle PC : Z)
  | Ret (b : bool) (rv : riscv M)
  | Fault.

(** How the [code] block of a template ends: it reaches its end (or
    [goto nextop]), or it leaves the function by itself. *)
Inductive body : Type :=
  | FallThrough (rv : riscv M)
  | Leave (o : outcome).

(** [end_insn:] write PC and cycle back and return [true]. *)
Definition end_insn (rv : riscv M) (cycle PC : Z) : outcome :=
  Ret true (set_PC PC (set_csr_cycle cycle rv)).

(** Modelled from the spec: the tail of [RVOP] after [code] (the macro is
    defined outside the template file): advance PC by the instruction
    size; chain into the pre-linked successor when there is one, otherwise
    write back PC and cycle and return [true]. *)
Definition nextop (len : Z) (rv : riscv M) (ir : rv_insn) (cycle PC : Z)
  : outcome :=
  let PC := u32 (PC + len) in
  match next ir with
  | Some n => TailCall n rv cycle PC
  | None => end_insn rv cycle PC
  end.

(** Modelled from the spec: [RVOP(inst, code, asm)], the interpreter
    expansion of a template: count one cycle, run [code], then [nextop]. *)
Definition RVOP (op : rv_opcode)
    (code : riscv M -> nat -> rv_insn -> Z -> Z -> body)
    (rv : riscv M) (p : nat) (ir : rv_insn) (cycle PC : Z) : outcome :=
  let cycle := u64 (cycle + 1) in
  match code rv p ir cycle PC with
  | FallThrough rv' => nextop (insn_len op) rv' ir cycle PC
  | Leave o => o
  end.

(** Modelled from the spec: [insn_is_misaligned(pc)] (defined outside the
    template file).  The core is RV32-IMC: with the C extension an
    instruction address is misaligned when its bit 0 is set. *)
Definition insn_is_misaligned (pc : Z) : bool := negb (Z.land pc 1 =? 0).

(** Modelled from the spec: [rv_except_##type##_misaligned(rv, val)]
    (defined outside the template file): the exception latches its class
    and the value the template passes on the machine state. *)
Definition rv_except_misaligned (type : misalign_kind) (val : Z)
    (rv : riscv M) : riscv M :=
  set_misalign (Some (type, val)) rv.

(** Modelled from the spec: [RV_EXC_MISALIGN_HANDLER(mask_or_pc, type,
    compress, IO)] (defined outside the template file).  With [IO] the
    test is [addr & mask_or_pc], otherwise [insn_is_misaligned(PC)]; on
    misalignment the compressed flag, cycle and PC are written back, the
    exception is raised and the template returns [false]; [k] is the code
    after the macro. *)
Definition RV_EXC_MISALIGN_HANDLER (mask_or_pc : Z) (type : misalign_kind)
    (compress IO : bool) (addr : Z) (rv : riscv M) (cycle PC : Z)
    (k : body) : body :=
  if (if IO then negb (Z.land addr mask_or_pc =? 0)
      else insn_is_misaligned PC)
  then Leave (Ret false
         (rv_except_misaligned type mask_or_pc
            (set_PC PC (set_csr_cycle cycle (set_compressed compress rv)))))
  else k.

(** The linear scan of [LOOKUP_OR_UPDATE_BRANCH_HISTORY_TABLE]:
    [for (i = 0; i < HISTORY_SIZE; i++) if (PC[i] == PC) ... target[i]]. *)
Fixpoint bht_lookup (t : branch_history_table) (PC : Z) (i n : nat)
  : option (option nat) :=
  match n with
  | O => None
  | S n' =>
      if (bht_PC t !!! i) =? PC then Some (bht_target t !!! i)
      else bht_lookup t PC (S i) n'
  end.

(** [LOOKUP_OR_UPDATE_BRANCH_HISTORY_TABLE()], for the interpreter build
    ([!RV32_HAS(JIT)]); [block_find(&rv->block_map, PC)] is the lookup in
    the block map.  [k] is the code after the macro. *)
Definition LOOKUP_OR_UPDATE_BRANCH_HISTORY_TABLE (rv : riscv M) (p : nat)
    (ir : rv_insn) (cycle PC : Z) (k : outcome) : outcome :=
  let t := branch_table ir in
  match bht_lookup t PC 0 HISTORY_SIZE with
  | Some (Some target) => TailCall target rv cycle PC
  | Some None => Fault
  | None =>
      match block_map rv !! PC with
      | Some ir_head =>
          let t' :=
            mk_bht (<[bht_idx t := PC]> (bht_PC t))
                   (<[bht_idx t := Some ir_head]> (bht_target t))
                   ((bht_idx t + 1) mod HISTORY_SIZE)%nat in
          TailCall ir_head (set_insn p (set_branch_table t' ir) rv) cycle PC
      | None => k
      end
  end.

(** The common tail of the direct jumps and taken branches: chain into
    [ir->branch_taken] when it is linked, else [end_insn]. *)
Definition chain_taken (rv : riscv M) (ir : rv_insn) (cycle PC : Z)
  : outcome :=
  match branch_taken ir with
  | Some taken => TailCall taken (set_last_pc PC rv) cycle PC
  | None => end_insn rv cycle PC
  end.

(* ===================================================================== *)
(** ** RV32I templates *)
(* ===================================================================== *)

(** [nop]: [rv->X[rv_reg_zero] = 0;] *)
Definition op_nop (rv : riscv M) (ir : rv_insn) : riscv M :=
  set_X rv_reg_zero 0 rv.

(** [lui]: [rv->X[ir->rd] = ir->imm;] *)
Definition op_lui (rv : riscv M) (ir : rv_insn) : riscv M :=
  set_X (rd ir) (u32 (imm ir)) rv.

(** [auipc]: [rv->X[ir->rd] = ir->imm + PC;] *)
Definition op_auipc (rv : riscv M) (ir : rv_insn) (PC : Z) : riscv M :=
  set_X (rd ir) (u32 (imm ir + PC)) rv.

(** [jal] *)
Definition op_jal (rv : riscv M) (p : nat) (ir : rv_insn) (cycle PC : Z)
  : body :=
  let pc := PC in
  (* Jump *)
  let PC := u32 (PC + imm ir) in
  (* link with return address *)
  let rv := if decide (rd ir = 0%nat) then rv
            else set_X (rd ir) (u32 (pc + 4)) rv in
  (* check instruction misaligned *)
  RV_EXC_MISALIGN_HANDLER pc insn false false 0 rv cycle PC
    (Leave (chain_taken rv ir cycle PC)).

(** [jalr] *)
Definition op_jalr (rv : riscv M) (p : nat) (ir : rv_insn) (cycle PC : Z)
  : body :=
  let pc := PC in
  (* jump *)
  let PC := Z.land (u32 (X rv (rs1 ir) + imm ir)) NOT_1U in
  (* link *)
  let rv := if decide (rd ir = 0%nat) then rv
            else set_X (rd ir) (u32 (pc + 4)) rv in
  (* check instruction misaligned *)
  RV_EXC_MISALIGN_HANDLER pc insn false false 0 rv cycle PC
    (Leave (LOOKUP_OR_UPDATE_BRANCH_HISTORY_TABLE rv p ir cycle PC
              (end_insn rv cycle PC))).

(** [BRANCH_FUNC(type, cond)]: [type] is the cast applied to both
    operands, [cond] the comparison under which the branch is NOT taken. *)
Definition BRANCH_FUNC (type : Z -> Z) (cond : Z -> Z -> bool)
    (rv : riscv M) (p : nat) (ir : rv_insn) (cycle PC : Z) : body :=
  let pc := PC in
  if cond (type (X rv (rs1 ir))) (type (X rv (rs2 ir))) then
    let rv := set_is_branch_taken false rv in
    match branch_untaken ir with
    | None => FallThrough rv                         (* goto nextop *)
    | Some untaken =>
        let PC := u32 (PC + 4) in
        Leave (TailCall untaken (set_last_pc PC rv) cycle PC)
    end
  else
    let rv := set_is_branch_taken true rv in
    let PC := u32 (PC + imm ir) in
    (* check instruction misaligned *)
    RV_EXC_MISALIGN_HANDLER pc insn false false 0 rv cycle PC
      (Leave (chain_taken rv ir cycle PC)).

Definition op_beq := BRANCH_FUNC u32 (fun a b => negb (a =? b)).
Definition op_bne := BRANCH_FUNC u32 Z.eqb.
Definition op_blt := BRANCH_FUNC i32 Z.geb.
Definition op_bge := BRANCH_FUNC i32 Z.ltb.
Definition op_bltu := BRANCH_FUNC u32 Z.geb.
Definition op_bgeu := BRANCH_FUNC u32 Z.ltb.

(** Modelled from the spec: [sign_extend_b] and [sign_extend_h] (helpers
    defined outside the template file): sign extension of the low 8 and
    16 bits to 32 bits. *)
Definition sign_extend_b (x : Z) : Z := u32 ((x + 2 ^ 7) mod 2 ^ 8 - 2 ^ 7).
Definition sign_extend_h (x : Z) : Z := u32 (i16 x).

(** The six callbacks of [rv->io], each logged when it is invoked. *)
Definition io_read_b (rv : riscv M) (addr : Z) : Z * riscv M :=
  (u8 (mem_read_b (io rv) (mem rv) addr), log_io (ev_read_b addr) rv).
Definition io_read_s (rv : riscv M) (addr : Z) : Z * riscv M :=
  (u16 (mem_read_s (io rv) (mem rv) addr), log_io (ev_read_s addr) rv).
Definition io_read_w (rv : riscv M) (addr : Z) : Z * riscv M :=
  (u32 (mem_read_w (io rv) (mem rv) addr), log_io (ev_read_w addr) rv).
Definition io_write_b (rv : riscv M) (addr val : Z) : riscv M :=
  set_mem (mem_write_b (io rv) (mem rv) addr (u8 val))
          (ev_write_b addr (u8 val)) rv.
Definition io_write_s (rv : riscv M) (addr val : Z) : riscv M :=
  set_mem (mem_write_s (io rv) (mem rv) addr (u16 val))
          (ev_write_s addr (u16 val)) rv.
Definition io_write_w (rv : riscv M) (addr val : Z) : riscv M :=
  set_mem (mem_write_w (io rv) (mem rv) addr (u32 val))
          (ev_write_w addr (u32 val)) rv.

(** [lb] *)
Definition op_lb (rv : riscv M) (ir : rv_insn) : riscv M :=
  let '(v, rv) := io_read_b rv (u32 (X rv (rs1 ir) + imm ir)) in
  set_X (rd ir) (sign_extend_b v) rv.

(** [lh] *)
Definition op_lh (rv : riscv M) (p : nat) (ir : rv_insn) (cycle PC : Z)
  : body :=
  let addr := u32 (X rv (rs1 ir) + imm ir) in
  RV_EXC_MISALIGN_HANDLER 1 load false true addr rv cycle PC
    (let '(v, rv) := io_read_s rv addr in
     FallThrough (set_X (rd ir) (sign_extend_h v) rv)).

(** [lw] *)
Definition op_lw (rv : riscv M) (p : nat) (ir : rv_insn) (cycle PC : Z)
  : body :=
  let addr := u32 (X rv (rs1 ir) + imm ir) in
  RV_EXC_MISALIGN_HANDLER 3 load false true addr rv cycle PC
    (let '(v, rv) := io_read_w rv addr in
     FallThrough (set_X (rd ir) v rv)).

(** [lbu] *)
Definition op_lbu (rv : riscv M) (ir : rv_insn) : riscv M :=
  let '(v, rv) := io_read_b rv (u32 (X rv (rs1 ir) + imm ir)) in
  set_X (rd ir) v rv.

(** [lhu] *)
Definition op_lhu (rv : riscv M) (p : nat) (ir : rv_insn) (cycle PC : Z)
  : body :=
  let addr := u32 (X rv (rs1 ir) + imm ir) in
  RV_EXC_MISALIGN_HANDLER 1 load false true addr rv cycle PC
    (let '(v, rv) := io_read_s rv addr in
     FallThrough (set_X (rd ir) v rv)).

(** [sb] *)
Definition op_sb (rv : riscv M) (ir : rv_insn) : riscv M :=
  io_write_b rv (u32 (X rv (rs1 ir) + imm ir)) (X rv (rs2 ir)).

(** [sh] *)
Definition op_sh (rv : riscv M) (p : nat) (ir : rv_insn) (cycle PC : Z)
  : body :=
  let addr := u32 (X rv (rs1 ir) + imm ir) in
  RV_EXC_MISALIGN_HANDLER 1 store false true addr rv cycle PC
    (FallThrough (io_write_s rv addr (X rv (rs2 ir)))).

(** [sw] *)
Definition op_sw (rv : riscv M) (p : nat) (ir : rv_insn) (cycle PC : Z)
  : body :=
  let addr := u32 (X rv (rs1 ir) + imm ir) in
  RV_EXC_MISALIGN_HANDLER 3 store false true addr rv cycle PC
    (FallThrough (io_write_w rv addr (X rv (rs2 ir)))).

(** [addi]: [rv->X[ir->rd] = (int32_t) (rv->X[ir->rs1]) + ir->imm;] *)
Definition op_addi (rv : riscv M) (ir : rv_insn) : riscv M :=
  set_X (rd ir) (u32 (i32 (X rv (rs1 ir)) + imm ir)) rv.

(** [shift_func]; [None] is [__UNREACHABLE]. *)
Definition shift_func (rv : riscv M) (ir : rv_insn) : option (riscv M) :=
  match opcode ir with
  | rv_insn_slli =>
      Some (set_X (rd ir)
              (u32 (Z.shiftl (X rv (rs1 ir)) (Z.land (imm ir) 0x1f))) rv)
  | rv_insn_srli =>
      Some (set_X (rd ir)
              (Z.shiftr (X rv (rs1 ir)) (Z.land (imm ir) 0x1f)) rv)
  | rv_insn_srai =>
      Some (set_X (rd ir)
              (u32 (Z.shiftr (i32 (X rv (rs1 ir))) (Z.land (imm ir) 0x1f)))
              rv)
  | _ => None
  end.

(** [slli], [srli], [srai]: [{ shift_func(rv, ir); }] *)
Definition op_shift (rv : riscv M) (p : nat) (ir : rv_insn) (cycle PC : Z)
  : body :=
  match shift_func rv ir with
  | Some rv' => FallThrough rv'
  | None => Leave Fault
  end.

(* ===================================================================== *)
(** ** RV32M templates *)
(* ===================================================================== *)

(** [mulh] *)
Definition op_mulh (rv : riscv M) (ir : rv_insn) : riscv M :=
  let multiplicand := i64 (i32 (X rv (rs1 ir))) in
  let multiplier := i64 (i32 (X rv (rs2 ir))) in
  set_X (rd ir)
    (u32 (Z.shiftr (u64 (i64 (multiplicand * multiplier))) 32)) rv.

(** [mulhsu]: the signed multiplicand is converted to [uint64_t] by the
    usual arithmetic conversions before the product is taken. *)
Definition op_mulhsu (rv : riscv M) (ir : rv_insn) : riscv M :=
  let multiplicand := i64 (i32 (X rv (rs1 ir))) in
  let umultiplier := u64 (X rv (rs2 ir)) in
  set_X (rd ir)
    (u32 (Z.shiftr (u64 (u64 (u64 multiplicand * umultiplier))) 32)) rv.

(** [mulhu] *)
Definition op_mulhu (rv : riscv M) (ir : rv_insn) : riscv M :=
  set_X (rd ir)
    (u32 (Z.shiftr (u64 (u64 (X rv (rs1 ir)) * u64 (X rv (rs2 ir)))) 32))
    rv.

(** [div]; C's [/] on [int32_t] truncates toward zero ([Z.quot]). *)
Definition op_div (rv : riscv M) (ir : rv_insn) : riscv M :=
  let dividend := i32 (X rv (rs1 ir)) in
  let divisor := i32 (X rv (rs2 ir)) in
  set_X (rd ir)
    (if divisor =? 0 then ALL_ONES
     else if (divisor =? -1) && (X rv (rs1 ir) =? 0x80000000)
          then X rv (rs1 ir) (* overflow *)
          else u32 (Z.quot dividend divisor))
    rv.

(** [divu] *)
Definition op_divu (rv : riscv M) (ir : rv_insn) : riscv M :=
  let udividend := X rv (rs1 ir) in
  let udivisor := X rv (rs2 ir) in
  set_X (rd ir)
    (if udivisor =? 0 then ALL_ONES else Z.quot udividend udivisor) rv.

(** [rem]; C's [%] on [int32_t] takes the sign of the dividend ([Z.rem]). *)
Definition op_rem (rv : riscv M) (ir : rv_insn) : riscv M :=
  let dividend := i32 (X rv (rs1 ir)) in
  let divisor := i32 (X rv (rs2 ir)) in
  set_X (rd ir)
    (u32 (if divisor =? 0 then dividend
          else if (divisor =? -1) && (X rv (rs1 ir) =? 0x80000000)
               then 0
               else Z.rem dividend divisor))
    rv.

(** [remu] *)
Definition op_remu (rv : riscv M) (ir : rv_insn) : riscv M :=
  let udividend := X rv (rs1 ir) in
  let udivisor := X rv (rs2 ir) in
  set_X (rd ir)
    (if udivisor =? 0 then udividend else Z.rem udividend udivisor) rv.

(* ===================================================================== *)
(** ** RV32C templates *)
(* ===================================================================== *)

(** [clw] *)
Definition op_clw (rv : riscv M) (p : nat) (ir : rv_insn) (cycle PC : Z)
  : body :=
  let addr := u32 (X rv (rs1 ir) + u32 (imm ir)) in
  RV_EXC_MISALIGN_HANDLER 3 load true true addr rv cycle PC
    (let '(v, rv) := io_read_w rv addr in
     FallThrough (set_X (rd ir) v rv)).

(** [csw] *)
Definition op_csw (rv : riscv M) (p : nat) (ir : rv_insn) (cycle PC : Z)
  : body :=
  let addr := u32 (X rv (rs1 ir) + u32 (imm ir)) in
  RV_EXC_MISALIGN_HANDLER 3 store true true addr rv cycle PC
    (FallThrough (io_write_w rv addr (X rv (rs2 ir)))).

(** [cjal] *)
Definition op_cjal (rv : riscv M) (p : nat) (ir : rv_insn) (cycle PC : Z)
  : body :=
  let rv := set_X rv_reg_ra (u32 (PC + 2)) rv in
  let PC := u32 (PC + imm ir) in
  RV_EXC_MISALIGN_HANDLER PC insn true false 0 rv cycle PC
    (Leave (chain_taken rv ir cycle PC)).

(** [cli]: [rv->X[ir->rd] = ir->imm;] *)
Definition op_cli (rv : riscv M) (ir : rv_insn) : riscv M :=
  set_X (rd ir) (u32 (imm ir)) rv.

(** [csrli]: [rv->X[ir->rs1] >>= ir->shamt;] *)
Definition op_csrli (rv : riscv M) (ir : rv_insn) : riscv M :=
  set_X (rs1 ir) (Z.shiftr (X rv (rs1 ir)) (shamt ir)) rv.

(** The loop of [csrai]:
    [for (unsigned int i = 0; i < ir->shamt; ++i) rv->X[ir->rs1] |= mask >> i;]
    with [n] the iterations left. *)
Fixpoint csrai_loop (mask : Z) (r : nat) (i : Z) (n : nat) (rv : riscv M)
  : riscv M :=
  match n with
  | O => rv
  | S n' =>
      csrai_loop mask r (i + 1) n'
        (set_X r (Z.lor (X rv r) (Z.shiftr mask i)) rv)
  end.

(** [csrai] *)
Definition op_csrai (rv : riscv M) (ir : rv_insn) : riscv M :=
  let mask := Z.land 0x80000000 (X rv (rs1 ir)) in
  let rv := set_X (rs1 ir) (Z.shiftr (X rv (rs1 ir)) (shamt ir)) rv in
  csrai_loop mask (rs1 ir) 0 (Z.to_nat (shamt ir)) rv.

(** The 32-bit expansion of C.SRAI named by its comment:
    [srai rd', rd', shamt]. *)
Definition csrai_expansion (ir : rv_insn) : rv_insn :=
  mk_insn rv_insn_srai (rs1 ir) (rs1 ir) (rs2 ir) (shamt ir) (shamt ir)
    (next ir) (branch_taken ir) (branch_untaken ir) (branch_table ir).

(** [cj] *)
Definition op_cj (rv : riscv M) (p : nat) (ir : rv_insn) (cycle PC : Z)
  : body :=
  let PC := u32 (PC + imm ir) in
  RV_EXC_MISALIGN_HANDLER PC insn true false 0 rv cycle PC
    (Leave (chain_taken rv ir cycle PC)).

(** [clwsp] *)
Definition op_clwsp (rv : riscv M) (p : nat) (ir : rv_insn) (cycle PC : Z)
  : body :=
  let addr := u32 (X rv rv_reg_sp + imm ir) in
  RV_EXC_MISALIGN_HANDLER 3 load true true addr rv cycle PC
    (let '(v, rv) := io_read_w rv addr in
     FallThrough (set_X (rd ir) v rv)).

(** [cjr] *)
Definition op_cjr (rv : riscv M) (p : nat) (ir : rv_insn) (cycle PC : Z)
  : body :=
  let PC := X rv (rs1 ir) in
  Leave (LOOKUP_OR_UPDATE_BRANCH_HISTORY_TABLE rv p ir cycle PC
           (end_insn rv cycle PC)).

(** [cjalr] *)
Definition op_cjalr (rv : riscv M) (p : nat) (ir : rv_insn) (cycle PC : Z)
  : body :=
  (* Unconditional jump and store PC+2 to ra *)
  let jump_to := i32 (X rv (rs1 ir)) in
  let rv := set_X rv_reg_ra (u32 (PC + 2)) rv in
  let PC := u32 jump_to in
  RV_EXC_MISALIGN_HANDLER PC insn true false 0 rv cycle PC
    (Leave (LOOKUP_OR_UPDATE_BRANCH_HISTORY_TABLE rv p ir cycle PC
              (end_insn rv cycle PC))).

(** [cswsp] *)
Definition op_cswsp (rv : riscv M) (p : nat) (ir : rv_insn) (cycle PC : Z)
  : body :=
  let addr := u32 (X rv rv_reg_sp + imm ir) in
  RV_EXC_MISALIGN_HANDLER 3 store true true addr rv cycle PC
    (FallThrough (io_write_w rv addr (X rv (rs2 ir)))).

(* ===================================================================== *)
(** ** Dispatch *)
(* ===================================================================== *)

(** A template whose [code] only updates the machine and falls through. *)
Definition straight (f : riscv M -> rv_insn -> riscv M)
    (rv : riscv M) (p : nat) (ir : rv_insn) (cycle PC : Z) : body :=
  FallThrough (f rv ir).

(** [ir->impl]: the function [do_##inst] that [RVOP] expands for the
    opcode of the record. *)
Definition impl (op : rv_opcode)
  : riscv M -> nat -> rv_insn -> Z -> Z -> outcome :=
  RVOP op
    match op with
    | rv_insn_nop => straight op_nop
    | rv_insn_lui => straight op_lui
    | rv_insn_auipc =>
        fun rv p ir cycle PC => FallThrough (op_auipc rv ir PC)
    | rv_insn_jal => op_jal
    | rv_insn_jalr => op_jalr
    | rv_insn_beq => op_beq
    | rv_insn_bne => op_bne
    | rv_insn_blt => op_blt
    | rv_insn_bge => op_bge
    | rv_insn_bltu => op_bltu
    | rv_insn_bgeu => op_bgeu
    | rv_insn_lb => straight op_lb
    | rv_insn_lh => op_lh
    | rv_insn_lw => op_lw
    | rv_insn_lbu => straight op_lbu
    | rv_insn_lhu => op_lhu
    | rv_insn_sb => straight op_sb
    | rv_insn_sh => op_sh
    | rv_insn_sw => op_sw
    | rv_insn_addi => straight op_addi
    | rv_insn_slli | rv_insn_srli | rv_insn_srai => op_shift
    | rv_insn_mulh => straight op_mulh
    | rv_insn_mulhsu => straight op_mulhsu
    | rv_insn_mulhu => straight op_mulhu
    | rv_insn_div => straight op_div
    | rv_insn_divu => straight op_divu
    | rv_insn_rem => straight op_rem
    | rv_insn_remu => straight op_remu
    | rv_insn_clw => op_clw
    | rv_insn_csw => op_csw
    | rv_insn_cjal => op_cjal
    | rv_insn_cli => straight op_cli
    | rv_insn_csrli => straight op_csrli
    | rv_insn_csrai => straight op_csrai
    | rv_insn_cj => op_cj
    | rv_insn_clwsp => op_clwsp
    | rv_insn_cjr => op_cjr
    | rv_insn_cjalr => op_cjalr
    | rv_insn_cswsp => op_cswsp
    end.

(** The result of a dispatch that follows the tail calls. *)
Inductive run_result : Type :=
  | Finished (b : bool) (rv : riscv M)
  | Faulted
  | OutOfFuel.

(** [ir->impl(rv, ir, cycle, PC)] with its chain of tail calls followed,
    at most [fuel] instructions long. *)
Fixpoint run (fuel : nat) (rv : riscv M) (p : nat) (cycle PC : Z)
  : run_result :=
  match fuel with
  | O => OutOfFuel
  | S fuel' =>
      match insns rv !! p with
      | None => Faulted
      | Some ir =>
          match impl (opcode ir) rv p ir cycle PC with
          | TailCall target rv' cycle' PC' => run fuel' rv' target cycle' PC'
          | Ret b rv' => Finished b rv'
          | Fault => Faulted
          end
      end
  end.

(** Modelled from the spec: the outer run loop (defined outside the
    template file): on every block exit the next PC is looked up in the
    block map and the block found there is dispatched; the loop stops
    when a dispatch returns [false], when no block is known at PC, or
    after [blocks] blocks. *)
Fixpoint rv_step (blocks fuel : nat) (rv : riscv M) : run_result :=
  match blocks with
  | O => Finished true rv
  | S blocks' =>
      match block_map rv !! PC rv with
      | None => Finished true rv
      | Some ir_head =>
          match run fuel rv ir_head (csr_cycle rv) (PC rv) with
          | Finished true rv' => rv_step blocks' fuel rv'
          | r => r
          end
      end
  end.

(** The PC an outcome continues at: the one handed to the successor, or
    the one written back to [rv->PC]. *)
Definition outcome_pc (o : outcome) : option Z :=
  match o with
  | TailCall _ _ _ PC => Some PC
  | Ret _ rv => Some (PC rv)
  | Fault => None
  end.

(** The machine an outcome leaves. *)
Definition outcome_rv (o : outcome) : option (riscv M) :=
  match o with
  | TailCall _ rv _ _ => Some rv
  | Ret _ rv => Some rv
  | Fault => None
  end.

(** The value register [r] holds when the dispatched template leaves. *)
Definition reg_after (o : outcome) (r : nat) : option Z :=
  (fun rv => X rv r) <$> outcome_rv o.

End Machine.

(* ===================================================================== *)
(** ** utils.c: the open-addressed set *)
(* ===================================================================== *)

Section SetDefs.

(** Modelled from the spec: [set_hash], generated by [HASH_FUNC_IMPL] from
    a header that is not among the sources; it maps a key to the index of
    its bucket.  The spec does not describe it, so it is a parameter. *)
Variable set_hash : Z -> nat.

(** [set_t]: [table[SET_SIZE][SET_SLOTS_SIZE]], a list of buckets, each a
    list of [SET_SLOTS_SIZE] slots; an empty slot holds 0. *)
Definition set_t : Type := list (list Z).

(** How the scan of a bucket ends. *)
Inductive scan_result : Type :=
  | ScanFound                (* a slot equal to the key *)
  | ScanEnd (count : nat)    (* the first empty slot *)
  | ScanAbort.               (* the scan left the bucket: [assert] fails *)

(** The loop shared by [set_add] and [set_has]:
    [for (; set->table[index][count]; count++) {
       assert(count < SET_SLOTS_SIZE);
       if (set->table[index][count] == key) return ...; }]
    A slot is read at [row !! count]; outside the bucket the read is out
    of bounds and the assertion cannot hold. *)
Fixpoint set_scan (row : list Z) (key : Z) (count fuel : nat)
  : scan_result :=
  match fuel with
  | O => ScanAbort
  | S fuel' =>
      match row !! count with
      | None => ScanAbort
      | Some slot =>
          if slot =? 0 then ScanEnd count
          else if slot =? key then ScanFound
          else set_scan row key (S count) fuel'
      end
  end.

(** [set_add]; [None] when an assertion fails. *)
Definition set_add (set : set_t) (key : Z) : option (bool * set_t) :=
  let index := set_hash key in
  row ← set !! index;
  match set_scan row key 0 (S (length row)) with
  | ScanFound => Some (false, set)
  | ScanEnd count => Some (true, <[index := <[count := key]> row]> set)
  | ScanAbort => None
  end.

(** [set_has]; [None] when an assertion fails. *)
Definition set_has (set : set_t) (key : Z) : option bool :=
  let index := set_hash key in
  row ← set !! index;
  match set_scan row key 0 (S (length row)) with
  | ScanFound => Some true
  | ScanEnd _ => Some false
  | ScanAbort => None
  end.

(** The slots [count .. c) are occupied by keys other than [key]. *)
Definition occupied_by_others (row : list Z) (key : Z) (count c : nat)
  : Prop :=
  forall j, (count <= j < c)%nat ->
    exists s, row !! j = Some s /\ s <> 0 /\ s <> key.

End SetDefs.

(* ===================================================================== *)
(** ** utils.c: sanitize_path *)
(* ===================================================================== *)

Definition NUL : ascii := Ascii.zero.
Definition SLASH : ascii := "/"%char.
Definition DOT : ascii := "."%char.

Definition MAX_PATH_LEN : nat := 1024.

(** [strnlen(s, maxlen)] over the bytes [s] of the object the pointer
    refers to; [None] when the scan runs past the end of the object. *)
Fixpoint strnlen (s : list ascii) (maxlen : nat) : option nat :=
  match maxlen with
  | O => Some O
  | S maxlen' =>
      match s with
      | [] => None
      | c :: s' =>
          if decide (c = NUL) then Some O else S <$> strnlen s' maxlen'
      end
  end.

(** [ret[w] = c]; [None] when [w] is outside the buffer. *)
Definition buf_write (ret : list ascii) (w : nat) (c : ascii)
  : option (list ascii) :=
  if decide (w < length ret)%nat then Some (<[w := c]> ret) else None.

(** The state of the main loop of [sanitize_path]. *)
Record sp_state : Type := mk_sp {
  sp_r : nat;
  sp_w : nat;
  sp_dotdot : nat;
  sp_ret : list ascii
}.

(** [while (w > dotdot && ret[w] != '/') w--;] *)
Fixpoint backtrack (ret : list ascii) (dotdot w : nat) : option nat :=
  match w with
  | O => Some O
  | S w' =>
      if decide (dotdot < w)%nat then
        c ← ret !! w;
        if decide (c = SLASH) then Some w else backtrack ret dotdot w'
      else Some w
  end.

(** [for (; r < n && input[r] != '/'; r++) { ret[w] = input[r]; w++; }] *)
Fixpoint copy_element (input : list ascii) (n fuel r w : nat)
    (ret : list ascii) : option (nat * nat * list ascii) :=
  match fuel with
  | O => None
  | S fuel' =>
      if decide (r < n)%nat then
        c ← input !! r;
        if decide (c = SLASH) then Some (r, w, ret)
        else
          ret' ← buf_write ret w c;
          copy_element input n fuel' (r + 1)%nat (w + 1)%nat ret'
      else Some (r, w, ret)
  end.

(** [input[r] == '.' && (r + 1 == n || input[r + 1] == '/')] *)
Definition is_dot_element (input : list ascii) (n r : nat) : option bool :=
  c ← input !! r;
  if decide (c = DOT) then
    if decide (r + 1 = n)%nat then Some true
    else c1 ← input !! (r + 1)%nat; Some (bool_decide (c1 = SLASH))
  else Some false.

(** [input[r] == '.' && input[r + 1] == '.' &&
     (r + 2 == n || input[r + 2] == '/')] *)
Definition is_dotdot_element (input : list ascii) (n r : nat)
  : option bool :=
  c ← input !! r;
  if decide (c = DOT) then
    c1 ← input !! (r + 1)%nat;
    if decide (c1 = DOT) then
      if decide (r + 2 = n)%nat then Some true
      else c2 ← input !! (r + 2)%nat; Some (bool_decide (c2 = SLASH))
    else Some false
  else Some false.

(** One iteration of [while (r < n) { ... }]. *)
Definition sanitize_iter (input : list ascii) (n : nat) (is_root : bool)
    (st : sp_state) : option sp_state :=
  let '(mk_sp r w dotdot ret) := st in
  c ← input !! r;
  if decide (c = SLASH) then
    (* empty path element *)
    Some (mk_sp (r + 1) w dotdot ret)
  else
    dot ← is_dot_element input n r;
    if dot : bool then
      (* . element *)
      Some (mk_sp (r + 1) w dotdot ret)
    else
      dotdot_el ← is_dotdot_element input n r;
      if dotdot_el : bool then
        (* .. element: remove to last '/' *)
        let r := (r + 2)%nat in
        if decide (dotdot < w)%nat then
          (* can backtrack *)
          w' ← backtrack ret dotdot (w - 1);
          Some (mk_sp r w' dotdot ret)
        else if negb is_root then
          (* cannot backtrack, but not is_root, so append .. element. *)
          '(w, ret) ← (if decide (0 < w)%nat
                       then ret' ← buf_write ret w SLASH;
                            Some ((w + 1)%nat, ret')
                       else Some (w, ret));
          ret ← buf_write ret w DOT;
          ret ← buf_write ret (w + 1) DOT;
          Some (mk_sp r (w + 2) (w + 2) ret)
        else Some (mk_sp r w dotdot ret)
      else
        (* real path element, add slash if needed *)
        '(w, ret) ← (if (is_root && negb (bool_decide (w = 1%nat)))
                        || (negb is_root && negb (bool_decide (w = 0%nat)))
                     then ret' ← buf_write ret w SLASH;
                          Some ((w + 1)%nat, ret')
                     else Some (w, ret));
        (* copy element *)
        '(r, w, ret) ← copy_element input n (S (n - r)) r w ret;
        Some (mk_sp r w dotdot ret).

(** [while (r < n) { ... }], at most [fuel] iterations. *)
Fixpoint sanitize_loop (input : list ascii) (n : nat) (is_root : bool)
    (fuel : nat) (st : sp_state) : option sp_state :=
  if decide (sp_r st < n)%nat then
    match fuel with
    | O => None
    | S fuel' =>
        st' ← sanitize_iter input n is_root st;
        sanitize_loop input n is_root fuel' st'
    end
  else Some st.

(** [memset(ret + w, '\0', len)] with [len = n + 1 - w]; [None] when the
    range leaves the buffer. *)
Definition memset_nul (ret : list ascii) (w len : nat)
  : option (list ascii) :=
  if decide (w + len <= length ret)%nat
  then Some (take w ret ++ replicate len NUL ++ drop (w + len) ret)
  else None.

(** [sanitize_path(input)], for a [calloc] that succeeds: the bytes of the
    buffer it returns ([n + 1] of them).  [input] is the bytes of the
    object behind the pointer; [None] is an access outside an object. *)
Definition sanitize_path (input : list ascii) : option (list ascii) :=
  n ← strnlen input MAX_PATH_LEN;
  let ret := replicate (n + 1) NUL in
  if decide (n = 0%nat) then buf_write ret 0 DOT
  else
    c0 ← input !! 0%nat;
    let is_root := bool_decide (c0 = SLASH) in
    st ← (if is_root
          then ret' ← buf_write ret 0 SLASH; Some (mk_sp 1 1 1 ret')
          else Some (mk_sp 0 0 0 ret));
    st ← sanitize_loop input n is_root n st;
    let '(mk_sp r w dotdot ret) := st in
    (* Turn empty string into "." *)
    '(w, ret) ← (if decide (w = 0%nat)
                 then ret' ← buf_write ret w DOT; Some ((w + 1)%nat, ret')
                 else Some (w, ret));
    if decide (w <= n + 1)%nat then memset_nul ret w (n + 1 - w) else None.

(** The C string held by a buffer: the bytes before the first NUL;
    [None] when the buffer holds no NUL. *)
Fixpoint cstring (buf : list ascii) : option (list ascii) :=
  match buf with
  | [] => None
  | c :: buf' =>
      if decide (c = NUL) then Some [] else (c ::.) <$> cstring buf'
  end.

(** The object holding the C string [s]: its bytes and the terminator. *)
Definition cstr (s : string) : list ascii :=
  list_ascii_of_string s ++ [NUL].

(* ===================================================================== *)
(** ** sanitize_path read element by element *)
(* ===================================================================== *)

(** What [sanitize_path] computes, stated on path elements: the input is
    cut at its slashes, the elements are pushed on a stack in path order,
    [""] and ["."] are dropped, [".."] removes the last real element or,
    when there is none and the path is relative, is kept.  The theorems
    below relate the byte-level loop to this reading. *)

Definition DOTDOT : list ascii := [DOT; DOT].

(** The elements of a path: the runs between its slashes. *)
Fixpoint split_slash (s : list ascii) : list (list ascii) :=
  match s with
  | [] => [[]]
  | c :: s' =>
      if decide (c = SLASH) then [] :: split_slash s'
      else match split_slash s' with
           | e :: es => (c :: e) :: es
           | [] => [[c]]
           end
  end.

(** A [".."] element met with the elements [es] kept so far. *)
Definition apply_dotdot (is_root : bool) (es : list (list ascii))
  : list (list ascii) :=
  match last es with
  | Some e =>
      if decide (e = DOTDOT) then (if is_root then es else es ++ [DOTDOT])
      else removelast es
  | None => if is_root then es else [DOTDOT]
  end.

(** One element met with the elements [es] kept so far. *)
Definition process_element (is_root : bool) (es : list (list ascii))
    (e : list ascii) : list (list ascii) :=
  if decide (e = []) then es
  else if decide (e = [DOT]) then es
  else if decide (e = DOTDOT) then apply_dotdot is_root es
  else es ++ [e].

(** The elements kept after reading the path [rest], starting from [es]. *)
Definition kept_elements (is_root : bool) (rest : list ascii)
    (es : list (list ascii)) : list (list ascii) :=
  fold_left (process_element is_root) (split_slash rest) es.

(** Elements joined by slashes. *)
Fixpoint join_slash (es : list (list ascii)) : list ascii :=
  match es with
  | [] => []
  | [e] => e
  | e :: es' => e ++ SLASH :: join_slash es'
  end.

(** The bytes written for the kept elements [es]. *)
Definition render (is_root : bool) (es : list (list ascii)) : list ascii :=
  (if is_root then [SLASH] else []) ++ join_slash es.

(** Whether the path [s] is absolute: [is_root] in the source. *)
Definition path_is_root (s : list ascii) : bool :=
  bool_decide (head s = Some SLASH).

(** The elements kept for the whole path [s]; the leading slash of an
    absolute path is consumed before the loop. *)
Definition path_elements (s : list ascii) : list (list ascii) :=
  kept_elements (path_is_root s)
    (if path_is_root s then drop 1 s else s) [].

(** The path [sanitize_path] stands for, for the bytes [s] of a
    non-empty input: the rendering of the kept elements, and ["."] when
    that is empty. *)
Definition clean_path (s : list ascii) : list ascii :=
  let out := render (path_is_root s) (path_elements s) in
  if decide (out = []) then [DOT] else out.

(** A real path element: not empty, without a slash or a NUL, and
    neither ["."] nor [".."]. *)
Definition real_element (e : list ascii) : Prop :=
  e <> [] /\ (SLASH ∉ e) /\ (NUL ∉ e) /\ e <> [DOT] /\ e <> DOTDOT.

(** The shape of a stack of kept elements: [k] elements [".."], none
    when the path is absolute, then real elements. *)
Definition kept_shape (is_root : bool) (k : nat) (es : list (list ascii))
  : Prop :=
  exists reals,
    es = replicate k DOTDOT ++ reals /\
    Forall real_element reals /\
    (is_root = true -> k = 0%nat).

(** The offset in the output below which [".."] may not remove:
    [dotdot] in the source. *)
Definition dotdot_offset (is_root : bool) (k : nat) : nat :=
  length (render is_root (replicate k DOTDOT)).

(** The invariant of the main loop of [sanitize_path], for the input
    bytes [take n input], with [es] the elements kept so far and [F] the
    elements kept at the end: the buffer holds the rendering of [es] in
    its first [w] bytes, [dotdot] is the offset of its [".."] prefix, the
    write cursor never overtakes the read cursor, and it is strictly
    behind whenever a separator will have to be written. *)
Definition sp_inv (input : list ascii) (n : nat) (is_root : bool)
    (F : list (list ascii)) (st : sp_state) : Prop :=
  exists es k,
    (sp_r st <= n)%nat /\
    length (sp_ret st) = (n + 1)%nat /\
    take (sp_w st) (sp_ret st) = render is_root es /\
    sp_w st = length (render is_root es) /\
    sp_dotdot st = dotdot_offset is_root k /\
    kept_shape is_root k es /\
    kept_elements is_root (drop (sp_r st) (take n input)) es = F /\
    (sp_w st <= sp_r st)%nat /\
    (sp_r st = n \/ take n input !! sp_r st = Some SLASH \/
     (sp_w st < sp_r st)%nat \/ es = []).

(* ===================================================================== *)
(** ** The vocabulary of the specification *)
(* ===================================================================== *)

(** The comparison each conditional branch stands for, as the ISA and the
    comment above the branch templates state it: the branch is taken when
    this holds of [X[rs1]] and [X[rs2]]. *)
Definition branch_predicate (op : rv_opcode) (a b : Z) : bool :=
  match op with
  | rv_insn_beq => a =? b
  | rv_insn_bne => negb (a =? b)
  | rv_insn_blt => i32 a <? i32 b
  | rv_insn_bge => i32 b <=? i32 a
  | rv_insn_bltu => a <? b
  | rv_insn_bgeu => b <=? a
  | _ => false
  end.

Definition is_branch (op : rv_opcode) : Prop :=
  op ∈ [rv_insn_beq; rv_insn_bne; rv_insn_blt; rv_insn_bge;
        rv_insn_bltu; rv_insn_bgeu].

(** The loads and stores wider than a byte, with the mask of the address
    bits that must be clear (bit 0 of a halfword, bits 1:0 of a word) and
    the class of their misalignment exception. *)
Definition wide_access (op : rv_opcode) : option (Z * misalign_kind) :=
  match op with
  | rv_insn_lh | rv_insn_lhu => Some (1, load)
  | rv_insn_sh => Some (1, store)
  | rv_insn_lw | rv_insn_clw | rv_insn_clwsp => Some (3, load)
  | rv_insn_sw | rv_insn_csw | rv_insn_cswsp => Some (3, store)
  | _ => None
  end.

(** The byte loads and stores. *)
Definition is_byte_access (op : rv_opcode) : Prop :=
  op ∈ [rv_insn_lb; rv_insn_lbu; rv_insn_sb].

(** The effective address of a load or store: base register plus offset,
    the base being [sp] for C.LWSP and C.SWSP. *)
Definition effective_address {M : Type} (op : rv_opcode) (rv : riscv M)
    (ir : rv_insn) : Z :=
  match op with
  | rv_insn_clwsp | rv_insn_cswsp => u32 (X rv rv_reg_sp + imm ir)
  | _ => u32 (X rv (rs1 ir) + imm ir)
  end.

(** A dispatched template raises a misalignment exception of class [k]:
    it returns [false] to the run loop with the class latched on the
    machine, and dispatches no successor. *)
Definition raises {M : Type} (o : @outcome M) (k : misalign_kind) : Prop :=
  exists rv' v, o = Ret false rv' /\ misalign rv' = Some (k, v).

(** The address a callback invocation was made with. *)
Definition event_addr (ev : io_event) : Z :=
  match ev with
  | ev_read_b a | ev_read_s a | ev_read_w a => a
  | ev_write_b a _ | ev_write_s a _ | ev_write_w a _ => a
  end.

(* ===================================================================== *)
(** ** Concrete machines for the end-to-end scenarios *)
(* ===================================================================== *)

(** A host without memory: reads return 0, writes are dropped. *)
Definition no_io : riscv_io unit :=
  mk_io unit (fun _ _ => 0) (fun _ _ => 0) (fun _ _ => 0)
    (fun m _ _ => m) (fun m _ _ => m) (fun m _ _ => m).

(** A branch history table that records nothing yet. *)
Definition empty_bht : branch_history_table :=
  mk_bht (replicate HISTORY_SIZE 0xFFFFFFFF) (replicate HISTORY_SIZE None) 0.

Definition mk_ir (op : rv_opcode) (rd rs1 rs2 : nat) (imm : Z)
    (next taken untaken : option nat) : rv_insn :=
  mk_insn op rd rs1 rs2 imm 0 next taken untaken empty_bht.

(** The machine after reset: all registers zero, PC at [pc]. *)
Definition machine0 (code : gmap nat rv_insn) (blocks : gmap Z nat)
    (pc : Z) : riscv unit :=
  mk_riscv unit (fun _ => 0) pc 0 false None no_io tt [] false 0
    code blocks.

(** A host whose reads all return [v]. *)
Definition const_io (v : Z) : riscv_io unit :=
  mk_io unit (fun _ _ => v) (fun _ _ => v) (fun _ _ => v)
    (fun m _ _ => m) (fun m _ _ => m) (fun m _ _ => m).

(** The machine after reset on the host [const_io v]. *)
Definition machine_on (v : Z) (code : gmap nat rv_insn)
    (blocks : gmap Z nat) (pc : Z) : riscv unit :=
  mk_riscv unit (fun _ => 0) pc 0 false None (const_io v) tt [] false 0
    code blocks.

(** Scenario 2 of the spec:
    [ADDI x1,x0,5; ADDI x2,x0,3; BLT x2,x1,+8; ADDI x3,x0,99; ADDI x4,x0,7]
    decoded at PC 0; [linked] says whether the successor references of
    the branch are pre-linked. *)
Definition blt_scenario (linked : bool) : riscv unit :=
  machine0
    (list_to_map
       [(0, mk_ir rv_insn_addi 1 0 0 5 (Some 1) None None);
        (1, mk_ir rv_insn_addi 2 0 0 3 (Some 2) None None);
        (2, mk_ir rv_insn_blt 0 2 1 8 None
              (if linked then Some 4 else None)
              (if linked then Some 3 else None));
        (3, mk_ir rv_insn_addi 3 0 0 99 (Some 4) None None);
        (4, mk_ir rv_insn_addi 4 0 0 7 None None None)]%nat)
    (list_to_map [(0, 0%nat); (12, 3%nat); (16, 4%nat)])
    0.

(** Scenario 6 of the spec and its compressed counterparts: a machine at
    PC 0x2000 whose register x5 holds [v], and the indirect jumps through
    x5: [JALR x1, imm(x5)], [C.JR x5], [C.JALR x5]. *)
Definition jump_machine (v : Z) : riscv unit :=
  set_X 5 v (machine0 ∅ ∅ 0x2000).
Definition jalr_x1_x5 (imm : Z) : rv_insn :=
  mk_ir rv_insn_jalr 1 5 0 imm None None None.
Definition cjr_x5 : rv_insn := mk_ir rv_insn_cjr 0 5 0 0 None None None.
Definition cjalr_x5 : rv_insn := mk_ir rv_insn_cjalr 1 5 0 0 None None None.

(** [ADDI x0,x0,5; ADDI x1,x0,0] decoded as one block at PC 0, and
    [LW x0, 0(x0)] on a host whose memory reads 7. *)
Definition addi_x0_machine : riscv unit :=
  machine0
    (list_to_map
       [(0, mk_ir rv_insn_addi 0 0 0 5 (Some 1) None None);
        (1, mk_ir rv_insn_addi 1 0 0 0 None None None)]%nat)
    (list_to_map [(0, 0%nat)])
    0.
Definition lw_x0_machine : riscv unit :=
  machine_on 7
    (list_to_map [(0%nat, mk_ir rv_insn_lw 0 0 0 0 None None None)])
    (list_to_map [(0, 0%nat)])
    0.

(** A machine whose registers x1 and x2 hold [a] and [b], and the
    register-register instruction [op x3, x1, x2]. *)
Definition regs_machine (a b : Z) : riscv unit :=
  set_X 2 b (set_X 1 a (machine0 ∅ ∅ 0)).
Definition op_x3_x1_x2 (op : rv_opcode) : rv_insn :=
  mk_ir op 3 1 2 0 None None None.

(** A sample bucket function in the shape of the multiplicative hashes
    [HASH_FUNC_IMPL] generates, for a table of four buckets, and the
    empty table of four buckets of eight slots. *)
Definition sample_set_hash (key : Z) : nat :=
  Z.to_nat (Z.land (Z.shiftr (u32 (key * 0x61C88647)) 30) 3).
Definition sample_set : set_t := replicate 4 (replicate 8 0).

(* ===================================================================== *)
(** ** The further RV32I, RV32M and RV32C templates *)
(* ===================================================================== *)

(** The opcode tags of the templates embedded in this part. *)
Inductive rv_opcode_ext : Type :=
  | rv_insn_slti | rv_insn_sltiu | rv_insn_xori | rv_insn_ori
  | rv_insn_andi
  | rv_insn_add | rv_insn_sub | rv_insn_sll | rv_insn_slt | rv_insn_sltu
  | rv_insn_xor | rv_insn_srl | rv_insn_sra | rv_insn_or | rv_insn_and
  | rv_insn_mul
  | rv_insn_caddi4spn | rv_insn_cnop | rv_insn_caddi | rv_insn_caddi16sp
  | rv_insn_clui | rv_insn_candi | rv_insn_csub | rv_insn_cxor
  | rv_insn_cor | rv_insn_cand | rv_insn_cbeqz | rv_insn_cbnez
  | rv_insn_cslli | rv_insn_cmv | rv_insn_cadd.

(** [__rv_insn_##inst##_len] for these tags. *)
Definition insn_len_ext (op : rv_opcode_ext) : Z :=
  match op with
  | rv_insn_caddi4spn | rv_insn_cnop | rv_insn_caddi | rv_insn_caddi16sp
  | rv_insn_clui | rv_insn_candi | rv_insn_csub | rv_insn_cxor
  | rv_insn_cor | rv_insn_cand | rv_insn_cbeqz | rv_insn_cbnez
  | rv_insn_cslli | rv_insn_cmv | rv_insn_cadd => 2
  | _ => 4
  end.

Section MoreTemplates.
Context {M : Type}.

(** [RVOP] again, for a template whose instruction size is [len]. *)
Definition RVOP_len (len : Z)
    (code : riscv M -> nat -> rv_insn -> Z -> Z -> @body M)
    (rv : riscv M) (p : nat) (ir : rv_insn) (cycle PC : Z) : @outcome M :=
  let cycle := u64 (cycle + 1) in
  match code rv p ir cycle PC with
  | FallThrough rv' => nextop len rv' ir cycle PC
  | Leave o => o
  end.

(** [slti]:
    [rv->X[ir->rd] = ((int32_t) (rv->X[ir->rs1]) < ir->imm) ? 1 : 0;] *)
Definition op_slti (rv : riscv M) (ir : rv_insn) : riscv M :=
  set_X (rd ir) (if i32 (X rv (rs1 ir)) <? imm ir then 1 else 0) rv.

(** [sltiu]:
    [rv->X[ir->rd] = (rv->X[ir->rs1] < (uint32_t) ir->imm) ? 1 : 0;] *)
Definition op_sltiu (rv : riscv M) (ir : rv_insn) : riscv M :=
  set_X (rd ir) (if X rv (rs1 ir) <? u32 (imm ir) then 1 else 0) rv.

(** [xori]: [rv->X[ir->rd] = rv->X[ir->rs1] ^ ir->imm;] the immediate is
    converted to [uint32_t] by the usual arithmetic conversions. *)
Definition op_xori (rv : riscv M) (ir : rv_insn) : riscv M :=
  set_X (rd ir) (Z.lxor (X rv (rs1 ir)) (u32 (imm ir))) rv.

(** [ori]: [rv->X[ir->rd] = rv->X[ir->rs1] | ir->imm;] *)
Definition op_ori (rv : riscv M) (ir : rv_insn) : riscv M :=
  set_X (rd ir) (Z.lor (X rv (rs1 ir)) (u32 (imm ir))) rv.

(** [andi]: [rv->X[ir->rd] = rv->X[ir->rs1] & ir->imm;] *)
Definition op_andi (rv : riscv M) (ir : rv_insn) : riscv M :=
  set_X (rd ir) (Z.land (X rv (rs1 ir)) (u32 (imm ir))) rv.

(** [add]: [rv->X[ir->rd] =
      (int32_t) (rv->X[ir->rs1]) + (int32_t) (rv->X[ir->rs2]);]
    as in [addi], the sum is stored modulo 2^32. *)
Definition op_add (rv : riscv M) (ir : rv_insn) : riscv M :=
  set_X (rd ir) (u32 (i32 (X rv (rs1 ir)) + i32 (X rv (rs2 ir)))) rv.

(** [sub]: [rv->X[ir->rd] =
      (int32_t) (rv->X[ir->rs1]) - (int32_t) (rv->X[ir->rs2]);] *)
Definition op_sub (rv : riscv M) (ir : rv_insn) : riscv M :=
  set_X (rd ir) (u32 (i32 (X rv (rs1 ir)) - i32 (X rv (rs2 ir)))) rv.

(** [sll]: [rv->X[ir->rd] = rv->X[ir->rs1] << (rv->X[ir->rs2] & 0x1f);] *)
Definition op_sll (rv : riscv M) (ir : rv_insn) : riscv M :=
  set_X (rd ir)
    (u32 (Z.shiftl (X rv (rs1 ir)) (Z.land (X rv (rs2 ir)) 0x1f))) rv.

(** [slt]: [rv->X[ir->rd] =
      ((int32_t) (rv->X[ir->rs1]) < (int32_t) (rv->X[ir->rs2])) ? 1 : 0;] *)
Definition op_slt (rv : riscv M) (ir : rv_insn) : riscv M :=
  set_X (rd ir)
    (if i32 (X rv (rs1 ir)) <? i32 (X rv (rs2 ir)) then 1 else 0) rv.

(** [sltu]: [rv->X[ir->rd] = (rv->X[ir->rs1] < rv->X[ir->rs2]) ? 1 : 0;] *)
Definition op_sltu (rv : riscv M) (ir : rv_insn) : riscv M :=
  set_X (rd ir) (if X rv (rs1 ir) <? X rv (rs2 ir) then 1 else 0) rv.

(** [xor]: [rv->X[ir->rd] = rv->X[ir->rs1] ^ rv->X[ir->rs2];] *)
Definition op_xor (rv : riscv M) (ir : rv_insn) : riscv M :=
  set_X (rd ir) (Z.lxor (X rv (rs1 ir)) (X rv (rs2 ir))) rv.

(** [srl]: [rv->X[ir->rd] = rv->X[ir->rs1] >> (rv->X[ir->rs2] & 0x1f);] *)
Definition op_srl (rv : riscv M) (ir : rv_insn) : riscv M :=
  set_X (rd ir)
    (Z.shiftr (X rv (rs1 ir)) (Z.land (X rv (rs2 ir)) 0x1f)) rv.

(** [sra]: [rv->X[ir->rd] =
      ((int32_t) rv->X[ir->rs1]) >> (rv->X[ir->rs2] & 0x1f);]
    the shift of a signed value is arithmetic, as in [srai]. *)
Definition op_sra (rv : riscv M) (ir : rv_insn) : riscv M :=
  set_X (rd ir)
    (u32 (Z.shiftr (i32 (X rv (rs1 ir))) (Z.land (X rv (rs2 ir)) 0x1f)))
    rv.

(** [or]: [rv->X[ir->rd] = rv->X[ir->rs1] | rv->X[ir->rs2];] *)
Definition op_or (rv : riscv M) (ir : rv_insn) : riscv M :=
  set_X (rd ir) (Z.lor (X rv (rs1 ir)) (X rv (rs2 ir))) rv.

(** [and]: [rv->X[ir->rd] = rv->X[ir->rs1] & rv->X[ir->rs2];] *)
Definition op_and (rv : riscv M) (ir : rv_insn) : riscv M :=
  set_X (rd ir) (Z.land (X rv (rs1 ir)) (X rv (rs2 ir))) rv.

(** [mul]: [rv->X[ir->rd] =
      (int32_t) rv->X[ir->rs1] * (int32_t) rv->X[ir->rs2];] *)
Definition op_mul (rv : riscv M) (ir : rv_insn) : riscv M :=
  set_X (rd ir) (u32 (i32 (X rv (rs1 ir)) * i32 (X rv (rs2 ir)))) rv.

(** [caddi4spn]:
    [rv->X[ir->rd] = rv->X[rv_reg_sp] + (uint16_t) ir->imm;] *)
Definition op_caddi4spn (rv : riscv M) (ir : rv_insn) : riscv M :=
  set_X (rd ir) (u32 (X rv rv_reg_sp + u16 (imm ir))) rv.

(** [cnop]: no operation. *)
Definition op_cnop (rv : riscv M) (ir : rv_insn) : riscv M := rv.

(** [caddi]: [rv->X[ir->rd] += (int16_t) ir->imm;] *)
Definition op_caddi (rv : riscv M) (ir : rv_insn) : riscv M :=
  set_X (rd ir) (u32 (X rv (rd ir) + i16 (imm ir))) rv.

(** [caddi16sp]: [rv->X[ir->rd] += ir->imm;] *)
Definition op_caddi16sp (rv : riscv M) (ir : rv_insn) : riscv M :=
  set_X (rd ir) (u32 (X rv (rd ir) + imm ir)) rv.

(** [clui]: [rv->X[ir->rd] = ir->imm;] *)
Definition op_clui (rv : riscv M) (ir : rv_insn) : riscv M :=
  set_X (rd ir) (u32 (imm ir)) rv.

(** [candi]: [rv->X[ir->rs1] &= ir->imm;] *)
Definition op_candi (rv : riscv M) (ir : rv_insn) : riscv M :=
  set_X (rs1 ir) (Z.land (X rv (rs1 ir)) (u32 (imm ir))) rv.

(** [csub]: [rv->X[ir->rd] = rv->X[ir->rs1] - rv->X[ir->rs2];] *)
Definition op_csub (rv : riscv M) (ir : rv_insn) : riscv M :=
  set_X (rd ir) (u32 (X rv (rs1 ir) - X rv (rs2 ir))) rv.

(** [cxor]: [rv->X[ir->rd] = rv->X[ir->rs1] ^ rv->X[ir->rs2];] *)
Definition op_cxor (rv : riscv M) (ir : rv_insn) : riscv M :=
  set_X (rd ir) (Z.lxor (X rv (rs1 ir)) (X rv (rs2 ir))) rv.

(** [cor]: [rv->X[ir->rd] = rv->X[ir->rs1] | rv->X[ir->rs2];] *)
Definition op_cor (rv : riscv M) (ir : rv_insn) : riscv M :=
  set_X (rd ir) (Z.lor (X rv (rs1 ir)) (X rv (rs2 ir))) rv.

(** [cand]: [rv->X[ir->rd] = rv->X[ir->rs1] & rv->X[ir->rs2];] *)
Definition op_cand (rv : riscv M) (ir : rv_insn) : riscv M :=
  set_X (rd ir) (Z.land (X rv (rs1 ir)) (X rv (rs2 ir))) rv.

(** [cbeqz] and [cbnez] share their shape with [BRANCH_FUNC], with a
    two-byte fall-through and no misalignment check: [untaken] is the
    test under which the branch is not taken ([rv->X[ir->rs1]] for
    C.BEQZ, [!rv->X[ir->rs1]] for C.BNEZ). *)
Definition cbranch (untaken : Z -> bool)
    (rv : riscv M) (p : nat) (ir : rv_insn) (cycle PC : Z) : @body M :=
  if untaken (X rv (rs1 ir)) then
    let rv := set_is_branch_taken false rv in
    match branch_untaken ir with
    | None => FallThrough rv                         (* goto nextop *)
    | Some untaken =>
        let PC := u32 (PC + 2) in
        Leave (TailCall untaken (set_last_pc PC rv) cycle PC)
    end
  else
    let rv := set_is_branch_taken true rv in
    let PC := u32 (PC + imm ir) in
    Leave (chain_taken rv ir cycle PC).

Definition op_cbeqz := cbranch (fun x => negb (x =? 0)).
Definition op_cbnez := cbranch (fun x => x =? 0).

(** [cslli]: [rv->X[ir->rd] <<= (uint8_t) ir->imm;] a shift by 32 or more
    is undefined: [None]. *)
Definition op_cslli (rv : riscv M) (ir : rv_insn) : option (riscv M) :=
  let sh := u8 (imm ir) in
  if sh <? 32 then Some (set_X (rd ir) (u32 (Z.shiftl (X rv (rd ir)) sh)) rv)
  else None.

(** [cmv]: [rv->X[ir->rd] = rv->X[ir->rs2];] *)
Definition op_cmv (rv : riscv M) (ir : rv_insn) : riscv M :=
  set_X (rd ir) (X rv (rs2 ir)) rv.

(** [cadd]: [rv->X[ir->rd] = rv->X[ir->rs1] + rv->X[ir->rs2];] *)
Definition op_cadd (rv : riscv M) (ir : rv_insn) : riscv M :=
  set_X (rd ir) (u32 (X rv (rs1 ir) + X rv (rs2 ir))) rv.

(** [do_##inst] for the tags of this part. *)
Definition impl_ext (op : rv_opcode_ext)
  : riscv M -> nat -> rv_insn -> Z -> Z -> @outcome M :=
  RVOP_len (insn_len_ext op)
    match op with
    | rv_insn_slti => straight op_slti
    | rv_insn_sltiu => straight op_sltiu
    | rv_insn_xori => straight op_xori
    | rv_insn_ori => straight op_ori
    | rv_insn_andi => straight op_andi
    | rv_insn_add => straight op_add
    | rv_insn_sub => straight op_sub
    | rv_insn_sll => straight op_sll
    | rv_insn_slt => straight op_slt
    | rv_insn_sltu => straight op_sltu
    | rv_insn_xor => straight op_xor
    | rv_insn_srl => straight op_srl
    | rv_insn_sra => straight op_sra
    | rv_insn_or => straight op_or
    | rv_insn_and => straight op_and
    | rv_insn_mul => straight op_mul
    | rv_insn_caddi4spn => straight op_caddi4spn
    | rv_insn_cnop => straight op_cnop
    | rv_insn_caddi => straight op_caddi
    | rv_insn_caddi16sp => straight op_caddi16sp
    | rv_insn_clui => straight op_clui
    | rv_insn_candi => straight op_candi
    | rv_insn_csub => straight op_csub
    | rv_insn_cxor => straight op_cxor
    | rv_insn_cor => straight op_cor
    | rv_insn_cand => straight op_cand
    | rv_insn_cbeqz => op_cbeqz
    | rv_insn_cbnez => op_cbnez
    | rv_insn_cslli =>
        fun rv p ir cycle PC =>
          match op_cslli rv ir with
          | Some rv' => FallThrough rv'
          | None => Leave Fault
          end
    | rv_insn_cmv => straight op_cmv
    | rv_insn_cadd => straight op_cadd
    end.

End MoreTemplates.

(** The operand fields of an instruction [op rd, rs1, rs2] or
    [op rd, rs1, imm], not yet linked to a successor.  The templates of
    this part do not read the tag of the record. *)
Definition operands (rd rs1 rs2 : nat) (imm : Z) : rv_insn :=
  mk_ir rv_insn_nop rd rs1 rs2 imm None None None.

(** The record of the 32-bit instruction [op rd, rs1, rs2/imm] that a
    compressed instruction expands to, linked like the record [ir]. *)
Definition expand_to (op : rv_opcode) (rd rs1 rs2 : nat) (imm : Z)
    (ir : rv_insn) : rv_insn :=
  mk_insn op rd rs1 rs2 imm (shamt ir) (next ir) (branch_taken ir)
    (branch_untaken ir) (branch_table ir).

(** The same for an instruction whose template is dispatched by
    [impl_ext], where the tag of the record is not read. *)
Definition expand_ext (rd rs1 rs2 : nat) (imm : Z) (ir : rv_insn)
  : rv_insn :=
  expand_to (opcode ir) rd rs1 rs2 imm ir.

(** Two dispatches have the same effects: they leave the same registers,
    the same host memory with the same callback invocations, and the
    same latched exception. *)
Definition same_effects {M : Type} (o1 o2 : @outcome M) : Prop :=
  (forall r, reg_after o1 r = reg_after o2 r) /\
  mem <$> outcome_rv o1 = mem <$> outcome_rv o2 /\
  io_log <$> outcome_rv o1 = io_log <$> outcome_rv o2 /\
  misalign <$> outcome_rv o1 = misalign <$> outcome_rv o2.

(** The register a template may write: the destination the instruction
    names, [ra] for the compressed jumps that link, x0 for [nop]; none
    for the stores, the branches and the jumps that do not link. *)
Definition written_register (op : rv_opcode) (ir : rv_insn) : option nat :=
  match op with
  | rv_insn_nop => Some rv_reg_zero
  | rv_insn_cjal | rv_insn_cjalr => Some rv_reg_ra
  | rv_insn_csrli | rv_insn_csrai => Some (rs1 ir)
  | rv_insn_beq | rv_insn_bne | rv_insn_blt | rv_insn_bge
  | rv_insn_bltu | rv_insn_bgeu
  | rv_insn_sb | rv_insn_sh | rv_insn_sw | rv_insn_csw | rv_insn_cswsp
  | rv_insn_cj | rv_insn_cjr => None
  | _ => Some (rd ir)
  end.

Definition written_register_ext (op : rv_opcode_ext) (ir : rv_insn)
  : option nat :=
  match op with
  | rv_insn_cnop | rv_insn_cbeqz | rv_insn_cbnez => None
  | rv_insn_candi => Some (rs1 ir)
  | _ => Some (rd ir)
  end.

(** The loads and stores. *)
Definition is_memory_access (op : rv_opcode) : Prop :=
  op ∈ [rv_insn_lb; rv_insn_lh; rv_insn_lw; rv_insn_lbu; rv_insn_lhu;
        rv_insn_sb; rv_insn_sh; rv_insn_sw;
        rv_insn_clw; rv_insn_csw; rv_insn_clwsp; rv_insn_cswsp].

(* ===================================================================== *)
(** ** utils.c: the set, reset and filled *)
(* ===================================================================== *)

(** [set_reset]: [memset(set, 0, sizeof(set_t));] every slot of every
    bucket becomes empty. *)
Definition set_reset (set : set_t) : set_t :=
  (fun row => replicate (length row) 0) <$> set.

(** A bucket in which no occupied slot follows an empty one. *)
Definition compact_row (row : list Z) : Prop :=
  forall i j, (i <= j)%nat -> (j < length row)%nat ->
    row !! i = Some 0 -> row !! j = Some 0.

(** [set_add] called for each key of [keys] in turn, the results dropped;
    [None] as soon as one call fails. *)
Fixpoint set_add_all (set_hash : Z -> nat) (set : set_t) (keys : list Z)
  : option set_t :=
  match keys with
  | [] => Some set
  | key :: keys' =>
      r ← set_add set_hash set key;
      set_add_all set_hash r.2 keys'
  end.

(* ===================================================================== *)
(** ** utils.c: time *)
(* ===================================================================== *)

(** [mult_frac(x, n, d)]: [q * n + r * n / d] with [q = x / d] and
    [r = x % d], all [uint64_t]; [None] is the division by zero. *)
Definition mult_frac (x n d : Z) : option Z :=
  if d =? 0 then None
  else
    let q := x / d in
    let r := x mod d in
    Some (u64 (u64 (q * n) + u64 (r * n) / d)).

(** [get_time_info], on the branch taken with a POSIX timer: the clock
    reading [t] (seconds and nanoseconds of a [struct timespec]) is
    stored into two [int32_t]. *)
Definition get_time_info (t_sec t_nsec : Z) : Z * Z :=
  (i32 t_sec, i32 t_nsec).

(** [rv_gettimeofday]: the pair [(tv_sec, tv_usec)]; [/] on [int32_t]
    truncates toward zero. *)
Definition rv_gettimeofday (t_sec t_nsec : Z) : Z * Z :=
  let '(tv_sec, tv_nsec) := get_time_info t_sec t_nsec in
  (tv_sec, Z.quot tv_nsec 1000).

(** [rv_clock_gettime]: the pair [(tv_sec, tv_nsec)]. *)
Definition rv_clock_gettime (t_sec t_nsec : Z) : Z * Z :=
  get_time_info t_sec t_nsec.

(* ===================================================================== *)
(** * Properties *)
(* ===================================================================== *)

(** ** Machine integers *)

Lemma u32_range z : is_u32 (u32 z).
Proof. unfold is_u32, u32. apply Z.mod_pos_bound. lia. Qed.

Lemma u32_id z : is_u32 z -> u32 z = z.
Proof. unfold is_u32, u32. intros. apply Z.mod_small. lia. Qed.

Lemma i32_range z : - 2 ^ 31 <= i32 z < 2 ^ 31.
Proof. unfold i32. pose proof (Z.mod_pos_bound (z + 2 ^ 31) (2 ^ 32)). lia. Qed.

Lemma i32_id z : - 2 ^ 31 <= z < 2 ^ 31 -> i32 z = z.
Proof. unfold i32. intros. rewrite Z.mod_small; lia. Qed.

Lemma i32_u32 z : i32 (u32 z) = i32 z.
Proof.
  unfold i32, u32. f_equal.
  rewrite Zplus_mod_idemp_l. reflexivity.
Qed.

Lemma u32_i32 z : u32 (i32 z) = u32 z.
Proof.
  unfold i32, u32.
  rewrite <- Zminus_mod_idemp_l, Z.mod_mod by lia.
  rewrite Zminus_mod_idemp_l. f_equal. lia.
Qed.

Lemma i32_cases z : is_u32 z ->
  (z < 2 ^ 31 /\ i32 z = z) \/ (2 ^ 31 <= z /\ i32 z = z - 2 ^ 32).
Proof.
  unfold is_u32, i32. intros Hz.
  destruct (Z_lt_ge_dec z (2 ^ 31)); [left | right]; split; try lia.
  - rewrite Z.mod_small; lia.
  - replace (z + 2 ^ 31) with ((z - 2 ^ 31) + 1 * 2 ^ 32) by lia.
    rewrite Z_mod_plus_full, Z.mod_small; lia.
Qed.

Lemma i64_id z : - 2 ^ 63 <= z < 2 ^ 63 -> i64 z = z.
Proof. unfold i64. intros. rewrite Z.mod_small; lia. Qed.

Lemma i32_inj a b : is_u32 a -> is_u32 b -> i32 a = i32 b -> a = b.
Proof.
  intros Ha Hb H. rewrite <- (u32_id a), <- (u32_id b) by assumption.
  rewrite <- (u32_i32 a), <- (u32_i32 b). congruence.
Qed.

(** ** Registers and straight-line templates *)

Section MachineFacts.
Context {M : Type}.
Implicit Types (rv : riscv M) (ir : rv_insn).

Lemma X_set_X_eq r v rv : X (set_X r v rv) r = v.
Proof. unfold set_X; simpl. apply fn_lookup_insert. Qed.

Lemma X_set_X_ne r r' v rv : r <> r' -> X (set_X r v rv) r' = X rv r'.
Proof. intros. unfold set_X; simpl. apply fn_lookup_insert_ne. done. Qed.

Lemma reg_after_nextop len rv ir cycle pc r :
  reg_after (nextop len rv ir cycle pc) r = Some (X rv r).
Proof. unfold nextop, reg_after. destruct (next ir); reflexivity. Qed.

(** Split on the sign of a 32-bit value. *)
Ltac word_cases a Ha :=
  let E := fresh "E" in
  destruct (i32_cases a Ha) as [[? E]|[? E]]; rewrite ?E in *.

Lemma div_value a b : is_u32 a -> is_u32 b ->
  let q := if i32 b =? 0 then ALL_ONES
           else if (i32 b =? -1) && (a =? 0x80000000) then a
                else u32 (i32 a ÷ i32 b) in
  is_u32 q /\
  (b = 0 -> q = 0xFFFFFFFF) /\
  (a = 0x80000000 -> b = 0xFFFFFFFF -> q = 0x80000000) /\
  (b <> 0 -> ~ (a = 0x80000000 /\ b = 0xFFFFFFFF) -> i32 q = i32 a ÷ i32 b).
Proof.
  intros Ha Hb q. subst q.
  assert (Hq : b <> 0 -> ~ (a = 0x80000000 /\ b = 0xFFFFFFFF) ->
               - 2 ^ 31 <= i32 a ÷ i32 b < 2 ^ 31).
  { intros. pose proof (i32_range a). pose proof (i32_range b).
    word_cases a Ha; word_cases b Hb; unfold is_u32 in *;
      Z.to_euclidean_division_equations; nia. }
  assert (Hb0 : i32 b = 0 <-> b = 0).
  { word_cases b Hb; unfold is_u32 in *; lia. }
  assert (Hb1 : i32 b = -1 <-> b = 0xFFFFFFFF).
  { word_cases b Hb; unfold is_u32 in *; lia. }
  destruct (Z.eqb_spec (i32 b) 0) as [Eb|Eb].
  { unfold ALL_ONES, is_u32. split; [lia|]. split; [done|]. split; [intros; lia|]. tauto. }
  destruct (Z.eqb_spec (i32 b) (-1)) as [Eb1|Eb1];
    destruct (Z.eqb_spec a 0x80000000) as [Ea|Ea]; simpl;
    (split; [first [assumption | apply u32_range]|]);
    (split; [tauto|]); (split; [tauto|]).
  1: tauto.
  all: intros; rewrite i32_u32; apply i32_id; apply Hq; tauto.
Qed.

Lemma rem_value a b : is_u32 a -> is_u32 b ->
  let r := u32 (if i32 b =? 0 then i32 a
                else if (i32 b =? -1) && (a =? 0x80000000) then 0
                     else Z.rem (i32 a) (i32 b)) in
  is_u32 r /\
  (b = 0 -> r = a) /\
  (a = 0x80000000 -> b = 0xFFFFFFFF -> r = 0) /\
  (b <> 0 -> i32 r = Z.rem (i32 a) (i32 b)).
Proof.
  intros Ha Hb r. subst r.
  assert (Hr : b <> 0 -> - 2 ^ 31 <= Z.rem (i32 a) (i32 b) < 2 ^ 31).
  { intros. pose proof (i32_range a). pose proof (i32_range b).
    word_cases a Ha; word_cases b Hb; unfold is_u32 in *;
      Z.to_euclidean_division_equations; nia. }
  assert (Hb0 : i32 b = 0 <-> b = 0).
  { word_cases b Hb; unfold is_u32 in *; lia. }
  assert (Hb1 : i32 b = -1 <-> b = 0xFFFFFFFF).
  { word_cases b Hb; unfold is_u32 in *; lia. }
  split; [apply u32_range|].
  destruct (Z.eqb_spec (i32 b) 0) as [Eb|Eb].
  { split; [intros; rewrite u32_i32; by apply u32_id|].
    split; [intros; lia| tauto]. }
  split; [tauto|].
  destruct (Z.eqb_spec (i32 b) (-1)) as [Eb1|Eb1];
    destruct (Z.eqb_spec a 0x80000000) as [Ea|Ea]; simpl.
  - split; [done|]. intros _. subst a. rewrite Eb1. reflexivity.
  - split; [tauto|]. intros. rewrite i32_u32. apply i32_id. tauto.
  - split; [tauto|]. intros. rewrite i32_u32. apply i32_id. tauto.
  - split; [tauto|]. intros. rewrite i32_u32. apply i32_id. tauto.
Qed.

Lemma divu_value a b : is_u32 a -> is_u32 b ->
  let q := if b =? 0 then ALL_ONES else a ÷ b in
  is_u32 q /\ (b = 0 -> q = 0xFFFFFFFF) /\ (b <> 0 -> q = a / b).
Proof.
  intros Ha Hb q. subst q. unfold is_u32 in *.
  destruct (Z.eqb_spec b 0) as [Eb|Eb].
  - unfold ALL_ONES. split; [lia|]. split; [done|tauto].
  - rewrite Z.quot_div_nonneg by lia.
    split; [|split; [tauto|done]].
    split; [apply Z.div_pos; lia|].
    apply Z.div_lt_upper_bound; nia.
Qed.

Lemma remu_value a b : is_u32 a -> is_u32 b ->
  let r := if b =? 0 then a else Z.rem a b in
  is_u32 r /\ (b = 0 -> r = a) /\ (b <> 0 -> r = a mod b).
Proof.
  intros Ha Hb r. subst r. unfold is_u32 in *.
  destruct (Z.eqb_spec b 0) as [Eb|Eb].
  - split; [lia|]. split; [done|tauto].
  - rewrite Z.rem_mod_nonneg by lia.
    pose proof (Z.mod_pos_bound a b).
    split; [lia|]. split; [tauto|done].
Qed.

(** C3: DIV, REM, DIVU and REMU write the RISC-V results to rd.  With
    [a], [b] the two source values: a zero divisor gives all-ones for
    DIV and DIVU and the dividend for REM and REMU; the signed overflow
    0x80000000 / -1 gives the dividend for DIV and 0 for REM; otherwise
    rd receives the truncated signed quotient or remainder, read back as
    [int32_t], or the unsigned quotient or remainder. *)
Theorem div_rem_special_cases rv (p : nat) ir (cycle pc : Z) :
  let a := X rv (rs1 ir) in
  let b := X rv (rs2 ir) in
  let result op := reg_after (impl op rv p ir cycle pc) (rd ir) in
  is_u32 a -> is_u32 b ->
  (exists q, result rv_insn_div = Some q /\ is_u32 q /\
     (b = 0 -> q = 0xFFFFFFFF) /\
     (a = 0x80000000 -> b = 0xFFFFFFFF -> q = 0x80000000) /\
     (b <> 0 -> ~ (a = 0x80000000 /\ b = 0xFFFFFFFF) ->
      i32 q = i32 a ÷ i32 b)) /\
  (exists r, result rv_insn_rem = Some r /\ is_u32 r /\
     (b = 0 -> r = a) /\
     (a = 0x80000000 -> b = 0xFFFFFFFF -> r = 0) /\
     (b <> 0 -> i32 r = Z.rem (i32 a) (i32 b))) /\
  (exists q, result rv_insn_divu = Some q /\ is_u32 q /\
     (b = 0 -> q = 0xFFFFFFFF) /\
     (b <> 0 -> q = a / b)) /\
  (exists r, result rv_insn_remu = Some r /\ is_u32 r /\
     (b = 0 -> r = a) /\
     (b <> 0 -> r = a mod b)).
Proof.
  intros a b result Ha Hb. unfold result; clear result.
  unfold impl, RVOP, straight. rewrite !reg_after_nextop.
  unfold op_div, op_rem, op_divu, op_remu. rewrite !X_set_X_eq.
  fold a b.
  split; [|split; [|split]]; eexists; (split; [reflexivity|]).
  - apply div_value; assumption.
  - apply rem_value; assumption.
  - apply divu_value; assumption.
  - apply remu_value; assumption.
Qed.

End MachineFacts.

(** ** The multiply-high family *)

Section MulHigh.
Context {M : Type}.
Implicit Types (rv : riscv M) (ir : rv_insn).

Lemma high_word_u32 z : is_u32 (z mod 2 ^ 64 / 2 ^ 32).
Proof.
  unfold is_u32. pose proof (Z.mod_pos_bound z (2 ^ 64)).
  split; [apply Z.div_pos; lia|]. apply Z.div_lt_upper_bound; lia.
Qed.

Lemma mulh_value a b : is_u32 a -> is_u32 b ->
  u32 (Z.shiftr (u64 (i64 (i64 (i32 a) * i64 (i32 b)))) 32)
  = (i32 a * i32 b) mod 2 ^ 64 / 2 ^ 32.
Proof.
  intros Ha Hb. pose proof (i32_range a). pose proof (i32_range b).
  rewrite !(i64_id (i32 _)) by lia.
  rewrite i64_id by nia.
  unfold u64. rewrite Z.shiftr_div_pow2 by lia.
  apply u32_id, high_word_u32.
Qed.

Lemma mulhsu_value a b : is_u32 a -> is_u32 b ->
  u32 (Z.shiftr (u64 (u64 (u64 (i64 (i32 a)) * u64 b))) 32)
  = (i32 a * b) mod 2 ^ 64 / 2 ^ 32.
Proof.
  intros Ha Hb. pose proof (i32_range a).
  rewrite i64_id by lia.
  unfold u64. rewrite Z.mod_mod by lia.
  rewrite Z.mul_mod_idemp_l, Z.mul_mod_idemp_r by lia.
  rewrite Z.shiftr_div_pow2 by lia.
  apply u32_id, high_word_u32.
Qed.

Lemma mulhu_value a b : is_u32 a -> is_u32 b ->
  u32 (Z.shiftr (u64 (u64 a * u64 b)) 32) = (a * b) mod 2 ^ 64 / 2 ^ 32.
Proof.
  intros Ha Hb. unfold u64.
  rewrite Z.mul_mod_idemp_l, Z.mul_mod_idemp_r by lia.
  rewrite Z.shiftr_div_pow2 by lia.
  apply u32_id, high_word_u32.
Qed.

(** C7: MULH, MULHSU and MULHU write to rd the upper 32 bits of the
    64-bit two's complement product of the sources, read as signed times
    signed, signed times unsigned and unsigned times unsigned. *)
Theorem mulh_family_high_word rv (p : nat) ir (cycle pc : Z) :
  let a := X rv (rs1 ir) in
  let b := X rv (rs2 ir) in
  let result op := reg_after (impl op rv p ir cycle pc) (rd ir) in
  is_u32 a -> is_u32 b ->
  result rv_insn_mulh = Some ((i32 a * i32 b) mod 2 ^ 64 / 2 ^ 32) /\
  result rv_insn_mulhsu = Some ((i32 a * b) mod 2 ^ 64 / 2 ^ 32) /\
  result rv_insn_mulhu = Some ((a * b) mod 2 ^ 64 / 2 ^ 32).
Proof.
  intros a b result Ha Hb. unfold result; clear result.
  unfold impl, RVOP, straight. rewrite !reg_after_nextop.
  unfold op_mulh, op_mulhsu, op_mulhu. rewrite !X_set_X_eq. fold a b.
  rewrite mulh_value, mulhsu_value, mulhu_value by assumption.
  done.
Qed.

End MulHigh.

(** ** C.SRAI *)

Section Csrai.
Context {M : Type}.
Implicit Types (rv : riscv M) (ir : rv_insn).

Lemma csrai_loop_other mask r i n rv r' :
  r <> r' -> X (csrai_loop mask r i n rv) r' = X rv r'.
Proof.
  intros Hr. revert i rv. induction n as [|n IH]; intros i rv; simpl.
  - reflexivity.
  - rewrite IH. by apply X_set_X_ne.
Qed.

(** Bit [j] of the register after [n] iterations starting at [i]. *)
Lemma csrai_loop_testbit x r n : forall i rv j,
  0 <= i -> 0 <= j ->
  Z.testbit (X (csrai_loop (Z.land 0x80000000 x) r i n rv) r) j
  = Z.testbit (X rv r) j
    || ((31 - i - Z.of_nat n <? j) && (j <=? 31 - i) && Z.testbit x 31).
Proof.
  induction n as [|n IH]; intros i rv j Hi Hj.
  - simpl. rewrite Z.sub_0_r.
    destruct (Z.ltb_spec (31 - i) j), (Z.leb_spec j (31 - i)); try lia;
      simpl; by rewrite orb_false_r.
  - simpl csrai_loop. rewrite IH by lia. rewrite X_set_X_eq.
    rewrite Z.lor_spec, Z.shiftr_spec, Z.land_spec by lia.
    change 0x80000000 with (2 ^ 31). rewrite Z.pow2_bits_eqb by lia.
    destruct (Z.eqb_spec 31 (j + i)) as [E|E].
    + replace (j + i) with 31 by lia.
      destruct (Z.ltb_spec (31 - i - Z.of_nat (S n)) j),
        (Z.leb_spec j (31 - i)), (Z.leb_spec j (31 - (i + 1))); try lia.
      rewrite andb_false_r. cbn [andb orb]. by rewrite orb_false_r.
    + cbn [andb orb]. rewrite orb_false_r. f_equal. f_equal.
      destruct (Z.ltb_spec (31 - (i + 1) - Z.of_nat n) j),
        (Z.leb_spec j (31 - (i + 1))),
        (Z.ltb_spec (31 - i - Z.of_nat (S n)) j),
        (Z.leb_spec j (31 - i)); simpl; try done; lia.
Qed.

Lemma u32_testbit_high x j : is_u32 x -> 32 <= j -> Z.testbit x j = false.
Proof.
  intros Hx Hj. rewrite <- (u32_id x Hx). unfold u32.
  apply Z.mod_pow2_bits_high. lia.
Qed.

Lemma i32_testbit x j : is_u32 x -> 0 <= j ->
  Z.testbit (i32 x) j = if j <? 32 then Z.testbit x j else Z.testbit x 31.
Proof.
  intros Hx Hj.
  assert (H31 : Z.testbit x 31 = negb (x <? 2 ^ 31)).
  { rewrite Z.testbit_eqb by lia. unfold is_u32 in Hx.
    destruct (Z.ltb_spec x (2 ^ 31)); simpl.
    - rewrite Z.div_small by lia. reflexivity.
    - replace (x / 2 ^ 31) with 1; [reflexivity|].
      apply Z.div_unique with (r := x - 2 ^ 31); lia. }
  destruct (i32_cases x Hx) as [[Hlt E]|[Hge E]]; rewrite E.
  - destruct (Z.ltb_spec j 32); [reflexivity|].
    rewrite H31. destruct (Z.ltb_spec x (2 ^ 31)); [|lia]. simpl.
    by apply u32_testbit_high.
  - destruct (Z.ltb_spec j 32).
    + rewrite <- (Z.mod_pow2_bits_low (x - 2 ^ 32) 32 j) by lia.
      rewrite <- (Z.mod_pow2_bits_low x 32 j) by lia.
      f_equal. replace (x - 2 ^ 32) with (x + (-1) * 2 ^ 32) by lia.
      apply Z_mod_plus_full.
    + rewrite H31. destruct (Z.ltb_spec x (2 ^ 31)); [lia|]. simpl.
      apply Z.bits_iff_neg; [|unfold is_u32 in Hx; lia].
      unfold is_u32 in Hx.
      apply Z.log2_lt_pow2; [lia|].
      apply Z.lt_le_trans with (2 ^ 32); [lia|].
      apply Z.pow_le_mono_r; lia.
Qed.

Lemma csrai_value x s r rv :
  is_u32 x -> 0 <= s <= 31 -> X rv r = Z.shiftr x s ->
  X (csrai_loop (Z.land 0x80000000 x) r 0 (Z.to_nat s) rv) r
  = u32 (Z.shiftr (i32 x) s).
Proof.
  intros Hx Hs Hr. apply Z.bits_inj'. intros j Hj.
  rewrite csrai_loop_testbit by lia. rewrite Hr.
  rewrite Z.shiftr_spec by lia. rewrite Z2Nat.id by lia.
  unfold u32. destruct (Z.ltb_spec j 32) as [Hlt|Hge].
  - rewrite Z.mod_pow2_bits_low by lia.
    rewrite Z.shiftr_spec, i32_testbit by (try assumption; lia).
    destruct (Z.ltb_spec (j + s) 32).
    + destruct (Z.ltb_spec (31 - 0 - s) j); [lia|]. simpl. by rewrite orb_false_r.
    + destruct (Z.ltb_spec (31 - 0 - s) j), (Z.leb_spec j (31 - 0)); try lia.
      simpl. rewrite u32_testbit_high by (try assumption; lia). done.
  - rewrite Z.mod_pow2_bits_high by lia.
    rewrite u32_testbit_high by (try assumption; lia).
    destruct (Z.leb_spec j (31 - 0)); [lia|]. by rewrite andb_false_r.
Qed.


Lemma land_0x1f s : 0 <= s <= 31 -> Z.land s 0x1f = s.
Proof.
  intros Hs. change 0x1f with (Z.ones 5).
  rewrite Z.land_ones by lia. apply Z.mod_small. lia.
Qed.

(** C8: for a shift amount in 0..31, C.SRAI leaves in [X[rs1]] the
    arithmetic right shift of its previous value, and every register
    ends as after the expansion [srai rd', rd', shamt]. *)
Theorem csrai_is_arithmetic_shift rv (p : nat) ir (cycle pc : Z) :
  is_u32 (X rv (rs1 ir)) -> 0 <= shamt ir <= 31 ->
  reg_after (impl rv_insn_csrai rv p ir cycle pc) (rs1 ir)
  = Some (u32 (Z.shiftr (i32 (X rv (rs1 ir))) (shamt ir))) /\
  forall r,
    reg_after (impl rv_insn_csrai rv p ir cycle pc) r
    = reg_after (impl rv_insn_srai rv p (csrai_expansion ir) cycle pc) r.
Proof.
  intros Hx Hs.
  assert (Hv : X (op_csrai rv ir) (rs1 ir)
               = u32 (Z.shiftr (i32 (X rv (rs1 ir))) (shamt ir))).
  { unfold op_csrai. apply csrai_value; try assumption.
    apply X_set_X_eq. }
  unfold impl, RVOP, straight, op_shift, shift_func. simpl opcode.
  cbn iota. rewrite !reg_after_nextop. split; [by rewrite Hv|].
  intros r. rewrite !reg_after_nextop. f_equal.
  unfold csrai_expansion. cbn [rd rs1 imm].
  rewrite land_0x1f by assumption.
  destruct (decide (rs1 ir = r)) as [<-|Hne].
  - by rewrite Hv, X_set_X_eq.
  - rewrite X_set_X_ne by assumption.
    unfold op_csrai. rewrite csrai_loop_other by assumption.
    by apply X_set_X_ne.
Qed.

End Csrai.

(** ** Control transfers, loads and stores *)

Section Control.
Context {M : Type}.
Implicit Types (rv : riscv M) (ir : rv_insn).

(** What [BRANCH_FUNC] decides, for any cast and comparison. *)
Lemma BRANCH_FUNC_spec op type cond rv p ir cycle pc :
  insn_len op = 4 ->
  let untaken := cond (type (X rv (rs1 ir))) (type (X rv (rs2 ir))) in
  let o := RVOP op (BRANCH_FUNC type cond) rv p ir cycle pc in
  is_branch_taken <$> outcome_rv o = Some (negb untaken) /\
  outcome_pc o
  = Some (if untaken then u32 (pc + 4) else u32 (pc + imm ir)).
Proof.
  intros Hlen untaken o. subst o. unfold RVOP, BRANCH_FUNC.
  fold untaken. destruct untaken.
  - destruct (branch_untaken ir); [done|].
    unfold nextop. rewrite Hlen. by destruct (next ir).
  - unfold RV_EXC_MISALIGN_HANDLER, chain_taken.
    destruct (insn_is_misaligned _); [done|].
    by destruct (branch_taken ir).
Qed.

Lemma branch_general op rv (p : nat) ir (cycle pc : Z) :
  let a := X rv (rs1 ir) in
  let b := X rv (rs2 ir) in
  let o := impl op rv p ir cycle pc in
  is_branch op -> is_u32 a -> is_u32 b ->
  is_branch_taken <$> outcome_rv o = Some (branch_predicate op a b) /\
  outcome_pc o
  = Some (if branch_predicate op a b then u32 (pc + imm ir)
          else u32 (pc + 4)).
Proof.
  intros a b o Hop Ha Hb. subst o. unfold is_branch in Hop.
  pose proof (i32_range a). pose proof (i32_range b).
  repeat (apply elem_of_cons in Hop as [->|Hop]);
    [ | | | | | | by apply elem_of_nil in Hop].
  - destruct (BRANCH_FUNC_spec rv_insn_beq u32 (fun a b => negb (a =? b))
                rv p ir cycle pc eq_refl) as [H1 H2].
    unfold impl, op_beq. rewrite H1, H2. fold a b.
    rewrite !u32_id by assumption. simpl.
    by destruct (a =? b).
  - destruct (BRANCH_FUNC_spec rv_insn_bne u32 Z.eqb
                rv p ir cycle pc eq_refl) as [H1 H2].
    unfold impl, op_bne. rewrite H1, H2. fold a b.
    rewrite !u32_id by assumption. simpl.
    by destruct (a =? b).
  - destruct (BRANCH_FUNC_spec rv_insn_blt i32 Z.geb
                rv p ir cycle pc eq_refl) as [H1 H2].
    unfold impl, op_blt. rewrite H1, H2. fold a b. simpl.
    rewrite Z.geb_leb. 
    by destruct (Z.leb_spec (i32 b) (i32 a)), (Z.ltb_spec (i32 a) (i32 b));
      try lia.
  - destruct (BRANCH_FUNC_spec rv_insn_bge i32 Z.ltb
                rv p ir cycle pc eq_refl) as [H1 H2].
    unfold impl, op_bge. rewrite H1, H2. fold a b. simpl.
    by destruct (Z.leb_spec (i32 b) (i32 a)), (Z.ltb_spec (i32 a) (i32 b));
      try lia.
  - destruct (BRANCH_FUNC_spec rv_insn_bltu u32 Z.geb
                rv p ir cycle pc eq_refl) as [H1 H2].
    unfold impl, op_bltu. rewrite H1, H2. fold a b.
    rewrite !u32_id by assumption. simpl.
    rewrite Z.geb_leb.
    by destruct (Z.leb_spec b a), (Z.ltb_spec a b); try lia.
  - destruct (BRANCH_FUNC_spec rv_insn_bgeu u32 Z.ltb
                rv p ir cycle pc eq_refl) as [H1 H2].
    unfold impl, op_bgeu. rewrite H1, H2. fold a b.
    rewrite !u32_id by assumption. simpl.
    by destruct (Z.leb_spec b a), (Z.ltb_spec a b); try lia.
Qed.


Lemma u32_add_u32_r a b : u32 (a + u32 b) = u32 (a + b).
Proof. unfold u32. by rewrite Zplus_mod_idemp_r. Qed.

Lemma handler_io_misaligned mask kind compress addr rv cycle pc k :
  Z.land addr mask <> 0 ->
  RV_EXC_MISALIGN_HANDLER mask kind compress true addr rv cycle pc k
  = Leave (Ret false
      (rv_except_misaligned kind mask
         (set_PC pc (set_csr_cycle cycle (set_compressed compress rv))))).
Proof.
  intros H. unfold RV_EXC_MISALIGN_HANDLER.
  destruct (Z.eqb_spec (Z.land addr mask) 0); [done|reflexivity].
Qed.

Lemma misaligned_general op rv (p : nat) ir (cycle pc : Z) mask kind :
  wide_access op = Some (mask, kind) ->
  Z.land (effective_address op rv ir) mask <> 0 ->
  exists rv',
    impl op rv p ir cycle pc = Ret false rv' /\
    misalign rv' = Some (kind, mask) /\
    io_log rv' = io_log rv /\ mem rv' = mem rv /\ X rv' = X rv.
Proof.
  intros Hop Hmis.
  destruct op; try discriminate Hop; injection Hop as <- <-;
    unfold effective_address in Hmis;
    unfold impl, RVOP, op_lh, op_lw, op_lhu, op_sh, op_sw, op_clw, op_csw,
      op_clwsp, op_cswsp;
    rewrite ?u32_add_u32_r;
    rewrite handler_io_misaligned by assumption;
    eexists; (split; [reflexivity|]); done.
Qed.

Lemma byte_access_general op rv (p : nat) ir (cycle pc : Z) :
  is_byte_access op ->
  (forall k, ~ raises (impl op rv p ir cycle pc) k) /\
  exists rv' ev,
    outcome_rv (impl op rv p ir cycle pc) = Some rv' /\
    misalign rv' = misalign rv /\
    io_log rv' = io_log rv ++ [ev] /\
    event_addr ev = effective_address op rv ir.
Proof.
  intros Hop. unfold is_byte_access in Hop.
  repeat (apply elem_of_cons in Hop as [->|Hop]);
    [ | | | by apply elem_of_nil in Hop].
  all: unfold impl, RVOP, straight, nextop, end_insn.
  all: split; [intros k (rv' & v & Ho & _); by destruct (next ir)|].
  all: destruct (next ir); do 2 eexists; (split; [reflexivity|]); done.
Qed.


(** Read a register through the field updates of the machine. *)
Ltac read_regs :=
  rewrite ?reg_after_nextop;
  cbn [reg_after outcome_rv fmap option_fmap option_map
       X set_X set_PC set_csr_cycle set_compressed set_misalign
       rv_except_misaligned set_mem log_io set_is_branch_taken set_last_pc
       set_insn];
  rewrite ?fn_lookup_insert.

Lemma reg_after_Ret b rv r : reg_after (Ret b rv) r = Some (X rv r).
Proof. reflexivity. Qed.

Lemma reg_after_TailCall t rv cycle pc r :
  reg_after (TailCall t rv cycle pc) r = Some (X rv r).
Proof. reflexivity. Qed.

Lemma reg_after_chain_taken rv ir cycle pc r :
  reg_after (chain_taken rv ir cycle pc) r = Some (X rv r).
Proof. unfold chain_taken, reg_after. by destruct (branch_taken ir). Qed.

Lemma outcome_pc_chain_taken rv ir cycle pc :
  outcome_pc (chain_taken rv ir cycle pc) = Some pc.
Proof. unfold chain_taken. by destruct (branch_taken ir). Qed.

Lemma chain_taken_not_raises rv ir cycle pc k :
  ~ raises (chain_taken rv ir cycle pc) k.
Proof.
  unfold chain_taken. intros (rv' & v & Ho & _).
  by destruct (branch_taken ir).
Qed.

(** C6: JAL with rd other than x0 links [pc + 4] in rd and C.JAL links
    [pc + 2] in ra; JAL, C.JAL and C.J continue at [pc + imm]; and when
    that target is misaligned the jump itself raises the instruction
    misalignment exception (and only then). *)
Theorem jal_link_and_target rv (p : nat) ir (cycle pc : Z) :
  let target := u32 (pc + imm ir) in
  let jal := impl rv_insn_jal rv p ir cycle pc in
  let cjal := impl rv_insn_cjal rv p ir cycle pc in
  let cj := impl rv_insn_cj rv p ir cycle pc in
  rd ir <> 0%nat ->
  (reg_after jal (rd ir) = Some (u32 (pc + 4)) /\
   reg_after cjal rv_reg_ra = Some (u32 (pc + 2))) /\
  (outcome_pc jal = Some target /\
   outcome_pc cjal = Some target /\
   outcome_pc cj = Some target) /\
  (if insn_is_misaligned target
   then raises jal insn /\ raises cjal insn /\ raises cj insn
   else forall k, ~ raises jal k /\ ~ raises cjal k /\ ~ raises cj k).
Proof.
  intros target jal cjal cj Hrd. subst jal cjal cj.
  unfold impl, RVOP, op_jal, op_cjal, op_cj, RV_EXC_MISALIGN_HANDLER.
  fold target. destruct (decide (rd ir = 0%nat)) as [|_]; [done|].
  destruct (insn_is_misaligned target).
  - split; [split; by read_regs|].
    split; [done|]. unfold raises. repeat split; by do 2 eexists.
  - rewrite !reg_after_chain_taken, !outcome_pc_chain_taken.
    rewrite !X_set_X_eq. split; [done|]. split; [done|].
    intros k. repeat split; apply chain_taken_not_raises.
Qed.

(** JALR itself: the target has bit 0 cleared and the link is written
    exactly when rd is not x0. *)
Lemma jalr_target_and_link rv (p : nat) ir (cycle pc : Z) :
  let target := Z.land (u32 (X rv (rs1 ir) + imm ir)) NOT_1U in
  let o := impl rv_insn_jalr rv p ir cycle pc in
  o <> Fault ->
  outcome_pc o = Some target /\
  Z.testbit target 0 = false /\
  (rd ir <> 0%nat -> reg_after o (rd ir) = Some (u32 (pc + 4))) /\
  (rd ir = 0%nat -> forall r, reg_after o r = Some (X rv r)).
Proof.
  intros target o Hfault. subst o. revert Hfault.
  unfold impl, RVOP, op_jalr, RV_EXC_MISALIGN_HANDLER,
    LOOKUP_OR_UPDATE_BRANCH_HISTORY_TABLE, end_insn.
  fold target.
  assert (Hbit : Z.testbit target 0 = false).
  { unfold target. rewrite Z.land_spec. unfold NOT_1U.
    by rewrite andb_false_r. }
  destruct (decide (rd ir = 0%nat)) as [Hrd|Hrd].
  - destruct (insn_is_misaligned target); [done|].
    destruct (bht_lookup _ _ _ _) as [[t|]|]; [done|done|].
    destruct (block_map rv !! target); done.
  - destruct (insn_is_misaligned target).
    { intros _. repeat split; try done. intros _.
      by read_regs. }
    destruct (bht_lookup _ _ _ _) as [[t|]|]; [|done|].
    + intros _. repeat split; try done. intros _.
      by read_regs.
    + destruct (block_map _ !! target); intros _; repeat split; try done;
        intros _; by read_regs.
Qed.

Lemma handler_io_aligned mask kind compress addr rv cycle pc k :
  Z.land addr mask = 0 ->
  RV_EXC_MISALIGN_HANDLER mask kind compress true addr rv cycle pc k = k.
Proof.
  intros H. unfold RV_EXC_MISALIGN_HANDLER. by rewrite H.
Qed.

(** An aligned access wider than a byte is handed to its callback. *)
Lemma aligned_access_invokes_callback op rv (p : nat) ir (cycle pc : Z)
    mask kind :
  wide_access op = Some (mask, kind) ->
  Z.land (effective_address op rv ir) mask = 0 ->
  (forall k, ~ raises (impl op rv p ir cycle pc) k) /\
  exists rv' ev,
    outcome_rv (impl op rv p ir cycle pc) = Some rv' /\
    misalign rv' = misalign rv /\
    io_log rv' = io_log rv ++ [ev] /\
    event_addr ev = effective_address op rv ir.
Proof.
  intros Hop Hal.
  destruct op; try discriminate Hop; injection Hop as <- <-;
    unfold effective_address in Hal;
    unfold impl, RVOP, op_lh, op_lw, op_lhu, op_sh, op_sw, op_clw, op_csw,
      op_clwsp, op_cswsp;
    rewrite ?u32_add_u32_r;
    rewrite handler_io_aligned by assumption;
    unfold nextop, end_insn;
    (split; [intros k (rv' & v & Ho & _); by destruct (next ir)|]);
    destruct (next ir); do 2 eexists; (split; [reflexivity|]); done.
Qed.

(** C4: a halfword access with address bit 0 set, or a word access with
    address bits 1:0 not both clear, returns [false] with the load or
    store misalignment exception latched, without invoking a memory
    callback and without touching host memory or a register; a byte
    access never raises and is always handed to its callback. *)
Theorem misaligned_access_raises op byte_op rv (p : nat) ir (cycle pc : Z)
    mask kind :
  wide_access op = Some (mask, kind) ->
  Z.land (effective_address op rv ir) mask <> 0 ->
  is_byte_access byte_op ->
  (exists rv',
     impl op rv p ir cycle pc = Ret false rv' /\
     misalign rv' = Some (kind, mask) /\
     io_log rv' = io_log rv /\ mem rv' = mem rv /\ X rv' = X rv) /\
  (forall k, ~ raises (impl byte_op rv p ir cycle pc) k) /\
  exists rv' ev,
    outcome_rv (impl byte_op rv p ir cycle pc) = Some rv' /\
    misalign rv' = misalign rv /\
    io_log rv' = io_log rv ++ [ev] /\
    event_addr ev = effective_address byte_op rv ir.
Proof.
  intros Hop Hmis Hbyte. split.
  - by apply misaligned_general.
  - by apply byte_access_general.
Qed.

End Control.

(** The BLT scenario, whether or not the branch is pre-linked. *)
Lemma blt_scenario_result linked :
  exists rv',
    rv_step 3 10 (blt_scenario linked) = Finished true rv' /\
    X rv' 3%nat = 0 /\ X rv' 4%nat = 7 /\ PC rv' = 20.
Proof.
  exists (match rv_step 3 10 (blt_scenario linked) with
          | Finished _ rv => rv
          | _ => blt_scenario linked
          end).
  destruct linked; vm_compute; repeat split; reflexivity.
Qed.

(** C5: a conditional branch is taken exactly when its comparison holds
    of [X[rs1]] and [X[rs2]] (recorded in [is_branch_taken]); the PC it
    continues at is [pc + imm] when taken and [pc + 4] otherwise; and the
    five-instruction BLT scenario ends with X[3] = 0, X[4] = 7, PC = 20. *)
Theorem branch_taken_iff_predicate {M : Type} op (rv : riscv M) (p : nat)
    (ir : rv_insn) (cycle pc : Z) (linked : bool) :
  let a := X rv (rs1 ir) in
  let b := X rv (rs2 ir) in
  let o := impl op rv p ir cycle pc in
  is_branch op -> is_u32 a -> is_u32 b ->
  is_branch_taken <$> outcome_rv o = Some (branch_predicate op a b) /\
  outcome_pc o
  = Some (if branch_predicate op a b then u32 (pc + imm ir)
          else u32 (pc + 4)) /\
  exists rv',
    rv_step 3 10 (blt_scenario linked) = Finished true rv' /\
    X rv' 3%nat = 0 /\ X rv' 4%nat = 7 /\ PC rv' = 20.
Proof.
  intros a b o Hop Ha Hb.
  destruct (branch_general op rv p ir cycle pc Hop Ha Hb) as [H1 H2].
  split; [exact H1|]. split; [exact H2|]. apply blt_scenario_result.
Qed.

(** C1 (failing input): JALR clears bit 0 of its target, so a JALR to
    0x1003 linking x1 continues at 0x1002 with X[1] = pc + 4; C.JR and
    C.JALR do not: through a register holding 0x1003, C.JR continues at
    0x1003, and C.JALR raises the instruction misalignment exception with
    PC = 0x1003 after writing the link. *)
Theorem cjr_cjalr_keep_bit0 :
  let pc := 0x2000 in
  (let o := impl rv_insn_jalr (jump_machine 0x1000) 0 (jalr_x1_x5 3) 0 pc in
   outcome_pc o = Some 0x1002 /\ reg_after o 1 = Some (pc + 4)) /\
  outcome_pc (impl rv_insn_cjr (jump_machine 0x1003) 0 cjr_x5 0 pc)
  = Some 0x1003 /\
  (let o := impl rv_insn_cjalr (jump_machine 0x1003) 0 cjalr_x5 0 pc in
   raises o insn /\ outcome_pc o = Some 0x1003 /\
   reg_after o 1 = Some (pc + 2)).
Proof.
  vm_compute. repeat split; try reflexivity.
  do 2 eexists. split; reflexivity.
Qed.

(** Register x0 under the templates: [nop] clears it, a template such as
    [addi] leaves it alone when [rd] is another register, and writes its
    result there when [rd] is 0. *)
Lemma nop_resets_x0 {M} (rv : riscv M) p ir cycle pc :
  reg_after (impl rv_insn_nop rv p ir cycle pc) 0 = Some 0.
Proof.
  unfold impl, RVOP, straight. rewrite reg_after_nextop.
  unfold op_nop, rv_reg_zero. by rewrite X_set_X_eq.
Qed.

Lemma addi_keeps_x0 {M} (rv : riscv M) p ir cycle pc :
  rd ir <> 0%nat ->
  reg_after (impl rv_insn_addi rv p ir cycle pc) 0 = Some (X rv 0%nat).
Proof.
  intros Hrd. unfold impl, RVOP, straight. rewrite reg_after_nextop.
  unfold op_addi. by rewrite X_set_X_ne.
Qed.

Lemma addi_rd0_writes_x0 {M} (rv : riscv M) p ir cycle pc :
  rd ir = 0%nat ->
  reg_after (impl rv_insn_addi rv p ir cycle pc) 0
  = Some (u32 (i32 (X rv (rs1 ir)) + imm ir)).
Proof.
  intros Hrd. unfold impl, RVOP, straight. rewrite reg_after_nextop.
  unfold op_addi. by rewrite Hrd, X_set_X_eq.
Qed.

(** C2 (failing input): a template that is handed rd = 0 writes x0.
    After [ADDI x0, x0, 5] register x0 holds 5, and the next instruction
    of the block, [ADDI x1, x0, 0], reads it; after [LW x0, 0(x0)] on a
    host whose memory reads 7, x0 holds 7. *)
Theorem rd0_write_reaches_x0 :
  reg_after (impl rv_insn_addi addi_x0_machine 0
               (mk_ir rv_insn_addi 0 0 0 5 None None None) 0 0) 0
  = Some 5 /\
  (exists rv', rv_step 1 10 addi_x0_machine = Finished true rv' /\
     X rv' 0%nat = 5 /\ X rv' 1%nat = 5) /\
  (exists rv', rv_step 1 10 lw_x0_machine = Finished true rv' /\
     X rv' 0%nat = 7).
Proof.
  split; [reflexivity|]. split.
  - exists (match rv_step 1 10 addi_x0_machine with
            | Finished _ rv => rv | _ => addi_x0_machine end).
    vm_compute. repeat split; reflexivity.
  - exists (match rv_step 1 10 lw_x0_machine with
            | Finished _ rv => rv | _ => lw_x0_machine end).
    vm_compute. repeat split; reflexivity.
Qed.

(** ** The set *)

Section SetFacts.
Variable set_hash : Z -> nat.

Lemma set_scan_found row key : forall fuel count c,
  (count <= c)%nat -> (c - count < fuel)%nat ->
  occupied_by_others row key count c ->
  row !! c = Some key -> key <> 0 ->
  set_scan row key count fuel = ScanFound.
Proof.
  induction fuel as [|fuel IH]; intros count c Hle Hfuel Hocc Hc Hkey;
    [lia|].
  simpl. destruct (decide (count = c)) as [->|Hne].
  - rewrite Hc. destruct (Z.eqb_spec key 0); [done|].
    by rewrite Z.eqb_refl.
  - destruct (Hocc count) as (s & Hs & Hs0 & Hsk); [lia|].
    rewrite Hs. destruct (Z.eqb_spec s 0); [done|].
    destruct (Z.eqb_spec s key); [done|].
    apply (IH (S count) c); try lia; try done.
    intros j Hj. apply Hocc. lia.
Qed.

Lemma set_scan_end row key : forall fuel count c,
  (count <= c)%nat -> (c - count < fuel)%nat ->
  occupied_by_others row key count c ->
  row !! c = Some 0 ->
  set_scan row key count fuel = ScanEnd c.
Proof.
  induction fuel as [|fuel IH]; intros count c Hle Hfuel Hocc Hc; [lia|].
  simpl. destruct (decide (count = c)) as [->|Hne].
  - by rewrite Hc.
  - destruct (Hocc count) as (s & Hs & Hs0 & Hsk); [lia|].
    rewrite Hs. destruct (Z.eqb_spec s 0); [done|].
    destruct (Z.eqb_spec s key); [done|].
    apply (IH (S count) c); try lia; try done.
    intros j Hj. apply Hocc. lia.
Qed.

(** What each way of ending the scan says about the bucket. *)
Lemma set_scan_inv row key : forall fuel count,
  match set_scan row key count fuel with
  | ScanFound =>
      key <> 0 /\
      exists c, (count <= c)%nat /\ occupied_by_others row key count c /\
                row !! c = Some key
  | ScanEnd c =>
      (count <= c)%nat /\ occupied_by_others row key count c /\
      row !! c = Some 0
  | ScanAbort => True
  end.
Proof.
  induction fuel as [|fuel IH]; intros count; simpl; [done|].
  destruct (row !! count) as [s|] eqn:Hs; [|done].
  destruct (Z.eqb_spec s 0) as [->|Hs0].
  { split; [lia|]. split; [|done]. intros j Hj. lia. }
  destruct (Z.eqb_spec s key) as [->|Hsk].
  { split; [done|]. exists count. split; [lia|]. split; [|done].
    intros j Hj. lia. }
  specialize (IH (S count)).
  assert (Hext : forall c, (S count <= c)%nat ->
            occupied_by_others row key (S count) c ->
            occupied_by_others row key count c).
  { intros c Hc Hocc j Hj. destruct (decide (j = count)) as [->|].
    - by exists s.
    - apply Hocc. lia. }
  destruct (set_scan row key (S count) fuel) as [|c|].
  - destruct IH as (Hk & c & Hc & Hocc & Hrow). split; [done|].
    exists c. split; [lia|]. split; [by apply Hext|done].
  - destruct IH as (Hc & Hocc & Hrow).
    split; [lia|]. split; [by apply Hext|done].
  - done.
Qed.

Lemma occupied_by_others_insert row key count c v :
  occupied_by_others row key count c ->
  occupied_by_others (<[c := v]> row) key count c.
Proof.
  intros Hocc j Hj. destruct (Hocc j Hj) as (s & Hs & H0 & Hk).
  exists s. split; [|done]. rewrite list_lookup_insert_ne by lia. done.
Qed.

(** C9: whenever [set_add(set, key)] returns: for a nonzero key
    [set_has] then finds it, and the result was [false], with the set
    unchanged, exactly when [set_has] found it before; for the key 0
    [set_add] returns [true] and leaves the set unchanged, yet [set_has]
    answers [false]; no set ever reports the key 0 as a member. *)
Theorem set_add_then_has (set : set_t) (key : Z) (b : bool) (set' : set_t) :
  set_add set_hash set key = Some (b, set') ->
  (key <> 0 ->
     set_has set_hash set' key = Some true /\
     (b = false <-> set_has set_hash set key = Some true) /\
     (b = false -> set' = set)) /\
  (key = 0 ->
     b = true /\ set' = set /\ set_has set_hash set' key = Some false) /\
  (forall s : set_t, set_has set_hash s 0 <> Some true).
Proof.
  intros Hadd. unfold set_add, set_has in *. cbv zeta in *. unfold set_t in *.
  destruct (set !! set_hash key) as [row|] eqn:Hrow.
  2: { cbn [mbind option_bind] in Hadd. done. }
  cbn [mbind option_bind] in Hadd.
  pose proof (set_scan_inv row key (S (length row)) 0) as Hinv.
  split; [|split].
  - intros Hkey. destruct (set_scan row key 0 (S (length row))) as [|c|] eqn:Hscan;
      [| |done]; injection Hadd as <- <-.
    + rewrite ?Hrow; cbn [mbind option_bind]. rewrite Hscan.
      split; [done|]. split; [|done]. split; done.
    + destruct Hinv as (_ & Hocc & Hc).
      assert (Hlen : (c < length row)%nat) by (by eapply lookup_lt_Some).
      split; [|split; [|done]].
      * rewrite list_lookup_insert_eq
          by (by eapply lookup_lt_Some).
        cbn [mbind option_bind]. rewrite length_insert.
        rewrite (set_scan_found _ key _ 0%nat c); try done; try lia.
        -- by apply occupied_by_others_insert.
        -- by apply list_lookup_insert_eq.
      * rewrite ?Hrow; cbn [mbind option_bind]. rewrite Hscan.
        split; intros; done.
  - intros ->. destruct (set_scan row 0 0 (S (length row))) as [|c|] eqn:Hscan;
      [by destruct Hinv| |done]; injection Hadd as <- <-.
    destruct Hinv as (_ & Hocc & Hc).
    rewrite (list_insert_id row c 0 Hc), (list_insert_id set _ row Hrow).
    split; [done|]. split; [done|].
    rewrite ?Hrow; cbn [mbind option_bind]. by rewrite Hscan.
  - intros s. unfold set_has.
    destruct (s !! set_hash 0) as [r|]; cbn [mbind option_bind]; [|done].
    pose proof (set_scan_inv r 0 (S (length r)) 0) as Hr.
    destruct (set_scan r 0 0 (S (length r))); [by destruct Hr|done|done].
Qed.

End SetFacts.

(** ** sanitize_path *)

(** The byte-level function against its element-level reading.  Indices
    and lengths are naturals throughout this section. *)
Section SanitizeFacts.
#[local] Close Scope Z_scope.

(** *** Facts on the element-level reading *)

Lemma split_slash_not_nil s : split_slash s <> [].
Proof.
  destruct s as [|c s]; simpl; [done|].
  destruct (decide (c = SLASH)); [done|].
  by destruct (split_slash s).
Qed.

Lemma split_slash_no_slash e : SLASH ∉ e -> split_slash e = [e].
Proof.
  induction e as [|c e IH]; intros He; simpl; [done|].
  apply not_elem_of_cons in He as [Hc He].
  destruct (decide (c = SLASH)); [congruence|].
  by rewrite IH.
Qed.

Lemma split_slash_app e t :
  SLASH ∉ e -> split_slash (e ++ SLASH :: t) = e :: split_slash t.
Proof.
  induction e as [|c e IH]; intros He; simpl.
  - by destruct (decide (SLASH = SLASH)).
  - apply not_elem_of_cons in He as [Hc He].
    destruct (decide (c = SLASH)); [congruence|].
    by rewrite IH.
Qed.

Lemma kept_elements_nil is_root es : kept_elements is_root [] es = es.
Proof. reflexivity. Qed.

Lemma kept_elements_slash is_root t es :
  kept_elements is_root (SLASH :: t) es = kept_elements is_root t es.
Proof.
  unfold kept_elements. simpl.
  by destruct (decide (SLASH = SLASH)).
Qed.

(** Reading one whole element [e], followed by the end or by a slash. *)
Lemma kept_elements_element is_root e t es :
  SLASH ∉ e -> (t = [] \/ exists t', t = SLASH :: t') ->
  kept_elements is_root (e ++ t) es
  = kept_elements is_root t (process_element is_root es e).
Proof.
  intros He [->|[t' ->]].
  - rewrite app_nil_r. unfold kept_elements.
    rewrite split_slash_no_slash by done. reflexivity.
  - rewrite kept_elements_slash. unfold kept_elements.
    by rewrite split_slash_app.
Qed.

(** Every non-empty list starts with a slash-free run ending at a slash
    or at the end. *)
Lemma first_element (l : list ascii) :
  exists e t, l = e ++ t /\ (SLASH ∉ e) /\ (t = [] \/ exists t', t = SLASH :: t').
Proof.
  induction l as [|c l (e & t & -> & He & Ht)].
  - exists [], []. split; [done|]. split; [apply not_elem_of_nil|by left].
  - destruct (decide (c = SLASH)) as [->|Hc].
    + exists [], (SLASH :: e ++ t). split; [done|].
      split; [apply not_elem_of_nil|right; by eexists].
    + exists (c :: e), t. split; [done|]. split; [|done].
      by apply not_elem_of_cons.
Qed.

(** *** strnlen *)

Lemma strnlen_Some s : forall m n,
  strnlen s m = Some n ->
  (n <= m)%nat /\ (n <= length s)%nat /\
  Forall (fun c => c <> NUL) (take n s) /\
  ((n < m)%nat -> s !! n = Some NUL).
Proof.
  induction s as [|c s IH]; intros [|m] n H; simpl in H.
  - injection H as <-. simpl. repeat split; try lia. constructor.
  - done.
  - injection H as <-. simpl. repeat split; try lia. constructor.
  - destruct (decide (c = NUL)) as [->|Hc].
    + injection H as <-. simpl. repeat split; try lia. constructor.
    + destruct (strnlen s m) as [n'|] eqn:E; [|done].
      injection H as <-. destruct (IH m n' E) as (H1 & H2 & H3 & H4).
      simpl. repeat split; try lia.
      * by constructor.
      * intros. apply H4. lia.
Qed.

(** The length of a terminated buffer. *)
Lemma strnlen_terminated (p q : list ascii) :
  Forall (fun c => c <> NUL) p -> (length p <= MAX_PATH_LEN)%nat ->
  strnlen (p ++ NUL :: q) MAX_PATH_LEN = Some (length p).
Proof.
  generalize MAX_PATH_LEN as m.
  induction p as [|c p IH]; intros m Hp Hm; simpl in *.
  - destruct m; [done|]. simpl. by destruct (decide (NUL = NUL)).
  - destruct m; [lia|]. simpl. apply Forall_cons in Hp as [Hc Hp].
    destruct (decide (c = NUL)); [done|].
    rewrite IH by (try done; lia). done.
Qed.

Lemma cstring_terminated (p q : list ascii) :
  Forall (fun c => c <> NUL) p -> cstring (p ++ NUL :: q) = Some p.
Proof.
  induction p as [|c p IH]; intros Hp; simpl.
  - by destruct (decide (NUL = NUL)).
  - apply Forall_cons in Hp as [Hc Hp].
    destruct (decide (c = NUL)); [done|]. by rewrite IH.
Qed.

(** *** Rendering *)

Lemma join_slash_snoc es e :
  join_slash (es ++ [e])
  = join_slash es ++ (if decide (es = []) then e else SLASH :: e).
Proof.
  induction es as [|e1 es IH]; [done|].
  destruct (decide (e1 :: es = [])) as [|_]; [done|].
  destruct es as [|e2 es].
  - done.
  - change (join_slash ((e1 :: e2 :: es) ++ [e]))
      with (e1 ++ SLASH :: join_slash ((e2 :: es) ++ [e])).
    rewrite IH. destruct (decide (e2 :: es = [])) as [|_]; [done|].
    change (join_slash (e1 :: e2 :: es))
      with (e1 ++ SLASH :: join_slash (e2 :: es)).
    by rewrite <- !app_assoc.
Qed.

Lemma render_snoc is_root es e :
  render is_root (es ++ [e])
  = render is_root es ++ (if decide (es = []) then e else SLASH :: e).
Proof. unfold render. by rewrite join_slash_snoc, app_assoc. Qed.

Lemma join_slash_nil_inv es :
  Forall (fun e => e <> []) es -> join_slash es = [] -> es = [].
Proof.
  destruct es as [|e1 [|e2 es]]; [done| |].
  - intros H%Forall_cons. simpl. intros ->. by destruct H.
  - intros H%Forall_cons.
    change (join_slash (e1 :: e2 :: es))
      with (e1 ++ SLASH :: join_slash (e2 :: es)).
    intros E. by destruct e1.
Qed.

Lemma real_element_DOTDOT_ne e : real_element e -> e <> DOTDOT.
Proof. by intros (_ & _ & _ & _ & H). Qed.

Lemma kept_shape_nonempty is_root k es :
  kept_shape is_root k es -> Forall (fun e => e <> []) es.
Proof.
  intros (reals & -> & Hreals & _). apply Forall_app. split.
  - by apply Forall_replicate.
  - eapply Forall_impl; [exact Hreals|]. by intros e (H & _).
Qed.

Lemma kept_shape_no_NUL is_root k es :
  kept_shape is_root k es -> Forall (fun c => c <> NUL) (render is_root es).
Proof.
  intros (reals & -> & Hreals & _). unfold render.
  apply Forall_app. split; [destruct is_root; by repeat constructor|].
  assert (Hel : Forall (fun e => Forall (fun c => c <> NUL) e)
                  (replicate k DOTDOT ++ reals)).
  { apply Forall_app. split.
    - apply Forall_replicate. by repeat constructor.
    - eapply Forall_impl; [exact Hreals|]. intros e (_ & _ & H & _).
      apply Forall_forall. intros c Hc ->. done. }
  induction Hel as [|e1 es He1 Hes IH]; [constructor|].
  destruct es as [|e2 es]; [done|].
  change (join_slash (e1 :: e2 :: es))
    with (e1 ++ SLASH :: join_slash (e2 :: es)).
  apply Forall_app. split; [done|]. by constructor.
Qed.

(** The output is empty only for a relative path without elements. *)
Lemma render_nil_inv is_root k es :
  kept_shape is_root k es ->
  render is_root es = [] -> is_root = false /\ es = [].
Proof.
  intros Hshape. unfold render. destruct is_root; [done|]. simpl.
  intros H. split; [done|]. eapply join_slash_nil_inv; [|done].
  by eapply kept_shape_nonempty.
Qed.

Lemma render_length_base is_root k es :
  kept_shape is_root k es ->
  (length (render is_root es) = if is_root then 1 else 0) <-> es = [].
Proof.
  intros Hshape. split.
  - unfold render. rewrite length_app. intros H.
    eapply join_slash_nil_inv; [by eapply kept_shape_nonempty|].
    apply length_zero_iff_nil. destruct is_root; simpl in H; lia.
  - intros ->. by destruct is_root.
Qed.

(** *** The byte-level loops *)

Lemma drop_cons_inv {A} (l : list A) r c rest :
  drop r l = c :: rest -> l !! r = Some c /\ drop (S r) l = rest.
Proof.
  intros H. split.
  - rewrite <- (Nat.add_0_r r), <- lookup_drop, H. reflexivity.
  - replace (S r) with (r + 1) by lia.
    rewrite <- drop_drop, H. reflexivity.
Qed.

Lemma buf_write_Some ret w c :
  w < length ret -> buf_write ret w c = Some (<[w := c]> ret).
Proof. intros H. unfold buf_write. by destruct (decide (w < length ret)). Qed.

Lemma take_write {A} (ret : list A) w c P :
  take w ret = P -> w < length ret ->
  take (S w) (<[w := c]> ret) = P ++ [c].
Proof.
  intros HP Hw.
  rewrite (take_S_r _ _ c) by (by apply list_lookup_insert_eq).
  by rewrite take_insert_ge, HP by lia.
Qed.

(** [w--; while (w > dotdot && ret[w] != '/') w--;] stops at [L] when the
    bytes above [L] hold no slash and [L] is [dotdot] or holds a slash. *)
Lemma backtrack_stop (ret : list ascii) dotdot L : forall m,
  dotdot <= L ->
  (L = dotdot \/ ret !! L = Some SLASH) ->
  (forall i, L < i <= L + m -> exists c, ret !! i = Some c /\ c <> SLASH) ->
  backtrack ret dotdot (L + m) = Some L.
Proof.
  induction m as [|m IH]; intros Hd HL Hm.
  - rewrite Nat.add_0_r. destruct L as [|L]; [done|]. simpl.
    destruct (decide (dotdot < S L)) as [Hlt|]; [|done].
    destruct HL as [HL | HL]; [lia|]. rewrite HL. simpl.
    by destruct (decide (SLASH = SLASH)).
  - replace (L + S m) with (S (L + m)) by lia. simpl.
    destruct (decide (dotdot < S (L + m))) as [_|]; [|lia].
    destruct (Hm (S (L + m))) as (c & -> & Hc); [lia|]. simpl.
    destruct (decide (c = SLASH)); [done|].
    apply IH; try done. intros i Hi. apply Hm. lia.
Qed.

Section Reads.
Variables (input : list ascii) (n : nat).
Local Abbreviation s := (take n input).

Lemma input_lookup r c : s !! r = Some c -> input !! r = Some c /\ r < n.
Proof. intros H. by apply lookup_take_Some in H. Qed.

Lemma drop_s_nil r : n <= length input -> drop r s = [] -> n <= r.
Proof.
  intros Hn H. apply (f_equal length) in H.
  rewrite length_drop, length_take in H. simpl in H. lia.
Qed.

(** The copy loop copies exactly the element [e] that starts at [r]. *)
Lemma copy_element_spec : forall e fuel r w ret P t,
  n <= length input ->
  drop r s = e ++ t -> SLASH ∉ e -> (t = [] \/ exists t', t = SLASH :: t') ->
  take w ret = P -> w + length e <= length ret -> length e < fuel ->
  exists ret',
    copy_element input n fuel r w ret
    = Some (r + length e, w + length e, ret') /\
    take (w + length e) ret' = P ++ e /\
    length ret' = length ret.
Proof.
  induction e as [|c e IH]; intros fuel r w ret P t Hn Hdrop He Ht HP Hw Hf.
  - exists ret. rewrite !Nat.add_0_r, app_nil_r. split; [|done].
    destruct fuel as [|fuel]; [simpl in Hf; lia|]. simpl.
    destruct (decide (r < n)) as [Hr|]; [|done].
    destruct Ht as [-> | [t' ->]].
    + apply drop_s_nil in Hdrop; [lia|done].
    + apply drop_cons_inv in Hdrop as [Hc _].
      apply input_lookup in Hc as [-> _]. simpl.
      by destruct (decide (SLASH = SLASH)).
  - apply not_elem_of_cons in He as [Hc He].
    simpl in Hdrop. apply drop_cons_inv in Hdrop as [Hrc Hdrop].
    apply input_lookup in Hrc as [Hrc Hr].
    destruct fuel as [|fuel]; [simpl in Hf; lia|]. simpl.
    destruct (decide (r < n)) as [_|]; [|lia].
    rewrite Hrc. simpl. destruct (decide (c = SLASH)); [congruence|].
    simpl in Hw. rewrite buf_write_Some by lia. simpl.
    destruct (IH fuel (r + 1) (w + 1) (<[w := c]> ret) (P ++ [c]) t)
      as (ret' & Hcopy & Htake & Hlen); try done.
    + by replace (r + 1) with (S r) by lia.
    + replace (w + 1) with (S w) by lia. apply take_write; [done|lia].
    + rewrite length_insert. lia.
    + simpl in Hf. lia.
    + exists ret'. rewrite Hcopy.
      replace (r + 1 + length e) with (r + S (length e)) by lia.
      replace (w + 1 + length e) with (w + S (length e)) in * by lia.
      split; [done|]. rewrite Htake, <- app_assoc.
      split; [done|]. by rewrite Hlen, length_insert.
Qed.


(** The test for a ["."] element decides whether the element at [r] is
    ["."]. *)
Lemma is_dot_element_spec r c e t :
  n <= length input ->
  drop r s = (c :: e) ++ t -> SLASH ∉ c :: e ->
  (t = [] \/ exists t', t = SLASH :: t') ->
  is_dot_element input n r = Some (bool_decide (c :: e = [DOT])).
Proof.
  intros Hn Hdrop He Ht. apply not_elem_of_cons in He as [Hc He].
  simpl in Hdrop. apply drop_cons_inv in Hdrop as [Hrc Hdrop].
  apply input_lookup in Hrc as [Hrc Hr].
  unfold is_dot_element. rewrite Hrc. cbn [mbind option_bind].
  destruct (decide (c = DOT)) as [->|Hdot].
  2: { f_equal. symmetry. apply bool_decide_eq_false. congruence. }
  destruct (decide (r + 1 = n)) as [Hend|Hend].
  - f_equal. symmetry. apply bool_decide_eq_true.
    assert (Hnil : e ++ t = []).
    { rewrite <- Hdrop. apply drop_ge. rewrite length_take. lia. }
    apply app_eq_nil in Hnil as [-> _]. done.
  - destruct e as [|c1 e].
    + destruct Ht as [-> | [t' ->]].
      * apply drop_s_nil in Hdrop; [lia|done].
      * simpl in Hdrop. apply drop_cons_inv in Hdrop as [Hc1 _].
        replace (S r) with (r + 1) in Hc1 by lia.
        apply input_lookup in Hc1 as [-> _]. cbn [mbind option_bind].
        by rewrite !bool_decide_eq_true_2.
    + apply not_elem_of_cons in He as [Hc1 He].
      simpl in Hdrop. apply drop_cons_inv in Hdrop as [Hrc1 _].
      replace (S r) with (r + 1) in Hrc1 by lia.
      apply input_lookup in Hrc1 as [-> _]. cbn [mbind option_bind].
      rewrite !bool_decide_eq_false_2; congruence.
Qed.

(** The test for a [".."] element decides whether the element at [r] is
    [".."], once it is known not to be ["."]. *)
Lemma is_dotdot_element_spec r c e t :
  n <= length input ->
  drop r s = (c :: e) ++ t -> SLASH ∉ c :: e ->
  (t = [] \/ exists t', t = SLASH :: t') ->
  c :: e <> [DOT] ->
  is_dotdot_element input n r = Some (bool_decide (c :: e = DOTDOT)).
Proof.
  intros Hn Hdrop He Ht Hnd. apply not_elem_of_cons in He as [Hc He].
  simpl in Hdrop. apply drop_cons_inv in Hdrop as [Hrc Hdrop].
  apply input_lookup in Hrc as [Hrc Hr].
  unfold is_dotdot_element. rewrite Hrc. cbn [mbind option_bind].
  destruct (decide (c = DOT)) as [->|Hdot].
  2: { f_equal. symmetry. apply bool_decide_eq_false.
       unfold DOTDOT. congruence. }
  destruct e as [|c1 e]; [done|].
  apply not_elem_of_cons in He as [Hc1 He].
  simpl in Hdrop. apply drop_cons_inv in Hdrop as [Hrc1 Hdrop].
  replace (S r) with (r + 1) in Hrc1 by lia.
  apply input_lookup in Hrc1 as [Hrc1 Hr1]. rewrite Hrc1.
  cbn [mbind option_bind].
  destruct (decide (c1 = DOT)) as [->|Hdot1].
  2: { f_equal. symmetry. apply bool_decide_eq_false.
       unfold DOTDOT. congruence. }
  destruct (decide (r + 2 = n)) as [Hend|Hend].
  - f_equal. symmetry. apply bool_decide_eq_true.
    assert (Hnil : e ++ t = []).
    { rewrite <- Hdrop. apply drop_ge. rewrite length_take. lia. }
    apply app_eq_nil in Hnil as [-> _]. done.
  - destruct e as [|c2 e].
    + destruct Ht as [-> | [t' ->]].
      * apply drop_s_nil in Hdrop; [lia|done].
      * simpl in Hdrop. apply drop_cons_inv in Hdrop as [Hc2 _].
        replace (S (S r)) with (r + 2) in Hc2 by lia.
        apply input_lookup in Hc2 as [-> _]. cbn [mbind option_bind].
        by rewrite !bool_decide_eq_true_2.
    + apply not_elem_of_cons in He as [Hc2 He].
      simpl in Hdrop. apply drop_cons_inv in Hdrop as [Hrc2 _].
      replace (S (S r)) with (r + 2) in Hrc2 by lia.
      apply input_lookup in Hrc2 as [-> _]. cbn [mbind option_bind].
      rewrite !bool_decide_eq_false_2; unfold DOTDOT; congruence.
Qed.

End Reads.

(** *** The shape of the kept elements *)

Lemma render_app_length is_root A B :
  length (render is_root A) <= length (render is_root (A ++ B)).
Proof.
  induction B as [|e B IH] using rev_ind.
  - by rewrite app_nil_r.
  - rewrite app_assoc, render_snoc, length_app. lia.
Qed.

Lemma kept_shape_nil is_root : kept_shape is_root 0 [].
Proof. exists []. split; [done|]. split; [constructor|done]. Qed.

(** Either only the [".."] prefix is kept, or a real element is last. *)
Lemma kept_shape_cases is_root k es :
  kept_shape is_root k es ->
  (es = replicate k DOTDOT) \/
  (exists es0 e0,
     es = es0 ++ [e0] /\ real_element e0 /\ kept_shape is_root k es0 /\
     dotdot_offset is_root k <= length (render is_root es0)).
Proof.
  intros (reals & -> & Hreals & Hroot).
  destruct reals as [|e reals _] using rev_ind.
  - left. by rewrite app_nil_r.
  - right. apply Forall_app in Hreals as [Hreals He].
    apply Forall_inv in He.
    exists (replicate k DOTDOT ++ reals), e.
    split; [by rewrite app_assoc|]. split; [done|].
    split; [exists reals; done|]. apply render_app_length.
Qed.

Lemma kept_shape_push_real is_root k es e :
  kept_shape is_root k es -> real_element e ->
  kept_shape is_root k (es ++ [e]).
Proof.
  intros (reals & -> & Hreals & Hroot) He.
  exists (reals ++ [e]). split; [by rewrite app_assoc|].
  split; [|done]. apply Forall_app. split; [done|]. by constructor.
Qed.

Lemma kept_shape_push_dotdot k :
  kept_shape false (S k) (replicate k DOTDOT ++ [DOTDOT]).
Proof.
  exists []. rewrite app_nil_r, <- replicate_S_end.
  split; [done|]. split; [constructor|done].
Qed.

Lemma kept_shape_only is_root k :
  (is_root = true -> k = 0) -> kept_shape is_root k (replicate k DOTDOT).
Proof.
  intros H. exists []. rewrite app_nil_r.
  split; [done|]. split; [constructor|done].
Qed.

(** What a [".."] does to the kept elements. *)
Lemma apply_dotdot_pop is_root es0 e0 :
  real_element e0 -> apply_dotdot is_root (es0 ++ [e0]) = es0.
Proof.
  intros He. unfold apply_dotdot. rewrite last_snoc.
  destruct (decide (e0 = DOTDOT)) as [->|_].
  - by apply real_element_DOTDOT_ne in He.
  - apply removelast_last.
Qed.

Lemma apply_dotdot_push k :
  apply_dotdot false (replicate k DOTDOT) = replicate k DOTDOT ++ [DOTDOT].
Proof.
  unfold apply_dotdot. destruct k as [|k]; [done|].
  rewrite replicate_S_end, last_snoc.
  by destruct (decide (DOTDOT = DOTDOT)).
Qed.

Lemma process_element_real is_root es e :
  real_element e -> process_element is_root es e = es ++ [e].
Proof.
  intros (H1 & _ & _ & H2 & H3). unfold process_element.
  destruct (decide (e = [])); [done|].
  destruct (decide (e = [DOT])); [done|].
  by destruct (decide (e = DOTDOT)).
Qed.

(** *** One iteration of the main loop *)

Section Step.
Variables (input : list ascii) (n : nat) (is_root : bool)
          (F : list (list ascii)).
Hypothesis Hn : n <= length input.
Hypothesis Hnul : Forall (fun c => c <> NUL) (take n input).
Local Abbreviation s := (take n input).

Lemma length_s : length s = n.
Proof. rewrite length_take. lia. Qed.

(** What is known of the element [el] that starts at [r]. *)
Lemma element_facts r el t :
  r <= n -> drop r s = el ++ t ->
  r + length el <= n /\
  drop (r + length el) s = t /\
  Forall (fun c => c <> NUL) el /\
  (t = [] -> r + length el = n) /\
  (forall t', t = SLASH :: t' -> s !! (r + length el) = Some SLASH).
Proof.
  intros Hr Hdrop.
  assert (Hlen : length (drop r s) = length el + length t)
    by (by rewrite Hdrop, length_app).
  rewrite length_drop, length_s in Hlen.
  assert (Hrest : drop (r + length el) s = t).
  { rewrite <- drop_drop, Hdrop. apply drop_app_length. }
  split; [|split; [done|split; [|split]]].
  - lia.
  - assert (Hsub : Forall (fun c => c <> NUL) (drop r s)).
    { rewrite <- (take_drop r s) in Hnul.
      by apply Forall_app in Hnul as [_ H]. }
    rewrite Hdrop in Hsub. by apply Forall_app in Hsub as [H _].
  - intros ->. simpl in Hlen. lia.
  - intros t' ->. by apply drop_cons_inv in Hrest as [H _].
Qed.


Local Ltac obind := cbn [mbind option_bind].

Lemma sanitize_iter_inv r w dotdot ret :
  sp_inv input n is_root F (mk_sp r w dotdot ret) -> r < n ->
  exists st',
    sanitize_iter input n is_root (mk_sp r w dotdot ret) = Some st' /\
    sp_inv input n is_root F st' /\ r < sp_r st'.
Proof.
  intros (es & k & Hr & Hlen & Htake & Hw & Hdd & Hshape & HF & Hwr & Hpos)
    Hrn.
  cbn [sp_r sp_w sp_dotdot sp_ret] in *.
  destruct (first_element (drop r s)) as (el & t & Hdrop & Hel & Ht).
  destruct (element_facts r el t Hr Hdrop)
    as (Hr' & Hrest & Helnul & Hend & Hnext).
  destruct el as [|c e].
  - (* an empty path element: the byte at [r] is a slash *)
    destruct Ht as [-> | [t' ->]]; [specialize (Hend eq_refl); simpl in Hend; lia|].
    simpl in Hdrop. pose proof (drop_cons_inv _ _ _ _ Hdrop) as [Hc Hrest'].
    apply input_lookup in Hc as [Hc _].
    unfold sanitize_iter. rewrite Hc. obind.
    destruct (decide (SLASH = SLASH)) as [_|]; [|done].
    eexists. split; [reflexivity|]. split; [|simpl; lia].
    exists es, k. cbn [sp_r sp_w sp_dotdot sp_ret].
    split; [lia|]. split; [done|]. split; [done|]. split; [done|].
    split; [done|]. split; [done|]. split; [|split; [lia|]].
    + rewrite <- HF, Hdrop, kept_elements_slash.
      replace (r + 1) with (S r) by lia. by rewrite Hrest'.
    + right. right. left. lia.
  - (* an element [c :: e] starts at [r] *)
    pose proof Hel as Hel'. apply not_elem_of_cons in Hel' as [Hc He].
    simpl in Hdrop. pose proof (drop_cons_inv _ _ _ _ Hdrop) as [Hrc _].
    assert (Hgap : w < r \/ es = []).
    { destruct Hpos as [?|[Hs|?]]; [lia| |done]. congruence. }
    apply input_lookup in Hrc as [Hrc _].
    assert (Hpos' : r + length (c :: e) = n \/
                    s !! (r + length (c :: e)) = Some SLASH).
    { destruct Ht as [-> | [t' ->]]; [left; by apply Hend|right; by eapply Hnext]. }
    assert (HF' : kept_elements is_root t
                    (process_element is_root es (c :: e)) = F).
    { rewrite <- HF, Hdrop. symmetry.
      by apply (kept_elements_element is_root (c :: e)). }
    unfold sanitize_iter. rewrite Hrc. obind.
    destruct (decide (c = SLASH)) as [|_]; [done|].
    rewrite (is_dot_element_spec input n r c e t) by done. obind.
    destruct (decide (c :: e = [DOT])) as [Edot|Hndot].
    { (* . element *)
      rewrite bool_decide_eq_true_2 by done.
      injection Edot as -> ->. simpl in *.
      eexists. split; [reflexivity|]. split; [|simpl; lia].
      exists es, k. cbn [sp_r sp_w sp_dotdot sp_ret].
      split; [lia|]. split; [done|]. split; [done|]. split; [done|].
      split; [done|]. split; [done|]. split; [|split; [lia|]].
      - by rewrite Hrest.
      - destruct Hpos' as [?|?]; [by left|right; by left]. }
    rewrite bool_decide_eq_false_2 by done.
    rewrite (is_dotdot_element_spec input n r c e t) by done. obind.
    assert (Hret : forall i, i < w -> ret !! i = render is_root es !! i).
    { intros i Hi. by rewrite <- Htake, lookup_take_lt. }
    destruct (decide (c :: e = DOTDOT)) as [Edd|Hndd].
    { (* .. element *)
      rewrite bool_decide_eq_true_2 by done.
      injection Edd as -> ->. cbn [length] in *.
      assert (Hproc : process_element is_root es [DOT; DOT]
                      = apply_dotdot is_root es) by done.
      rewrite Hproc in HF'.
      destruct (kept_shape_cases _ _ _ Hshape)
        as [Hes | (es0 & e0 & Hes & He0 & Hshape0 & Hdd0)].
      - (* nothing to remove: only [".."] elements are kept *)
        assert (Hwd : w = dotdot).
        { by rewrite Hw, Hdd, Hes. }
        destruct (decide (dotdot < w)) as [?|_]; [lia|].
        destruct is_root eqn:Hroot; cbn [negb].
        + (* absolute path: the element is dropped *)
          assert (k = 0) as -> by (destruct Hshape as (? & _ & _ & H); auto).
          simpl in Hes. subst es.
          eexists. split; [reflexivity|]. split; [|simpl; lia].
          exists [], 0. cbn [sp_r sp_w sp_dotdot sp_ret].
          split; [lia|]. split; [done|]. split; [done|]. split; [done|].
          split; [done|]. split; [done|]. split; [|split; [lia|]].
          * by rewrite Hrest.
          * destruct Hpos' as [?|?]; [by left|right; by left].
        + (* relative path: the element is appended *)
          rewrite Hes, apply_dotdot_push in HF'.
          assert (Hk : 0 < w <-> es <> []).
          { rewrite Hw. split.
            - intros H ->. simpl in H. lia.
            - intros H. destruct (Nat.eq_dec (length (render false es)) 0)
                as [E|]; [|lia].
              apply length_zero_iff_nil in E.
              by apply (render_nil_inv _ _ _ Hshape) in E as [_ ?]. }
          assert (Hrender : render false (replicate (S k) DOTDOT)
                    = render false es
                      ++ (if decide (es = []) then DOTDOT
                          else SLASH :: DOTDOT)).
          { by rewrite replicate_S_end, <- Hes, render_snoc. }
          destruct (decide (0 < w)) as [Hw0|Hw0].
          * assert (Hne : es <> []) by (by apply Hk).
            destruct Hgap as [Hgap|?]; [|done].
            rewrite buf_write_Some by lia. obind.
            rewrite buf_write_Some by (rewrite length_insert; lia). obind.
            rewrite buf_write_Some by (rewrite !length_insert; lia). obind.
            eexists. split; [reflexivity|]. split; [|simpl; lia].
            exists (replicate k DOTDOT ++ [DOTDOT]), (S k).
            cbn [sp_r sp_w sp_dotdot sp_ret].
            rewrite <- replicate_S_end, Hrender.
            destruct (decide (es = [])) as [|_]; [done|].
            rewrite length_app. cbn [length]. change (length DOTDOT) with 2.
            split; [lia|]. split; [by rewrite !length_insert|].
            split; [|split; [lia|split; [unfold dotdot_offset;
              rewrite Hrender, length_app; cbn [length];
              change (length DOTDOT) with 2; lia|]]].
            { replace (w + 1 + 2) with (S (S (S w))) by lia.
              replace (w + 1 + 1) with (S (S w)) by lia.
              replace (w + 1) with (S w) by lia.
              assert (H1 : take (S w) (<[w := SLASH]> ret)
                           = render false es ++ [SLASH])
                by (apply take_write; [done|lia]).
              assert (H2 : take (S (S w)) (<[S w := DOT]> (<[w := SLASH]> ret))
                           = (render false es ++ [SLASH]) ++ [DOT])
                by (apply take_write; [done|rewrite length_insert; lia]).
              rewrite (take_write _ _ _ _ H2)
                by (rewrite !length_insert; lia).
              by rewrite <- !app_assoc. }
            split; [rewrite replicate_S_end; apply kept_shape_push_dotdot|].
            split; [by rewrite replicate_S_end, Hrest|].
            split; [lia|].
            destruct Hpos' as [?|?]; [by left|right; by left].
          * assert (Hnil : es = []).
            { destruct (decide (es = [])); [done|]. exfalso. apply Hw0.
              by apply Hk. }
            assert (Hw00 : w = 0) by lia.
            assert (k = 0) as -> by (rewrite Hnil in Hes; by destruct k).
            clear Hes Hrender. subst es w. obind.
            rewrite buf_write_Some by lia. obind.
            rewrite buf_write_Some by (rewrite length_insert; lia). obind.
            eexists. split; [reflexivity|]. split; [|simpl; lia].
            exists [DOTDOT], 1.
            cbn [sp_r sp_w sp_dotdot sp_ret].
            split; [lia|]. split; [by rewrite !length_insert|].
            split; [|split; [done|split; [done|]]].
            { assert (H1 : take 1 (<[0 := DOT]> ret) = [] ++ [DOT])
                by (apply take_write; [done|lia]).
              change (0 + 2) with 2. change (0 + 1) with 1.
              by rewrite (take_write _ _ _ _ H1)
                by (rewrite !length_insert; lia). }
            split; [apply (kept_shape_push_dotdot 0)|].
            split; [by rewrite Hrest|].
            split; [lia|].
            destruct Hpos' as [?|?]; [by left|right; by left].
      - (* the last real element is removed *)
        rewrite Hes, (apply_dotdot_pop _ _ _ He0) in HF'.
        destruct He0 as (He0ne & He0s & _).
        set (L := length (render is_root es0)) in *.
        set (sep := if decide (es0 = []) then e0 else SLASH :: e0).
        assert (Hrender : render is_root es = render is_root es0 ++ sep).
        { by rewrite Hes, render_snoc. }
        assert (Hsep : 0 < length sep).
        { unfold sep. destruct (decide (es0 = [])); [|simpl; lia].
          destruct e0; [done|simpl; lia]. }
        assert (HwL : w = L + length sep).
        { by rewrite Hw, Hrender, length_app. }
        destruct (decide (dotdot < w)) as [_|]; [|lia].
        assert (Hback : backtrack ret dotdot (L + (length sep - 1)) = Some L).
        { apply backtrack_stop.
          - lia.
          - unfold sep. destruct (decide (es0 = [])) as [E0|E0].
            + left. destruct Hshape0 as (reals0 & Hes0 & _ & _).
              rewrite E0 in Hes0. symmetry in Hes0.
              apply app_eq_nil in Hes0 as [Hk0 _].
              destruct k; [|done]. subst dotdot L. by rewrite E0.
            + right. rewrite Hret by lia. rewrite Hrender.
              unfold sep. destruct (decide (es0 = [])); [done|].
              by rewrite list_lookup_middle.
          - intros i Hi. rewrite Hret by lia. rewrite Hrender.
            rewrite lookup_app_r by (fold L; lia). fold L.
            unfold sep in *. destruct (decide (es0 = [])).
            + destruct (lookup_lt_is_Some_2 e0 (i - L)) as [c Hc']; [lia|].
              exists c. split; [done|]. intros ->.
              apply He0s. by eapply list_elem_of_lookup_2.
            + simpl in Hi. destruct (i - L) as [|j] eqn:Ej; [lia|]. simpl.
              destruct (lookup_lt_is_Some_2 e0 j) as [c Hc']; [lia|].
              exists c. split; [done|]. intros ->.
              apply He0s. by eapply list_elem_of_lookup_2. }
        replace (w - 1) with (L + (length sep - 1)) by lia.
        rewrite Hback. obind.
        eexists. split; [reflexivity|]. split; [|simpl; lia].
        exists es0, k. cbn [sp_r sp_w sp_dotdot sp_ret].
        split; [lia|]. split; [done|]. split; [|split; [done|]].
        { rewrite <- (take_app_length (render is_root es0) sep).
          rewrite <- Hrender, <- Htake, take_take. f_equal. fold L. lia. }
        split; [done|]. split; [done|]. split; [by rewrite Hrest|].
        split; [lia|].
        destruct Hpos' as [?|?]; [by left|right; by left]. }
    (* a real path element *)
    rewrite bool_decide_eq_false_2 by done.
    assert (Hreal : real_element (c :: e)).
    { split; [done|]. split; [done|]. split; [|done].
      intros Hin. rewrite Forall_forall in Helnul. by apply (Helnul NUL). }
    rewrite (process_element_real _ _ _ Hreal) in HF'.
    assert (Hcond : is_root && negb (bool_decide (w = 1))
                    || negb is_root && negb (bool_decide (w = 0))
                    = negb (bool_decide (es = []))).
    { pose proof (render_length_base _ _ _ Hshape) as Hb. rewrite <- Hw in Hb.
      destruct is_root; cbn [andb orb negb]; rewrite ?orb_false_r;
        f_equal; apply bool_decide_ext; done. }
    rewrite Hcond.
    assert (Hrender : render is_root (es ++ [c :: e])
              = render is_root es
                ++ (if decide (es = []) then c :: e else SLASH :: c :: e))
      by apply render_snoc.
    destruct (decide (es = [])) as [Hnil|Hne].
    + rewrite bool_decide_eq_true_2 by done. cbn [negb]. obind.
      destruct (copy_element_spec input n (c :: e) (S (n - r)) r w ret
                  (render is_root es) t)
        as (ret' & Hcopy & Htake' & Hlen'); try done; try lia.
      rewrite Hcopy. obind.
      eexists. split; [reflexivity|]. split; [|simpl; lia].
      exists (es ++ [c :: e]), k. cbn [sp_r sp_w sp_dotdot sp_ret].
      rewrite Hrender, length_app, <- Hw.
      split; [lia|]. split; [lia|]. split; [done|]. split; [done|].
      split; [done|]. split; [by apply kept_shape_push_real|].
      split; [by rewrite Hrest|]. split; [lia|].
      destruct Hpos' as [?|?]; [by left|right; by left].
    + rewrite bool_decide_eq_false_2 by done. cbn [negb].
      destruct Hgap as [Hgap|?]; [|done].
      rewrite buf_write_Some by lia. obind.
      destruct (copy_element_spec input n (c :: e) (S (n - r)) r (w + 1)
                  (<[w := SLASH]> ret) (render is_root es ++ [SLASH]) t)
        as (ret' & Hcopy & Htake' & Hlen'); try done;
        try (rewrite ?length_insert; lia).
      { replace (w + 1) with (S w) by lia. apply take_write; [done|lia]. }
      rewrite Hcopy. obind.
      eexists. split; [reflexivity|]. split; [|simpl; lia].
      exists (es ++ [c :: e]), k. cbn [sp_r sp_w sp_dotdot sp_ret].
      rewrite Hrender, length_app, <- Hw.
      rewrite length_insert in Hlen'.
      split; [lia|]. split; [lia|].
      split; [by rewrite Htake', <- app_assoc|].
      split; [simpl; lia|].
      split; [done|]. split; [by apply kept_shape_push_real|].
      split; [by rewrite Hrest|]. split; [simpl in *; lia|].
      destruct Hpos' as [?|?]; [by left|right; by left].
Qed.

End Step.

(** *** The whole loop and the function *)

Lemma sanitize_loop_inv input n is_root F :
  n <= length input -> Forall (fun c => c <> NUL) (take n input) ->
  forall fuel st,
    sp_inv input n is_root F st -> n - sp_r st <= fuel ->
    exists st',
      sanitize_loop input n is_root fuel st = Some st' /\
      sp_inv input n is_root F st' /\ sp_r st' = n.
Proof.
  intros Hn Hnul. induction fuel as [|fuel IH]; intros st Hinv Hfuel.
  - exists st. simpl. destruct (decide (sp_r st < n)); [lia|].
    split; [done|]. split; [done|].
    destruct Hinv as (? & ? & ? & _). lia.
  - simpl. destruct (decide (sp_r st < n)) as [Hlt|Hge].
    + destruct st as [r w dotdot ret].
      destruct (sanitize_iter_inv input n is_root F Hn Hnul r w dotdot ret
                  Hinv Hlt) as (st1 & Hstep & Hinv1 & Hr1).
      rewrite Hstep. cbn [mbind option_bind].
      apply IH; [done|]. simpl in *. lia.
    + exists st. split; [done|]. split; [done|].
      destruct Hinv as (? & ? & ? & _). lia.
Qed.

Lemma strnlen_le_max s : forall m n, strnlen s m = Some n -> n <= m.
Proof. intros m n H. by apply strnlen_Some in H as (? & _). Qed.

Lemma clean_path_unfold s :
  clean_path s
  = if decide (render (path_is_root s) (path_elements s) = [])
    then [DOT] else render (path_is_root s) (path_elements s).
Proof. reflexivity. Qed.

(** [sanitize_path] on a non-empty input: it returns the buffer holding
    [clean_path] of the input bytes, NUL-padded to [n + 1] bytes. *)
Theorem sanitize_path_spec input n :
  strnlen input MAX_PATH_LEN = Some n -> n <> 0 ->
  let s := take n input in
  sanitize_path input
  = Some (clean_path s ++ replicate (n + 1 - length (clean_path s)) NUL) /\
  0 < length (clean_path s) <= n /\
  Forall (fun c => c <> NUL) (clean_path s) /\
  exists k, kept_shape (path_is_root s) k (path_elements s).
Proof.
  intros Hstr Hn0 s.
  destruct (strnlen_Some _ _ _ Hstr) as (Hmax & Hn & Hnul & _).
  assert (Hs : length s = n) by (subst s; rewrite length_take; lia).
  subst s. cbv zeta.
  assert (Es : exists c0 s', take n input = c0 :: s').
  { destruct (take n input) as [|c0 s']; [simpl in Hs; lia|]. eauto. }
  destruct Es as (c0 & s' & Es). rewrite Es.
  assert (Hc0 : input !! 0 = Some c0).
  { destruct input as [|c1 input']; [by destruct n|].
    destruct n; [done|]. simpl in Es. by injection Es as -> _. }
  set (is_root := bool_decide (c0 = SLASH)).
  assert (Hroot : path_is_root (c0 :: s') = is_root).
  { unfold path_is_root, is_root. simpl. apply bool_decide_ext.
    split; congruence. }
  set (F := path_elements (c0 :: s')).
  assert (Hinit : exists st0,
    (if is_root
     then buf_write (replicate (n + 1) NUL) 0 SLASH
          ≫= λ ret', Some (mk_sp 1 1 1 ret')
     else Some (mk_sp 0 0 0 (replicate (n + 1) NUL))) = Some st0 /\
    sp_inv input n is_root F st0).
  { destruct is_root eqn:Eroot.
    - rewrite buf_write_Some by (rewrite length_replicate; lia).
      eexists. split; [reflexivity|].
      exists [], 0. cbn [sp_r sp_w sp_dotdot sp_ret].
      split; [lia|]. split; [by rewrite length_insert, length_replicate|].
      split; [|split; [done|split; [done|split; [apply kept_shape_nil|]]]].
      { replace (n + 1) with (S n) by lia. reflexivity. }
      split; [|split; [lia|by right; right; right]].
      unfold F, path_elements. rewrite Hroot. by rewrite <- Es.
    - eexists. split; [reflexivity|].
      exists [], 0. cbn [sp_r sp_w sp_dotdot sp_ret].
      split; [lia|]. split; [by rewrite length_replicate|].
      split; [done|]. split; [done|]. split; [done|].
      split; [apply kept_shape_nil|].
      split; [|split; [lia|by right; right; right]].
      unfold F, path_elements. rewrite Hroot. by rewrite <- Es. }
  destruct Hinit as (st0 & Hst0 & Hinv0).
  destruct (sanitize_loop_inv input n is_root F Hn Hnul n st0 Hinv0)
    as (st1 & Hloop & Hinv1 & Hr1); [lia|].
  destruct st1 as [r w dotdot ret].
  destruct Hinv1 as (es & k & _ & Hlen & Htake & Hw & _ & Hshape & HF & Hwr & _).
  cbn [sp_r sp_w sp_dotdot sp_ret] in *. subst r.
  rewrite drop_ge in HF by (rewrite length_take; lia).
  rewrite kept_elements_nil in HF. subst es.
  assert (Hclean : clean_path (c0 :: s')
            = if decide (render is_root F = []) then [DOT]
              else render is_root F).
  { rewrite clean_path_unfold, Hroot. reflexivity. }
  rewrite Hclean.
  unfold sanitize_path. rewrite Hstr. cbn [mbind option_bind].
  destruct (decide (n = 0)) as [|_]; [done|].
  rewrite Hc0. cbn [mbind option_bind]. fold is_root.
  rewrite Hst0. cbn [mbind option_bind].
  rewrite Hloop. cbn [mbind option_bind].
  assert (Hmem : forall w' ret', length ret' = n + 1 -> w' <= n + 1 ->
            memset_nul ret' w' (n + 1 - w')
            = Some (take w' ret' ++ replicate (n + 1 - w') NUL)).
  { intros w' ret' Hl Hw'. unfold memset_nul.
    destruct (decide (w' + (n + 1 - w') <= length ret')); [|lia].
    rewrite drop_ge by lia. by rewrite app_nil_r. }
  destruct (decide (render is_root F = [])) as [Hnil|Hne].
  - rewrite Hnil in Hw. simpl in Hw. subst w.
    destruct (decide (0 = 0)) as [_|]; [|done].
    rewrite buf_write_Some by lia. cbn [mbind option_bind].
    destruct (decide (0 + 1 <= n + 1)) as [_|]; [|lia].
    rewrite Hmem by (rewrite ?length_insert; lia).
    split; [|split; [simpl; lia|split; [by repeat constructor|]]].
    + f_equal. f_equal. change (0 + 1) with 1.
      by apply (take_write ret 0 DOT []); [|lia].
    + exists k. by rewrite Hroot.
  - assert (Hw0 : w <> 0).
    { rewrite Hw. intros H%length_zero_iff_nil. done. }
    destruct (decide (w = 0)) as [|_]; [done|]. cbn [mbind option_bind].
    destruct (decide (w <= n + 1)) as [_|]; [|lia].
    rewrite Hmem by (try done; lia).
    split; [by rewrite Htake, <- Hw|].
    split; [rewrite <- Hw; lia|].
    split; [by eapply kept_shape_no_NUL|].
    exists k. by rewrite Hroot.
Qed.

(** *** Cleaning a clean path *)

Lemma join_slash_cons e es :
  join_slash (e :: es)
  = e ++ (if decide (es = []) then [] else SLASH :: join_slash es).
Proof.
  destruct es as [|e2 es]; simpl; [by rewrite app_nil_r|done].
Qed.

Lemma join_slash_tail es :
  (if decide (es = []) then [] else SLASH :: join_slash es) = []
  \/ exists t', (if decide (es = []) then [] else SLASH :: join_slash es)
                = SLASH :: t'.
Proof. destruct (decide (es = [])); [by left|right; by eexists]. Qed.

Lemma kept_elements_tail is_root es P :
  kept_elements is_root
    (if decide (es = []) then [] else SLASH :: join_slash es) P
  = kept_elements is_root (join_slash es) P.
Proof.
  destruct (decide (es = [])) as [->|_]; [done|].
  apply kept_elements_slash.
Qed.

(** Reading real elements keeps them all. *)
Lemma kept_elements_reals is_root Q : forall P,
  Forall real_element Q ->
  kept_elements is_root (join_slash Q) P = P ++ Q.
Proof.
  induction Q as [|e Q IH]; intros P HQ.
  - by rewrite kept_elements_nil, app_nil_r.
  - apply Forall_cons in HQ as [He HQ].
    rewrite join_slash_cons.
    rewrite kept_elements_element;
      [|by destruct He as (_ & H & _)|apply join_slash_tail].
    rewrite kept_elements_tail, process_element_real by done.
    rewrite IH by done. by rewrite <- app_assoc.
Qed.

(** Reading leading [".."] elements of a relative path keeps them. *)
Lemma kept_elements_dotdots Q : forall j i,
  Forall real_element Q ->
  kept_elements false (join_slash (replicate j DOTDOT ++ Q))
    (replicate i DOTDOT)
  = replicate i DOTDOT ++ replicate j DOTDOT ++ Q.
Proof.
  induction j as [|j IH]; intros i HQ.
  - by apply kept_elements_reals.
  - change (replicate (S j) DOTDOT ++ Q)
      with (DOTDOT :: (replicate j DOTDOT ++ Q)).
    rewrite join_slash_cons.
    rewrite kept_elements_element; [| |apply join_slash_tail].
    2:{ intros H. by repeat (apply elem_of_cons in H as [H|H]; [done|]);
          apply elem_of_nil in H. }
    rewrite kept_elements_tail.
    assert (Hp : process_element false (replicate i DOTDOT) DOTDOT
                 = replicate (S i) DOTDOT).
    { unfold process_element.
      destruct (decide (DOTDOT = [])); [done|].
      destruct (decide (DOTDOT = [DOT])); [done|].
      destruct (decide (DOTDOT = DOTDOT)); [|done].
      by rewrite apply_dotdot_push, <- replicate_S_end. }
    rewrite Hp, IH by done.
    rewrite replicate_S_end, <- app_assoc. reflexivity.
Qed.

Lemma kept_elements_shape is_root k F :
  kept_shape is_root k F -> kept_elements is_root (join_slash F) [] = F.
Proof.
  intros (reals & -> & Hreals & Hroot).
  destruct is_root.
  - rewrite (Hroot eq_refl). simpl. by apply kept_elements_reals.
  - by apply (kept_elements_dotdots reals k 0).
Qed.

(** The first byte of a rendering tells whether the path is absolute. *)
Lemma path_is_root_render is_root k F :
  kept_shape is_root k F -> render is_root F <> [] ->
  path_is_root (render is_root F) = is_root.
Proof.
  intros Hshape Hne. unfold path_is_root, render in *.
  destruct is_root; [done|]. simpl in *.
  apply bool_decide_eq_false.
  destruct Hshape as (reals & -> & Hreals & _).
  destruct k as [|k].
  - simpl in *. destruct reals as [|e reals]; [done|].
    apply Forall_cons in Hreals as [(He1 & He2 & _) _].
    rewrite join_slash_cons. destruct e as [|c e]; [done|].
    simpl. intros [= ->]. apply He2. by left.
  - change (replicate (S k) DOTDOT ++ reals)
      with (DOTDOT :: (replicate k DOTDOT ++ reals)).
    by rewrite join_slash_cons.
Qed.

Lemma clean_path_render is_root k F :
  kept_shape is_root k F -> render is_root F <> [] ->
  clean_path (render is_root F) = render is_root F.
Proof.
  intros Hshape Hne.
  assert (HF : path_elements (render is_root F) = F).
  { unfold path_elements. rewrite (path_is_root_render _ k) by done.
    replace (if is_root then drop 1 (render is_root F)
             else render is_root F) with (join_slash F)
      by (by destruct is_root).
    by apply (kept_elements_shape _ k). }
  rewrite clean_path_unfold, HF, (path_is_root_render _ k) by done.
  by destruct (decide (render is_root F = [])).
Qed.

(** [clean_path] is idempotent on the paths whose elements have the
    shape the loop maintains. *)
Lemma clean_path_idempotent s k :
  kept_shape (path_is_root s) k (path_elements s) ->
  clean_path (clean_path s) = clean_path s.
Proof.
  intros Hshape. rewrite (clean_path_unfold s).
  destruct (decide (render (path_is_root s) (path_elements s) = []));
    [reflexivity|].
  by apply (clean_path_render _ k).
Qed.

(** *** Applying sanitize_path to its own result *)

Lemma replicate_NUL_S m : replicate (S m) NUL = NUL :: replicate m NUL.
Proof. reflexivity. Qed.

(** On a non-empty input [sanitize_path] returns a terminated string,
    and sanitising that string again returns the same string. *)
Theorem sanitize_path_idempotent_nonempty input n :
  strnlen input MAX_PATH_LEN = Some n -> n <> 0 ->
  exists out p out',
    sanitize_path input = Some out /\ cstring out = Some p /\
    sanitize_path out = Some out' /\ cstring out' = Some p /\
    length p <= n.
Proof.
  intros Hstr Hn0.
  destruct (sanitize_path_spec input n Hstr Hn0)
    as (Hout & Hlen & Hnul & k & Hshape).
  cbv zeta in *. set (p := clean_path (take n input)) in *.
  assert (Hpad : exists m, n + 1 - length p = S m)
    by (exists (n - length p); lia).
  destruct Hpad as [m Hm]. rewrite Hm, replicate_NUL_S in Hout.
  assert (Hmax : n <= MAX_PATH_LEN) by (by eapply strnlen_le_max).
  assert (Hstr2 : strnlen (p ++ NUL :: replicate m NUL) MAX_PATH_LEN
                  = Some (length p))
    by (apply strnlen_terminated; [done|lia]).
  destruct (sanitize_path_spec _ _ Hstr2) as (Hout2 & Hlen2 & _); [lia|].
  cbv zeta in *.
  rewrite take_app_length in Hout2, Hlen2.
  assert (Hpp : clean_path p = p) by (by apply (clean_path_idempotent _ k)).
  rewrite Hpp in Hout2.
  replace (length p + 1 - length p) with 1 in Hout2 by lia.
  eexists _, p, _. split; [exact Hout|].
  split; [by apply cstring_terminated|].
  split; [exact Hout2|].
  split; [by apply cstring_terminated|lia].
Qed.

(** *** The elements of the result *)




(** The function run on sample paths. *)
Example sanitize_path_samples :
  (sanitize_path (cstr "/a/../b/./c//d") ≫= cstring)
    = Some (list_ascii_of_string "/b/c/d") /\
  (sanitize_path (cstr "../../x/y/../..") ≫= cstring)
    = Some (list_ascii_of_string "../..") /\
  (sanitize_path (cstr "/..") ≫= cstring)
    = Some (list_ascii_of_string "/") /\
  (sanitize_path (cstr "a/..") ≫= cstring)
    = Some (list_ascii_of_string ".").
Proof. repeat split; vm_compute; reflexivity. Qed.

(** Idempotence at the sample path ["a/../../b"]. *)
Lemma sanitize_path_idempotent_sample :
  exists out p out',
    sanitize_path (cstr "a/../../b") = Some out /\ cstring out = Some p /\
    sanitize_path out = Some out' /\ cstring out' = Some p /\
    length p <= 9.
Proof.
  apply (sanitize_path_idempotent_nonempty (cstr "a/../../b") 9);
    [vm_compute; reflexivity | lia].
Defined.

(** *** Properties of the result *)

Lemma strnlen_full (p q : list ascii) :
  Forall (fun c => c <> NUL) p ->
  strnlen (p ++ q) (length p) = Some (length p).
Proof.
  induction p as [|c p IH]; intros Hp; simpl; [by destruct q|].
  apply Forall_cons in Hp as [Hc Hp].
  destruct (decide (c = NUL)); [done|]. by rewrite IH.
Qed.

(** [sanitize_path] on a non-empty string of at most [MAX_PATH_LEN] bytes:
    every access stays inside the input and the [n + 1] byte buffer, and
    the buffer returned holds [clean_path] of the input, at least one
    byte and at most as many bytes as the input, followed by NULs only. *)
Theorem sanitize_path_returns_clean_path input n :
  strnlen input MAX_PATH_LEN = Some n -> n <> 0 ->
  let p := clean_path (take n input) in
  sanitize_path input = Some (p ++ replicate (n + 1 - length p) NUL) /\
  cstring (p ++ replicate (n + 1 - length p) NUL) = Some p /\
  0 < length p <= n.
Proof.
  intros Hstr Hn0.
  destruct (sanitize_path_spec input n Hstr Hn0) as (Hout & Hlen & Hnul & _).
  cbv zeta in *. split; [done|]. split; [|done].
  replace (n + 1 - length (clean_path (take n input)))
    with (S (n - length (clean_path (take n input)))) by lia.
  by apply cstring_terminated.
Qed.

Lemma sanitize_path_returns_clean_path_witness :
  let input := cstr "a/./b/../c" in
  let p := clean_path (take 10 input) in
  sanitize_path input = Some (p ++ replicate (10 + 1 - length p) NUL) /\
  cstring (p ++ replicate (10 + 1 - length p) NUL) = Some p /\
  0 < length p <= 10.
Proof.
  apply (sanitize_path_returns_clean_path (cstr "a/./b/../c") 10);
    [vm_compute; reflexivity | lia].
Defined.



(** A path that is already clean is returned unchanged: elements of the
    shape the loop keeps, joined by single slashes. *)
Theorem sanitize_path_clean_input is_root k es :
  kept_shape is_root k es -> render is_root es <> [] ->
  length (render is_root es) <= MAX_PATH_LEN ->
  sanitize_path (render is_root es ++ [NUL])
  = Some (render is_root es ++ [NUL]).
Proof.
  intros Hshape Hne Hlen. set (p := render is_root es) in *.
  assert (Hnul : Forall (fun c => c <> NUL) p)
    by (by eapply kept_shape_no_NUL).
  assert (Hstr : strnlen (p ++ [NUL]) MAX_PATH_LEN = Some (length p))
    by (by apply strnlen_terminated).
  assert (Hp0 : length p <> 0).
  { intros H%length_zero_iff_nil. done. }
  destruct (sanitize_path_spec _ _ Hstr Hp0) as (Hout & _).
  cbv zeta in Hout. rewrite take_app_length in Hout.
  assert (Hpp : clean_path p = p) by (by apply (clean_path_render _ k)).
  rewrite Hpp in Hout.
  by replace (length p + 1 - length p) with 1 in Hout by lia.
Qed.

Lemma real_element_usr : real_element (list_ascii_of_string "usr").
Proof.
  repeat split; try discriminate;
    intros H; repeat (apply elem_of_cons in H as [H|H]; [discriminate|]);
    by apply elem_of_nil in H.
Qed.

Lemma sanitize_path_clean_input_witness :
  sanitize_path (list_ascii_of_string "/usr" ++ [NUL])
  = Some (list_ascii_of_string "/usr" ++ [NUL]).
Proof.
  apply (sanitize_path_clean_input true 0 [list_ascii_of_string "usr"]).
  - exists [list_ascii_of_string "usr"]. split; [reflexivity|].
    split; [|done]. constructor; [apply real_element_usr|constructor].
  - discriminate.
  - vm_compute. lia.
Defined.

(** Only the first [MAX_PATH_LEN] bytes of the input are read: for a
    path of [MAX_PATH_LEN] bytes without a NUL the function returns a
    result whatever follows these bytes, nothing or more of the path. *)
Theorem sanitize_path_reads_prefix (input rest : list ascii) :
  length input = MAX_PATH_LEN -> Forall (fun c => c <> NUL) input ->
  exists out,
    sanitize_path input = Some out /\
    sanitize_path (input ++ rest) = Some out /\
    length out = MAX_PATH_LEN + 1.
Proof.
  intros Hlen Hnul.
  assert (Hstr : forall q, strnlen (input ++ q) MAX_PATH_LEN
                           = Some MAX_PATH_LEN).
  { intros q. rewrite <- Hlen. by apply strnlen_full. }
  assert (Hn0 : MAX_PATH_LEN <> 0) by done.
  destruct (sanitize_path_spec _ _ (Hstr rest) Hn0) as (H1 & _).
  pose proof (Hstr []) as Hstr0. rewrite app_nil_r in Hstr0.
  destruct (sanitize_path_spec _ _ Hstr0 Hn0) as (H0 & Hl0 & _).
  cbv zeta in *.
  assert (Ht1 : take MAX_PATH_LEN (input ++ rest) = input)
    by (rewrite <- Hlen; apply take_app_length).
  assert (Ht0 : take MAX_PATH_LEN input = input)
    by (apply take_ge; lia).
  rewrite Ht1 in H1. rewrite Ht0 in H0, Hl0.
  eexists. split; [exact H0|]. split; [exact H1|].
  rewrite length_app, length_replicate. lia.
Qed.

Lemma sanitize_path_reads_prefix_witness :
  exists out,
    sanitize_path (replicate MAX_PATH_LEN "a"%char) = Some out /\
    sanitize_path (replicate MAX_PATH_LEN "a"%char ++ [SLASH; DOT]) = Some out /\
    length out = MAX_PATH_LEN + 1.
Proof.
  apply (sanitize_path_reads_prefix (replicate MAX_PATH_LEN "a"%char)
           [SLASH; DOT]).
  - apply length_replicate.
  - by apply Forall_replicate.
Defined.

(** *** Sanitising a joined path *)

Lemma split_slash_app_slash s t :
  split_slash (s ++ SLASH :: t) = split_slash s ++ split_slash t.
Proof.
  induction s as [|c s IH]; simpl.
  - by destruct (decide (SLASH = SLASH)).
  - destruct (decide (c = SLASH)); [by rewrite IH|].
    rewrite IH. pose proof (split_slash_not_nil s).
    by destruct (split_slash s).
Qed.

Lemma kept_elements_app_slash is_root s t es :
  kept_elements is_root (s ++ SLASH :: t) es
  = kept_elements is_root t (kept_elements is_root s es).
Proof.
  unfold kept_elements. by rewrite split_slash_app_slash, fold_left_app.
Qed.

Lemma path_elements_render is_root k F :
  kept_shape is_root k F -> render is_root F <> [] ->
  path_elements (render is_root F) = F.
Proof.
  intros Hshape Hne.
  unfold path_elements. rewrite (path_is_root_render _ k) by done.
  replace (if is_root then drop 1 (render is_root F)
           else render is_root F) with (join_slash F)
    by (by destruct is_root).
  by apply (kept_elements_shape _ k).
Qed.

(** The elements of [x/t], for a non-empty [x]. *)
Lemma path_elements_app_slash x t :
  x <> [] ->
  path_is_root (x ++ SLASH :: t) = path_is_root x /\
  path_elements (x ++ SLASH :: t)
  = kept_elements (path_is_root x) t (path_elements x).
Proof.
  intros Hx. destruct x as [|c x]; [done|].
  assert (Hr : path_is_root ((c :: x) ++ SLASH :: t) = path_is_root (c :: x))
    by done.
  split; [done|]. unfold path_elements. rewrite Hr.
  destruct (path_is_root (c :: x)).
  - simpl. rewrite drop_0. apply kept_elements_app_slash.
  - apply kept_elements_app_slash.
Qed.

Lemma clean_path_app_slash s t k :
  s <> [] -> kept_shape (path_is_root s) k (path_elements s) ->
  clean_path (clean_path s ++ SLASH :: t) = clean_path (s ++ SLASH :: t).
Proof.
  intros Hs Hshape.
  destruct (path_elements_app_slash s t Hs) as [Hr He].
  rewrite (clean_path_unfold (s ++ _)), Hr, He.
  rewrite (clean_path_unfold s).
  destruct (decide (render (path_is_root s) (path_elements s) = []))
    as [Hnil|Hne].
  - destruct (render_nil_inv _ _ _ Hshape Hnil) as [Hroot HF].
    assert (Hd : [DOT] <> []) by done.
    destruct (path_elements_app_slash [DOT] t Hd) as [Hr' He'].
    rewrite clean_path_unfold, Hr', He', Hroot, HF.
    change (path_is_root [DOT]) with false.
    change (path_elements [DOT]) with (@nil (list ascii)).
    reflexivity.
  - destruct (path_elements_app_slash _ t Hne) as [Hr' He'].
    rewrite clean_path_unfold, Hr', He'.
    rewrite (path_is_root_render _ k), (path_elements_render _ k) by done.
    reflexivity.
Qed.

(** Sanitising [s/t] gives the same path as sanitising [d/t], where [d]
    is the result of sanitising the directory part [s] first. *)
Theorem sanitize_path_join (s t d : list ascii) :
  s <> [] ->
  Forall (fun c => c <> NUL) s -> Forall (fun c => c <> NUL) t ->
  length (s ++ SLASH :: t) <= MAX_PATH_LEN ->
  sanitize_path (s ++ [NUL]) ≫= cstring = Some d ->
  exists p,
    sanitize_path ((s ++ SLASH :: t) ++ [NUL]) ≫= cstring = Some p /\
    sanitize_path ((d ++ SLASH :: t) ++ [NUL]) ≫= cstring = Some p.
Proof.
  intros Hs Hnul_s Hnul_t Hlen Hd.
  rewrite length_app in Hlen. simpl in Hlen.
  assert (Hs0 : length s <> 0) by (by intros H%length_zero_iff_nil).
  (* the directory part *)
  assert (Hstr_s : strnlen (s ++ [NUL]) MAX_PATH_LEN = Some (length s))
    by (apply strnlen_terminated; [done|lia]).
  destruct (sanitize_path_spec _ _ Hstr_s Hs0)
    as (Hout_s & Hlen_s & Hnul_d & k & Hshape).
  cbv zeta in *. rewrite take_app_length in *.
  rewrite Hout_s in Hd. cbn [mbind option_bind] in Hd.
  replace (length s + 1 - length (clean_path s))
    with (S (length s - length (clean_path s))) in Hd by lia.
  rewrite replicate_NUL_S, cstring_terminated in Hd by done. injection Hd as <-.
  (* the two joined paths *)
  assert (Hjoin : forall x, Forall (fun c => c <> NUL) x ->
            0 < length x <= length s ->
            sanitize_path ((x ++ SLASH :: t) ++ [NUL]) ≫= cstring
            = Some (clean_path (x ++ SLASH :: t))).
  { intros x Hnul_x Hlx.
    assert (Hnul_j : Forall (fun c => c <> NUL) (x ++ SLASH :: t)).
    { apply Forall_app. split; [done|]. by constructor. }
    assert (Hlen_j : length (x ++ SLASH :: t) <= MAX_PATH_LEN)
      by (rewrite length_app; simpl; lia).
    assert (Hstr : strnlen ((x ++ SLASH :: t) ++ [NUL]) MAX_PATH_LEN
                   = Some (length (x ++ SLASH :: t)))
      by (by apply strnlen_terminated).
    destruct (sanitize_path_spec _ _ Hstr) as (Hout & Hl & Hn & _).
    { rewrite length_app. simpl. lia. }
    cbv zeta in *. rewrite take_app_length in *.
    rewrite Hout. cbn [mbind option_bind].
    match goal with |- cstring (_ ++ replicate ?m NUL) = _ =>
      replace m with (S (m - 1)) by lia end.
    rewrite replicate_NUL_S. by apply cstring_terminated. }
  exists (clean_path (s ++ SLASH :: t)). split.
  - apply Hjoin; [done|lia].
  - rewrite Hjoin by (try done; lia).
    f_equal. by apply (clean_path_app_slash _ _ k).
Qed.

Lemma sanitize_path_join_witness :
  exists p,
    sanitize_path ((list_ascii_of_string "a/../b/"
                    ++ SLASH :: list_ascii_of_string "../c") ++ [NUL])
      ≫= cstring = Some p /\
    sanitize_path ((list_ascii_of_string "b"
                    ++ SLASH :: list_ascii_of_string "../c") ++ [NUL])
      ≫= cstring = Some p.
Proof.
  apply (sanitize_path_join (list_ascii_of_string "a/../b/")
           (list_ascii_of_string "../c") (list_ascii_of_string "b")).
  - discriminate.
  - repeat constructor; discriminate.
  - repeat constructor; discriminate.
  - vm_compute. lia.
  - vm_compute. reflexivity.
Defined.


End SanitizeFacts.

(** C10 (failing input): for the empty string [sanitize_path] returns a
    one-byte buffer holding ['.'] and no terminating NUL, so the result
    is not a C string and applying [sanitize_path] to it reads past the
    end of the buffer.  Every non-empty input is covered by
    [sanitize_path_idempotent_nonempty] above. *)
Theorem sanitize_path_empty_unterminated :
  sanitize_path (cstr "") = Some [DOT] /\
  cstring [DOT] = None /\
  strnlen [DOT] MAX_PATH_LEN = None /\
  sanitize_path [DOT] = None.
Proof. repeat split; reflexivity. Qed.

(** * Further properties of the templates and the utilities *)

(** ** The integer templates as arithmetic *)

Section IntegerFacts.
Context {M : Type}.
Implicit Types (rv : riscv M) (ir : rv_insn).

Lemma reg_after_straight_ext len f rv p ir cycle pc r :
  reg_after (RVOP_len len (straight f) rv p ir cycle pc) r
  = Some (X (f rv ir) r).
Proof. unfold RVOP_len, straight. apply reg_after_nextop. Qed.

Lemma reg_after_straight op f rv p ir cycle pc r :
  reg_after (RVOP op (straight f) rv p ir cycle pc) r
  = Some (X (f rv ir) r).
Proof. unfold RVOP, straight. apply reg_after_nextop. Qed.

Lemma i32_mod z : i32 z mod 2 ^ 32 = z mod 2 ^ 32.
Proof. apply u32_i32. Qed.

Lemma land_0x1f_mod z : Z.land z 0x1f = z mod 32.
Proof. change 0x1f with (Z.ones 5). by rewrite Z.land_ones. Qed.

(** ADD, SUB and MUL, and ADDI, write the sum, difference and product
    modulo 2^32; the signed casts of the templates do not show. *)
Theorem add_sub_mul_modular rv (p : nat) ir (cycle pc : Z) :
  let a := X rv (rs1 ir) in
  let b := X rv (rs2 ir) in
  let result op := reg_after (impl_ext op rv p ir cycle pc) (rd ir) in
  result rv_insn_add = Some ((a + b) mod 2 ^ 32) /\
  result rv_insn_sub = Some ((a - b) mod 2 ^ 32) /\
  result rv_insn_mul = Some ((a * b) mod 2 ^ 32) /\
  reg_after (impl rv_insn_addi rv p ir cycle pc) (rd ir)
  = Some ((a + imm ir) mod 2 ^ 32).
Proof.
  intros a b result. unfold result, impl_ext, impl.
  rewrite !reg_after_straight_ext, reg_after_straight.
  unfold op_add, op_sub, op_mul, op_addi. rewrite !X_set_X_eq. fold a b.
  unfold u32. repeat split; f_equal.
  - by rewrite Z.add_mod, !i32_mod, <- Z.add_mod by lia.
  - by rewrite Zminus_mod, !i32_mod, <- Zminus_mod.
  - by rewrite Z.mul_mod, !i32_mod, <- Z.mul_mod by lia.
  - by rewrite Z.add_mod, i32_mod, <- Z.add_mod by lia.
Qed.

(** The shifts by a register, as arithmetic on the 32-bit operand with
    the shift amount [X[rs2] mod 32]: SLL multiplies by a power of two
    modulo 2^32, SRL divides, SRA divides the signed value rounding
    down. *)
Theorem register_shifts rv (p : nat) ir (cycle pc : Z) :
  let a := X rv (rs1 ir) in
  let sh := X rv (rs2 ir) mod 32 in
  let result op := reg_after (impl_ext op rv p ir cycle pc) (rd ir) in
  is_u32 a ->
  result rv_insn_sll = Some ((a * 2 ^ sh) mod 2 ^ 32) /\
  result rv_insn_srl = Some (a / 2 ^ sh) /\
  exists v, result rv_insn_sra = Some v /\ is_u32 v /\
            i32 v = i32 a / 2 ^ sh.
Proof.
  intros a sh result Ha. unfold result, impl_ext.
  rewrite !reg_after_straight_ext.
  unfold op_sll, op_srl, op_sra. rewrite !X_set_X_eq. fold a.
  rewrite !land_0x1f_mod. fold sh.
  assert (Hsh : 0 <= sh < 32) by (apply Z.mod_pos_bound; lia).
  rewrite Z.shiftl_mul_pow2, !Z.shiftr_div_pow2 by lia.
  split; [done|]. split; [done|].
  eexists. split; [reflexivity|]. split; [apply u32_range|].
  rewrite i32_u32. apply i32_id.
  pose proof (i32_range a) as Hr.
  assert (0 < 2 ^ sh) by (apply Z.pow_pos_nonneg; lia).
  split.
  - apply Z.div_le_lower_bound; [lia|]. nia.
  - apply Z.div_lt_upper_bound; [lia|]. nia.
Qed.

End IntegerFacts.

Lemma register_shifts_witness :
  let rv := regs_machine 0x80000010 4 in
  let ir := operands 3 1 2 0 in
  let result op := reg_after (impl_ext op rv 0 ir 0 0) 3 in
  is_u32 0x80000010 /\
  result rv_insn_sll = Some ((0x80000010 * 2 ^ (4 mod 32)) mod 2 ^ 32) /\
  result rv_insn_srl = Some (0x80000010 / 2 ^ (4 mod 32)) /\
  exists v, result rv_insn_sra = Some v /\ is_u32 v /\
            i32 v = i32 0x80000010 / 2 ^ (4 mod 32).
Proof.
  assert (Ha : is_u32 0x80000010) by (vm_compute; split; [discriminate|reflexivity]).
  split; [exact Ha|].
  exact (register_shifts (regs_machine 0x80000010 4) 0
           (operands 3 1 2 0) 0 0 Ha).
Defined.

Lemma lxor_all_ones a : is_u32 a -> Z.lxor a 0xFFFFFFFF = 0xFFFFFFFF - a.
Proof.
  intros Ha. unfold is_u32 in Ha.
  change 0xFFFFFFFF with (Z.ones 32).
  assert (Hdisj : Z.land a (Z.lxor a (Z.ones 32)) = 0).
  { apply Z.bits_inj'. intros n Hn.
    rewrite Z.land_spec, Z.lxor_spec, Z.bits_0.
    destruct (Z_lt_ge_dec n 32).
    - rewrite Z.ones_spec_low by lia. by destruct (Z.testbit a n).
    - rewrite <- (Z.mod_small a (2 ^ 32)) by lia.
      by rewrite Z.mod_pow2_bits_high by lia. }
  apply Z.add_nocarry_lxor in Hdisj.
  rewrite <- Z.lxor_assoc, Z.lxor_nilpotent, Z.lxor_0_l in Hdisj. lia.
Qed.

Section PseudoFacts.
Context {M : Type}.
Implicit Types (rv : riscv M) (ir : rv_insn).

Local Ltac sign_cases a Ha :=
  let E := fresh "E" in
  destruct (i32_cases a Ha) as [[? E]|[? E]]; rewrite ?E in *.

(** The assembler pseudo-instructions built on these templates compute
    what their names say, for a source register holding [a] and x0
    holding 0: MV is [addi rd, rs, 0], NOT is [xori rd, rs, -1], NEG is
    [sub rd, x0, rs], SEQZ is [sltiu rd, rs, 1], SNEZ is
    [sltu rd, x0, rs], SLTZ is [slt rd, rs, x0] and SGTZ is
    [slt rd, x0, rs]. *)
Theorem pseudo_instructions rv (p : nat) (d s : nat) (cycle pc : Z) :
  let a := X rv s in
  let run op ir := reg_after (impl_ext op rv p ir cycle pc) d in
  is_u32 a -> X rv 0%nat = 0 ->
  reg_after (impl rv_insn_addi rv p (operands d s 0 0) cycle pc) d = Some a /\
  run rv_insn_xori (operands d s 0 (-1)) = Some (0xFFFFFFFF - a) /\
  run rv_insn_sub (operands d 0 s 0) = Some ((- a) mod 2 ^ 32) /\
  run rv_insn_sltiu (operands d s 0 1) = Some (if a =? 0 then 1 else 0) /\
  run rv_insn_sltu (operands d 0 s 0) = Some (if a =? 0 then 0 else 1) /\
  run rv_insn_slt (operands d s 0 0)
  = Some (if 2 ^ 31 <=? a then 1 else 0) /\
  run rv_insn_slt (operands d 0 s 0)
  = Some (if (0 <? a) && (a <? 2 ^ 31) then 1 else 0).
Proof.
  intros a run Ha H0. unfold run, impl_ext, impl.
  rewrite !reg_after_straight_ext, reg_after_straight.
  unfold op_addi, op_xori, op_sub, op_sltiu, op_sltu, op_slt.
  rewrite !X_set_X_eq. unfold operands, mk_ir. cbn [rs1 rs2 imm].
  rewrite H0. fold a.
  change (i32 0) with 0. change (u32 1) with 1.
  change (u32 (-1)) with 0xFFFFFFFF.
  rewrite (lxor_all_ones a Ha).
  pose proof (i32_range a) as Hr. unfold is_u32 in Ha.
  repeat split; f_equal.
  - rewrite Z.add_0_r, u32_i32. by apply u32_id.
  - unfold u32. by rewrite <- Zminus_mod_idemp_r, i32_mod,
      Zminus_mod_idemp_r, Z.sub_0_l.
  - destruct (Z.eqb_spec a 0), (Z.ltb_spec a 1); lia.
  - destruct (Z.eqb_spec a 0), (Z.ltb_spec 0 a); lia.
  - sign_cases a Ha; destruct (Z.leb_spec (2 ^ 31) a);
      match goal with |- context [?x <? 0] => destruct (Z.ltb_spec x 0) end;
      lia.
  - sign_cases a Ha;
      repeat match goal with
             | |- context [?x <? ?y] => destruct (Z.ltb_spec x y)
             end; cbn [andb]; lia.
Qed.

End PseudoFacts.

Lemma pseudo_instructions_witness :
  let rv := regs_machine 7 0 in
  let run op ir := reg_after (impl_ext op rv 0 ir 0 0) 3 in
  is_u32 7 /\
  reg_after (impl rv_insn_addi rv 0 (operands 3 1 0 0) 0 0) 3 = Some 7 /\
  run rv_insn_xori (operands 3 1 0 (-1)) = Some (0xFFFFFFFF - 7) /\
  run rv_insn_sub (operands 3 0 1 0) = Some ((- 7) mod 2 ^ 32) /\
  run rv_insn_sltiu (operands 3 1 0 1) = Some (if 7 =? 0 then 1 else 0) /\
  run rv_insn_sltu (operands 3 0 1 0) = Some (if 7 =? 0 then 0 else 1) /\
  run rv_insn_slt (operands 3 1 0 0)
  = Some (if 2 ^ 31 <=? 7 then 1 else 0) /\
  run rv_insn_slt (operands 3 0 1 0)
  = Some (if (0 <? 7) && (7 <? 2 ^ 31) then 1 else 0).
Proof.
  assert (Ha : is_u32 7) by (vm_compute; split; [discriminate|reflexivity]).
  split; [exact Ha|].
  exact (pseudo_instructions (regs_machine 7 0) 0 3 1 0 0 Ha eq_refl).
Defined.

Section MulDivFacts.
Context {M : Type}.
Implicit Types (rv : riscv M) (ir : rv_insn).

Local Ltac sign_cases a Ha :=
  let E := fresh "E" in
  destruct (i32_cases a Ha) as [[? E]|[? E]]; rewrite ?E in *.

(** MUL gives the low word of the products whose high words MULHU and
    MULH give: high and low word together are the full unsigned product,
    and, the high word read as signed, the full signed product. *)
Theorem mul_with_high_word rv (p : nat) ir (cycle pc : Z) :
  let a := X rv (rs1 ir) in
  let b := X rv (rs2 ir) in
  is_u32 a -> is_u32 b ->
  exists lo hu hs,
    reg_after (impl_ext rv_insn_mul rv p ir cycle pc) (rd ir) = Some lo /\
    reg_after (impl rv_insn_mulhu rv p ir cycle pc) (rd ir) = Some hu /\
    reg_after (impl rv_insn_mulh rv p ir cycle pc) (rd ir) = Some hs /\
    hu * 2 ^ 32 + lo = a * b /\
    i32 hs * 2 ^ 32 + lo = i32 a * i32 b.
Proof.
  intros a b Ha Hb. unfold impl_ext, impl.
  rewrite reg_after_straight_ext, !reg_after_straight.
  unfold op_mul, op_mulhu, op_mulh. rewrite !X_set_X_eq. fold a b.
  rewrite mulh_value, mulhu_value by assumption.
  do 3 eexists. split; [reflexivity|]. split; [reflexivity|].
  split; [reflexivity|].
  assert (Hlo : u32 (i32 a * i32 b) = (a * b) mod 2 ^ 32).
  { unfold u32. by rewrite Z.mul_mod, !i32_mod, <- Z.mul_mod by lia. }
  split.
  - rewrite Hlo. unfold is_u32 in *.
    rewrite (Z.mod_small (a * b)) by nia.
    pose proof (Z.div_mod (a * b) (2 ^ 32)). lia.
  - pose proof (i32_range a) as Hra. pose proof (i32_range b) as Hrb.
    set (P := i32 a * i32 b) in *.
    assert (HP : - 2 ^ 62 <= P <= 2 ^ 62) by (unfold P; nia).
    assert (Hh : is_u32 (P mod 2 ^ 64 / 2 ^ 32)) by apply high_word_u32.
    unfold u32. clearbody P. clear Hlo.
    sign_cases (P mod 2 ^ 64 / 2 ^ 32) Hh; unfold is_u32 in *;
      Z.to_euclidean_division_equations; lia.
Qed.

(** Quotient and remainder fit together: for DIVU and REMU
    [b * q + r = a] for every divisor, zero included, with [r < b] when
    [b] is not zero; for DIV and REM the same holds of the signed
    values, modulo 2^32 in the one overflow case, and the remainder is
    smaller than the divisor in absolute value and has the sign of the
    dividend. *)
Theorem div_rem_reconstruct rv (p : nat) ir (cycle pc : Z) :
  let a := X rv (rs1 ir) in
  let b := X rv (rs2 ir) in
  let result op := reg_after (impl op rv p ir cycle pc) (rd ir) in
  is_u32 a -> is_u32 b ->
  exists q r qu ru,
    result rv_insn_div = Some q /\ result rv_insn_rem = Some r /\
    result rv_insn_divu = Some qu /\ result rv_insn_remu = Some ru /\
    b * qu + ru = a /\ (b <> 0 -> 0 <= ru < b) /\
    (i32 b * i32 q + i32 r) mod 2 ^ 32 = a /\
    (~ (a = 0x80000000 /\ b = 0xFFFFFFFF) ->
     i32 b * i32 q + i32 r = i32 a) /\
    (b <> 0 -> Z.abs (i32 r) < Z.abs (i32 b) /\ 0 <= i32 r * i32 a).
Proof.
  intros a b result Ha Hb. unfold result, impl.
  rewrite !reg_after_straight.
  unfold op_div, op_rem, op_divu, op_remu. rewrite !X_set_X_eq. fold a b.
  clearbody a b. clear result.
  pose proof (div_value a b Ha Hb) as Hd.
  pose proof (rem_value a b Ha Hb) as Hm.
  pose proof (divu_value a b Ha Hb) as Hdu.
  pose proof (remu_value a b Ha Hb) as Hmu.
  cbv zeta in *.
  do 4 eexists. split; [reflexivity|]. split; [reflexivity|].
  split; [reflexivity|]. split; [reflexivity|].
  destruct Hd as (Hq & Hq0 & Hqo & Hqv).
  destruct Hm as (Hr & Hr0 & Hro & Hrv).
  destruct Hdu as (Hqu & Hqu0 & Hquv).
  destruct Hmu as (Hru & Hru0 & Hruv).
  revert Hq Hq0 Hqo Hqv Hr Hr0 Hro Hrv Hqu Hqu0 Hquv Hru Hru0 Hruv.
  generalize (if i32 b =? 0 then ALL_ONES
              else if (i32 b =? -1) && (a =? 0x80000000) then a
                   else u32 (i32 a ÷ i32 b)) as q.
  generalize (u32 (if i32 b =? 0 then i32 a
                   else if (i32 b =? -1) && (a =? 0x80000000) then 0
                        else Z.rem (i32 a) (i32 b))) as r.
  generalize (if b =? 0 then ALL_ONES else a ÷ b) as qu.
  generalize (if b =? 0 then a else Z.rem a b) as ru.
  intros ru qu r q Hq Hq0 Hqo Hqv Hr Hr0 Hro Hrv Hqu Hqu0 Hquv Hru Hru0 Hruv.
  assert (Hb0 : i32 b = 0 <-> b = 0).
  { sign_cases b Hb; unfold is_u32 in *; lia. }
  destruct (decide (b = 0)) as [Hz|Hnz].
  - rewrite Hq0, Hr0, Hqu0, Hru0 by done. subst b.
    change (i32 0) with 0.
    split; [lia|]. split; [done|].
    split; [rewrite Z.mul_0_l, Z.add_0_l, i32_mod; exact (u32_id a Ha)|].
    split; [lia|done].
  - rewrite Hquv, Hruv by done. unfold is_u32 in Ha, Hb.
    split; [pose proof (Z.div_mod a b Hnz); lia|].
    split; [intros _; apply Z.mod_pos_bound; lia|].
    assert (Hi : i32 b <> 0) by tauto.
    pose proof (Z.quot_rem' (i32 a) (i32 b)) as Hqr.
    pose proof (Z.rem_bound_abs (i32 a) (i32 b) Hi) as Habs.
    pose proof (Z.rem_sign_mul (i32 a) (i32 b) Hi) as Hsign.
    rewrite Hrv by done.
    destruct (decide (a = 0x80000000 /\ b = 0xFFFFFFFF)) as [[Ea Eb]|Hno].
    + rewrite (Hqo Ea Eb), Ea, Eb. vm_compute. repeat split; try done.
      intros H. by destruct H.
    + rewrite (Hqv Hnz Hno).
      split; [rewrite <- Hqr, i32_mod; apply Z.mod_small; lia|].
      split; [intros _; lia|]. intros _. split; [lia|done].
Qed.

(** LUI followed by ADDI loads any 32-bit constant [c]: with [lo] the
    low 12 bits of [c] read as signed and [hi] the rest, [lui rd, hi]
    and then [addi rd, rd, lo] leave [c] in [rd]. *)
Theorem lui_addi_loads_constant rv (p d : nat) (c cycle pc : Z) :
  is_u32 c ->
  exists hi lo,
    -2048 <= lo < 2048 /\ hi mod 4096 = 0 /\ - 2 ^ 31 <= hi < 2 ^ 31 /\
    exists rv1,
      outcome_rv (impl rv_insn_lui rv p (operands d 0 0 hi) cycle pc)
      = Some rv1 /\
      forall p' cycle' pc',
        reg_after (impl rv_insn_addi rv1 p' (operands d d 0 lo) cycle' pc') d
        = Some c.
Proof.
  intros Hc.
  set (lo := (c + 2048) mod 4096 - 2048).
  set (hi := i32 (c - lo)).
  assert (Hlo : -2048 <= lo < 2048).
  { unfold lo. pose proof (Z.mod_pos_bound (c + 2048) 4096). lia. }
  exists hi, lo. split; [done|]. split; [|split; [apply i32_range|]].
  - unfold hi, i32, lo.
    Z.to_euclidean_division_equations; lia.
  - eexists. split.
    + unfold impl, RVOP, straight, nextop, operands, mk_ir. cbn [next].
      reflexivity.
    + intros p' cycle' pc'. unfold impl. rewrite reg_after_straight.
      unfold op_addi. rewrite X_set_X_eq.
      unfold operands, mk_ir. cbn [rs1 rd imm].
      unfold end_insn, set_PC, set_csr_cycle, op_lui. cbn [X].
      cbn [rd imm]. unfold set_X. cbn [X]. rewrite fn_lookup_insert.
      rewrite i32_u32. f_equal. unfold hi.
      unfold u32. rewrite Z.add_mod, !i32_mod, <- Z.add_mod by lia.
      replace (c - lo + lo) with c by lia. exact (u32_id c Hc).
Qed.

End MulDivFacts.

Lemma mul_with_high_word_witness :
  is_u32 0xFFFFFFFF /\ is_u32 3 /\
  exists lo hu hs,
    reg_after (impl_ext rv_insn_mul (regs_machine 0xFFFFFFFF 3) 0
                 (operands 3 1 2 0) 0 0) 3 = Some lo /\
    reg_after (impl rv_insn_mulhu (regs_machine 0xFFFFFFFF 3) 0
                 (operands 3 1 2 0) 0 0) 3 = Some hu /\
    reg_after (impl rv_insn_mulh (regs_machine 0xFFFFFFFF 3) 0
                 (operands 3 1 2 0) 0 0) 3 = Some hs /\
    hu * 2 ^ 32 + lo = 0xFFFFFFFF * 3 /\
    i32 hs * 2 ^ 32 + lo = i32 0xFFFFFFFF * i32 3.
Proof.
  assert (Ha : is_u32 0xFFFFFFFF) by (vm_compute; split; [discriminate|reflexivity]).
  assert (Hb : is_u32 3) by (vm_compute; split; [discriminate|reflexivity]).
  split; [exact Ha|]. split; [exact Hb|].
  exact (mul_with_high_word (regs_machine 0xFFFFFFFF 3) 0
           (operands 3 1 2 0) 0 0 Ha Hb).
Defined.

Lemma div_rem_reconstruct_witness :
  let result op :=
    reg_after (impl op (regs_machine 0xFFFFFFF9 2) 0 (operands 3 1 2 0) 0 0)
      3 in
  is_u32 0xFFFFFFF9 /\ is_u32 2 /\
  exists q r qu ru,
    result rv_insn_div = Some q /\ result rv_insn_rem = Some r /\
    result rv_insn_divu = Some qu /\ result rv_insn_remu = Some ru /\
    2 * qu + ru = 0xFFFFFFF9 /\ (2 <> 0 -> 0 <= ru < 2) /\
    (i32 2 * i32 q + i32 r) mod 2 ^ 32 = 0xFFFFFFF9 /\
    (~ (0xFFFFFFF9 = 0x80000000 /\ 2 = 0xFFFFFFFF) ->
     i32 2 * i32 q + i32 r = i32 0xFFFFFFF9) /\
    (2 <> 0 -> Z.abs (i32 r) < Z.abs (i32 2) /\ 0 <= i32 r * i32 0xFFFFFFF9).
Proof.
  assert (Ha : is_u32 0xFFFFFFF9) by (vm_compute; split; [discriminate|reflexivity]).
  assert (Hb : is_u32 2) by (vm_compute; split; [discriminate|reflexivity]).
  split; [exact Ha|]. split; [exact Hb|].
  exact (div_rem_reconstruct (regs_machine 0xFFFFFFF9 2) 0
           (operands 3 1 2 0) 0 0 Ha Hb).
Defined.

Lemma lui_addi_loads_constant_witness :
  is_u32 0xDEADBEEF /\
  exists hi lo,
    -2048 <= lo < 2048 /\ hi mod 4096 = 0 /\ - 2 ^ 31 <= hi < 2 ^ 31 /\
    exists rv1,
      outcome_rv (impl rv_insn_lui (machine0 ∅ ∅ 0) 0 (operands 5 0 0 hi) 0 0)
      = Some rv1 /\
      forall p' cycle' pc',
        reg_after (impl rv_insn_addi rv1 p' (operands 5 5 0 lo) cycle' pc') 5
        = Some 0xDEADBEEF.
Proof.
  assert (Hc : is_u32 0xDEADBEEF) by (vm_compute; split; [discriminate|reflexivity]).
  split; [exact Hc|].
  exact (lui_addi_loads_constant (machine0 ∅ ∅ 0) 0 5 0xDEADBEEF 0 0 Hc).
Defined.

(** ** The compressed templates and their expansions *)

Section CompressedFacts.
Context {M : Type}.
Implicit Types (rv : riscv M) (ir : rv_insn).

Lemma same_effects_nextop len1 len2 rv1 rv2 ir1 ir2 cycle1 cycle2 pc1 pc2 :
  X rv1 = X rv2 -> mem rv1 = mem rv2 -> io_log rv1 = io_log rv2 ->
  misalign rv1 = misalign rv2 ->
  same_effects (nextop len1 rv1 ir1 cycle1 pc1)
               (nextop len2 rv2 ir2 cycle2 pc2).
Proof.
  intros HX Hm Hl Hx. unfold same_effects, nextop, end_insn, reg_after.
  destruct (next ir1), (next ir2); cbn; rewrite ?HX, ?Hm, ?Hl, ?Hx; done.
Qed.

Lemma same_effects_set_X len1 len2 r v1 v2 rv ir1 ir2 cycle pc :
  v1 = v2 ->
  same_effects (nextop len1 (set_X r v1 rv) ir1 cycle pc)
               (nextop len2 (set_X r v2 rv) ir2 cycle pc).
Proof. intros ->. by apply same_effects_nextop. Qed.

(** The compressed integer templates act as the 32-bit instructions the
    comments of the source expand them to; only the PC advances by 2.
    x0 is taken to hold 0, and each immediate to lie in the range of the
    C type it is cast to. *)
Theorem compressed_alu_as_expansions rv (p : nat) ir (cycle pc : Z) :
  let c op := impl_ext op rv p ir cycle pc in
  let base op rd rs1 rs2 imm :=
    impl op rv p (expand_to op rd rs1 rs2 imm ir) cycle pc in
  X rv 0%nat = 0 -> is_u32 (X rv (rs2 ir)) ->
  (0 <= imm ir < 2 ^ 16 ->
   same_effects (c rv_insn_caddi4spn)
     (base rv_insn_addi (rd ir) rv_reg_sp 0%nat (imm ir))) /\
  (- 2 ^ 15 <= imm ir < 2 ^ 15 ->
   same_effects (c rv_insn_caddi)
     (base rv_insn_addi (rd ir) (rd ir) 0%nat (imm ir))) /\
  same_effects (impl rv_insn_cli rv p ir cycle pc)
    (base rv_insn_addi (rd ir) 0%nat 0%nat (imm ir)) /\
  same_effects (c rv_insn_caddi16sp)
    (base rv_insn_addi (rd ir) (rd ir) 0%nat (imm ir)) /\
  same_effects (c rv_insn_clui)
    (base rv_insn_lui (rd ir) 0%nat 0%nat (imm ir)) /\
  (0 <= shamt ir <= 31 ->
   same_effects (impl rv_insn_csrli rv p ir cycle pc)
     (base rv_insn_srli (rs1 ir) (rs1 ir) 0%nat (shamt ir))) /\
  (0 <= imm ir <= 31 ->
   same_effects (c rv_insn_cslli)
     (base rv_insn_slli (rd ir) (rd ir) 0%nat (imm ir))) /\
  same_effects (c rv_insn_candi)
    (impl_ext rv_insn_andi rv p
       (expand_ext (rs1 ir) (rs1 ir) 0%nat (imm ir) ir) cycle pc) /\
  same_effects (c rv_insn_csub) (c rv_insn_sub) /\
  same_effects (c rv_insn_cxor) (c rv_insn_xor) /\
  same_effects (c rv_insn_cor) (c rv_insn_or) /\
  same_effects (c rv_insn_cand) (c rv_insn_and) /\
  same_effects (c rv_insn_cadd) (c rv_insn_add) /\
  same_effects (c rv_insn_cmv)
    (impl_ext rv_insn_add rv p
       (expand_ext (rd ir) 0%nat (rs2 ir) 0 ir) cycle pc) /\
  (forall r, reg_after (c rv_insn_cnop) r = Some (X rv r)) /\
  forall op,
    op ∈ [rv_insn_caddi4spn; rv_insn_cnop; rv_insn_caddi; rv_insn_caddi16sp;
          rv_insn_clui; rv_insn_candi; rv_insn_csub; rv_insn_cxor;
          rv_insn_cor; rv_insn_cand; rv_insn_cmv; rv_insn_cadd] ->
    outcome_pc (c op) = Some (u32 (pc + 2)).
Proof.
  intros c base H0 H2. unfold c, base, impl_ext, impl, RVOP_len, RVOP, straight.
  clear c base. unfold expand_ext, expand_to. cbn [insn_len insn_len_ext].
  assert (Hmod : forall x y, u32 (i32 x + y) = u32 (x + y)).
  { intros x y. unfold u32.
    by rewrite Z.add_mod, i32_mod, <- Z.add_mod by lia. }
  assert (Hmod2 : forall x y, u32 (i32 x - i32 y) = u32 (x - y)).
  { intros x y. unfold u32. by rewrite Zminus_mod, !i32_mod, <- Zminus_mod. }
  assert (Hmod3 : forall x y, u32 (i32 x + i32 y) = u32 (x + y)).
  { intros x y. unfold u32.
    by rewrite Z.add_mod, !i32_mod, <- Z.add_mod by lia. }
  repeat match goal with |- _ /\ _ => split end.
  - intros Hi. apply same_effects_set_X. cbn [rs1 imm rd].
    rewrite Hmod. unfold u16. by rewrite (Z.mod_small (imm ir)) by lia.
  - intros Hi. apply same_effects_set_X. cbn [rs1 imm rd].
    rewrite Hmod. f_equal. f_equal. unfold i16.
    rewrite Z.mod_small by lia. lia.
  - apply same_effects_set_X. cbn [rs1 imm rd]. rewrite H0.
    change (i32 0) with 0. by rewrite Z.add_0_l.
  - apply same_effects_set_X. cbn [rs1 imm rd]. by rewrite Hmod.
  - by apply same_effects_set_X.
  - intros Hs. unfold op_shift, shift_func. cbn [opcode rd rs1 imm].
    apply same_effects_set_X. by rewrite land_0x1f.
  - intros Hi. unfold op_cslli, op_shift, shift_func.
    cbn [opcode rd rs1 imm].
    assert (Hu : u8 (imm ir) = imm ir) by (apply Z.mod_small; lia).
    rewrite Hu. destruct (Z.ltb_spec (imm ir) 32); [|lia].
    apply same_effects_set_X. by rewrite land_0x1f.
  - by apply same_effects_set_X.
  - apply same_effects_set_X. by rewrite Hmod2.
  - by apply same_effects_set_X.
  - by apply same_effects_set_X.
  - by apply same_effects_set_X.
  - apply same_effects_set_X. by rewrite Hmod3.
  - apply same_effects_set_X. cbn [rs1 rs2 rd]. rewrite H0.
    change (i32 0) with 0. rewrite Z.add_0_l, u32_i32. by rewrite u32_id.
  - intros r. apply reg_after_nextop.
  - intros op Hop.
    repeat (apply elem_of_cons in Hop as [->|Hop]);
      try (by apply elem_of_nil in Hop);
      unfold nextop; by destruct (next ir).
Qed.

(** The compressed loads and stores act as the LW and SW they expand
    to, the stack-pointer forms with [sp] as base; when they raise, the
    machine is marked as running a compressed instruction. *)
Theorem compressed_memory_as_expansions rv (p : nat) ir (cycle pc : Z) :
  let c op := impl op rv p ir cycle pc in
  let on_sp op :=
    impl op rv p (expand_to op (rd ir) rv_reg_sp (rs2 ir) (imm ir) ir)
      cycle pc in
  same_effects (c rv_insn_clw) (c rv_insn_lw) /\
  same_effects (c rv_insn_csw) (c rv_insn_sw) /\
  same_effects (c rv_insn_clwsp) (on_sp rv_insn_lw) /\
  same_effects (c rv_insn_cswsp) (on_sp rv_insn_sw) /\
  forall op k,
    op ∈ [rv_insn_clw; rv_insn_csw; rv_insn_clwsp; rv_insn_cswsp] ->
    raises (c op) k ->
    compressed <$> outcome_rv (c op) = Some true.
Proof.
  intros c on_sp. unfold c, on_sp, impl, RVOP, expand_to. clear c on_sp.
  unfold op_clw, op_lw, op_csw, op_sw, op_clwsp, op_cswsp.
  cbn [rs1 rs2 rd imm insn_len]. rewrite !u32_add_u32_r.
  unfold rv_reg_sp at 2 4.
  set (addr := u32 (X rv (rs1 ir) + imm ir)).
  set (addr_sp := u32 (X rv rv_reg_sp + imm ir)).
  unfold RV_EXC_MISALIGN_HANDLER.
  repeat match goal with |- _ /\ _ => split end.
  - destruct (Z.land addr 3 =? 0); cbn [negb]; [|done].
    by apply same_effects_nextop.
  - destruct (Z.land addr 3 =? 0); cbn [negb]; [|done].
    by apply same_effects_nextop.
  - destruct (Z.land addr_sp 3 =? 0); cbn [negb]; [|done].
    by apply same_effects_nextop.
  - destruct (Z.land addr_sp 3 =? 0); cbn [negb]; [|done].
    by apply same_effects_nextop.
  - intros op k Hop (rv' & v & Ho & _). revert Ho.
    repeat (apply elem_of_cons in Hop as [->|Hop]);
      try (by apply elem_of_nil in Hop);
      cbn [insn_len]; rewrite ?u32_add_u32_r; fold addr addr_sp;
      match goal with |- context [Z.land ?a 3 =? 0] =>
        destruct (Z.land a 3 =? 0) end; cbn [negb]; try done;
      unfold nextop, end_insn; by destruct (next ir).
Qed.

(** C.BEQZ branches exactly when [X[rs1]] is 0 and C.BNEZ exactly when
    it is not: the PC continues at [pc + imm] when the branch is taken
    and at [pc + 2] otherwise, no register changes, and, unlike the
    32-bit branches, these templates never raise a misalignment
    exception. *)
Theorem compressed_branches rv (p : nat) ir (cycle pc : Z) :
  let a := X rv (rs1 ir) in
  let branches op (z : bool) :=
    let o := impl_ext op rv p ir cycle pc in
    is_branch_taken <$> outcome_rv o = Some z /\
    outcome_pc o = Some (if z then u32 (pc + imm ir) else u32 (pc + 2)) /\
    (forall r, reg_after o r = Some (X rv r)) /\
    (forall k, ~ raises o k) in
  branches rv_insn_cbeqz (a =? 0) /\
  branches rv_insn_cbnez (negb (a =? 0)).
Proof.
  intros a branches. unfold branches. clear branches.
  unfold impl_ext, RVOP_len, op_cbeqz, op_cbnez, cbranch; fold a.
  destruct (a =? 0); cbn [negb insn_len_ext];
    unfold chain_taken, nextop, end_insn, raises;
    destruct (branch_untaken ir), (branch_taken ir), (next ir);
    (repeat split; try done; by intros k (? & ? & ? & ?)).
Qed.

End CompressedFacts.

Lemma compressed_alu_as_expansions_witness :
  let rv := regs_machine 9 5 in
  let ir := mk_insn rv_insn_nop 3 1 2 4 4 None None None empty_bht in
  let c op := impl_ext op rv 0 ir 0 0 in
  X rv 0%nat = 0 /\ is_u32 (X rv 2%nat) /\
  same_effects (c rv_insn_csub) (c rv_insn_sub) /\
  same_effects (c rv_insn_cmv)
    (impl_ext rv_insn_add rv 0
       (expand_ext 3 0%nat 2 0 ir) 0 0).
Proof.
  assert (H2 : is_u32 5) by (vm_compute; split; [discriminate|reflexivity]).
  split; [reflexivity|]. split; [exact H2|].
  pose proof (compressed_alu_as_expansions (regs_machine 9 5) 0
                (mk_insn rv_insn_nop 3 1 2 4 4 None None None empty_bht)
                0 0 eq_refl H2) as H.
  cbv zeta in H. split; [apply H|apply H].
Defined.

(** ** What a template leaves alone *)

Section FrameFacts.
Context {M : Type}.
Implicit Types (rv : riscv M) (ir : rv_insn).

Local Ltac unfold_templates :=
  unfold impl, impl_ext, RVOP, RVOP_len, straight,
    op_nop, op_lui, op_auipc, op_jal, op_jalr,
    op_beq, op_bne, op_blt, op_bge, op_bltu, op_bgeu, BRANCH_FUNC,
    op_lb, op_lh, op_lw, op_lbu, op_lhu, op_sb, op_sh, op_sw,
    op_addi, op_shift, shift_func,
    op_mulh, op_mulhsu, op_mulhu, op_div, op_divu, op_rem, op_remu,
    op_clw, op_csw, op_cjal, op_cli, op_csrli, op_csrai, op_cj, op_clwsp,
    op_cjr, op_cjalr, op_cswsp,
    op_slti, op_sltiu, op_xori, op_ori, op_andi, op_add, op_sub, op_sll,
    op_slt, op_sltu, op_xor, op_srl, op_sra, op_or, op_and, op_mul,
    op_caddi4spn, op_cnop, op_caddi, op_caddi16sp, op_clui, op_candi,
    op_csub, op_cxor, op_cor, op_cand, op_cbeqz, op_cbnez, cbranch,
    op_cslli, op_cmv, op_cadd,
    RV_EXC_MISALIGN_HANDLER, LOOKUP_OR_UPDATE_BRANCH_HISTORY_TABLE,
    chain_taken, nextop, end_insn, rv_except_misaligned,
    io_read_b, io_read_s, io_read_w, io_write_b, io_write_s, io_write_w,
    log_io in *.

Local Ltac fields :=
  cbn [X mem io_log misalign set_X set_PC set_csr_cycle set_compressed
       set_misalign set_mem set_is_branch_taken set_last_pc set_insn] in *.

Local Ltac finish :=
  first
    [ exists []; rewrite app_nil_r;
      split; [done|]; split; [simpl; lia|]; split; [congruence|done]
    | eexists [_]; split; [reflexivity|]; split; [simpl; lia|];
      split; [intros _; unfold is_memory_access; set_solver|congruence] ].

Lemma csrai_loop_fields mask r i n rv :
  mem (csrai_loop mask r i n rv) = mem rv /\
  io_log (csrai_loop mask r i n rv) = io_log rv.
Proof.
  revert i rv. induction n as [|n IH]; intros i rv; simpl; [done|].
  destruct (IH (i + 1) (set_X r (Z.lor (X rv r) (Z.shiftr mask i)) rv))
    as [-> ->]. done.
Qed.

(** Every register other than the one [written_register] names is left
    as it was, by each of the templates. *)
Theorem only_destination_written rv (p : nat) ir (cycle pc : Z) (r : nat) :
  (forall op rv',
     written_register op ir <> Some r ->
     outcome_rv (impl op rv p ir cycle pc) = Some rv' ->
     X rv' r = X rv r) /\
  (forall op rv',
     written_register_ext op ir <> Some r ->
     outcome_rv (impl_ext op rv p ir cycle pc) = Some rv' ->
     X rv' r = X rv r).
Proof.
  split; intros op rv' Hw Ho.
  - destruct op; cbn [written_register] in Hw;
      try (unfold_templates; cbn [insn_len] in Ho;
           repeat case_match; simplify_eq/=; fields;
           rewrite ?fn_lookup_insert_ne by congruence; done).
    unfold impl, RVOP, straight, op_csrai, nextop, end_insn in Ho.
    destruct (next ir); simplify_eq/=; fields;
      (rewrite csrai_loop_other by congruence);
      by rewrite X_set_X_ne by congruence.
  - destruct op; cbn [written_register_ext] in Hw;
      unfold_templates; cbn [insn_len_ext] in Ho;
      repeat case_match; simplify_eq/=; fields;
      rewrite ?fn_lookup_insert_ne by congruence; done.
Qed.

(** A template invokes at most one host callback, none unless it is a
    load or a store, and none of the further integer and compressed
    templates invokes any; without a callback the host memory is the
    same. *)
Theorem at_most_one_callback rv (p : nat) ir (cycle pc : Z) :
  (forall op rv',
     outcome_rv (impl op rv p ir cycle pc) = Some rv' ->
     exists evs,
       io_log rv' = io_log rv ++ evs /\ (length evs <= 1)%nat /\
       (evs <> [] -> is_memory_access op) /\
       (evs = [] -> mem rv' = mem rv)) /\
  (forall op rv',
     outcome_rv (impl_ext op rv p ir cycle pc) = Some rv' ->
     io_log rv' = io_log rv /\ mem rv' = mem rv).
Proof.
  split; intros op rv' Ho.
  - destruct op;
      try (unfold_templates; cbn [insn_len] in Ho;
           repeat case_match; simplify_eq/=; fields; finish).
    unfold impl, RVOP, straight, op_csrai, nextop, end_insn in Ho.
    destruct (csrai_loop_fields
                (Z.land 0x80000000 (X rv (rs1 ir))) (rs1 ir) 0
                (Z.to_nat (shamt ir))
                (set_X (rs1 ir) (Z.shiftr (X rv (rs1 ir)) (shamt ir)) rv))
      as [Hm Hl].
    destruct (next ir); cbn [outcome_rv] in Ho; injection Ho as <-; fields;
      rewrite Hm, Hl; finish.
  - destruct op; unfold_templates; cbn [insn_len_ext] in Ho;
      repeat case_match; simplify_eq/=; fields; done.
Qed.

End FrameFacts.

(** ** The conditional branches against each other *)

Section BranchFacts.
Context {M : Type}.
Implicit Types (rv : riscv M) (ir : rv_insn).

(** When [BRANCH_FUNC] raises, and that it writes no register. *)
Lemma BRANCH_FUNC_raises op type cond rv p ir cycle pc :
  let untaken := cond (type (X rv (rs1 ir))) (type (X rv (rs2 ir))) in
  let o := RVOP op (BRANCH_FUNC type cond) rv p ir cycle pc in
  (raises o insn <->
   untaken = false /\ insn_is_misaligned (u32 (pc + imm ir)) = true) /\
  (forall k, raises o k -> k = insn) /\
  (forall r, reg_after o r = Some (X rv r)).
Proof.
  intros untaken o. subst o. unfold RVOP, BRANCH_FUNC. fold untaken.
  unfold raises.
  destruct untaken.
  - destruct (branch_untaken ir).
    + split; [|split]; [split| |done].
      * by intros (? & ? & ? & _).
      * by intros [? _].
      * by intros k (? & ? & ? & _).
    + unfold nextop, end_insn. destruct (next ir);
        (split; [|split]; [split| |done]);
        try (by intros (? & ? & ? & _)); try (by intros [? _]);
        by intros k (? & ? & ? & _).
  - unfold RV_EXC_MISALIGN_HANDLER, chain_taken, end_insn.
    destruct (insn_is_misaligned (u32 (pc + imm ir))).
    + split; [|split]; [split| |done].
      * done.
      * intros _. do 2 eexists. split; [reflexivity|]. reflexivity.
      * intros k (? & ? & [= <-] & Hk). cbn in Hk. congruence.
    + destruct (branch_taken ir);
        (split; [|split]; [split| |done]);
        try (by intros (? & ? & ? & _)); try (by intros [_ ?]);
        by intros k (? & ? & ? & _).
Qed.

(** On the same operands exactly one branch of each of the pairs
    BEQ/BNE, BLT/BGE and BLTU/BGEU is taken.  A branch raises the
    instruction misalignment exception exactly when it is taken and its
    target [pc + imm] is misaligned, it raises no other exception, and
    it writes no register. *)
Theorem branch_pairs rv (p : nat) ir (cycle pc : Z) :
  let a := X rv (rs1 ir) in
  let b := X rv (rs2 ir) in
  let o op := impl op rv p ir cycle pc in
  let taken op := is_branch_taken <$> outcome_rv (o op) in
  is_u32 a -> is_u32 b ->
  (exists t, taken rv_insn_beq = Some t /\ taken rv_insn_bne = Some (negb t)) /\
  (exists t, taken rv_insn_blt = Some t /\ taken rv_insn_bge = Some (negb t)) /\
  (exists t, taken rv_insn_bltu = Some t /\
             taken rv_insn_bgeu = Some (negb t)) /\
  forall op, is_branch op ->
    (raises (o op) insn <->
     taken op = Some true /\
     insn_is_misaligned (u32 (pc + imm ir)) = true) /\
    (forall k, raises (o op) k -> k = insn) /\
    (forall r, reg_after (o op) r = Some (X rv r)).
Proof.
  intros a b o taken Ha Hb. unfold taken, o. clear taken o.
  assert (Hgen : forall op, is_branch op ->
            is_branch_taken <$> outcome_rv (impl op rv p ir cycle pc)
            = Some (branch_predicate op a b)).
  { intros op Hop. by apply branch_general. }
  assert (Hin : forall op,
            op ∈ [rv_insn_beq; rv_insn_bne; rv_insn_blt; rv_insn_bge;
                  rv_insn_bltu; rv_insn_bgeu] -> is_branch op) by done.
  split; [|split; [|split]].
  - eexists. rewrite !Hgen by (apply Hin; rewrite !elem_of_cons; tauto). done.
  - eexists. rewrite !Hgen by (apply Hin; rewrite !elem_of_cons; tauto).
    split; [done|]. cbn [branch_predicate]. f_equal.
    destruct (Z.ltb_spec (i32 a) (i32 b)), (Z.leb_spec (i32 b) (i32 a));
      (done || lia).
  - eexists. rewrite !Hgen by (apply Hin; rewrite !elem_of_cons; tauto).
    split; [done|]. cbn [branch_predicate]. f_equal.
    destruct (Z.ltb_spec a b), (Z.leb_spec b a); (done || lia).
  - intros op Hop. pose proof (Hgen op Hop) as Ht.
    unfold is_branch in Hop.
    repeat (apply elem_of_cons in Hop as [->|Hop]);
      try (by apply elem_of_nil in Hop).
    all: match goal with
         | |- context [impl ?op] =>
             unfold impl, op_beq, op_bne, op_blt, op_bge, op_bltu, op_bgeu
               in Ht |- *
         end.
    all: match goal with
         | |- context [RVOP ?op (BRANCH_FUNC ?type ?cond)] =>
             destruct (BRANCH_FUNC_raises op type cond rv p ir cycle pc)
               as (Hr & Hk & Hx);
             destruct (BRANCH_FUNC_spec op type cond rv p ir cycle pc eq_refl)
               as [Hs _]
         end.
    all: cbv zeta in *; rewrite Ht in Hs; injection Hs as Hs.
    all: split; [|split; [exact Hk|exact Hx]].
    all: rewrite Hr, Ht; clear Hr Ht Hk Hx.
    all: cbn [branch_predicate] in *.
    all: match type of Hs with
         | ?B = negb ?U => rewrite Hs; destruct U
         end.
    all: cbn [negb]; split; intros [H1 H2]; (split; [congruence|done]).
Qed.

End BranchFacts.

Lemma branch_pairs_witness :
  let rv := regs_machine 3 5 in
  let ir := mk_ir rv_insn_beq 0 1 2 8 None None None in
  let taken op := is_branch_taken <$> outcome_rv (impl op rv 0 ir 0 0) in
  is_u32 3 /\ is_u32 5 /\
  (exists t, taken rv_insn_blt = Some t /\ taken rv_insn_bge = Some (negb t)).
Proof.
  assert (Ha : is_u32 3) by (vm_compute; split; [discriminate|reflexivity]).
  assert (Hb : is_u32 5) by (vm_compute; split; [discriminate|reflexivity]).
  split; [exact Ha|]. split; [exact Hb|].
  pose proof (branch_pairs (regs_machine 3 5) 0
                (mk_ir rv_insn_beq 0 1 2 8 None None None) 0 0 Ha Hb) as H.
  cbv zeta in H. apply H.
Defined.

(** Witnesses of the JALR and the aligned access lemmas. *)
Lemma jalr_target_and_link_witness :
  let o := impl rv_insn_jalr (jump_machine 0x1000) 0 (jalr_x1_x5 3) 0 0x2000 in
  o <> Fault /\ outcome_pc o = Some 0x1002 /\ reg_after o 1 = Some 0x2004.
Proof.
  assert (Hnf : impl rv_insn_jalr (jump_machine 0x1000) 0 (jalr_x1_x5 3) 0
                  0x2000 <> Fault) by (vm_compute; discriminate).
  split; [exact Hnf|].
  destruct (jalr_target_and_link (jump_machine 0x1000) 0 (jalr_x1_x5 3) 0
              0x2000 Hnf) as (Hpc & _ & Hlink & _).
  split; [exact Hpc|]. apply Hlink. discriminate.
Defined.

Lemma aligned_access_invokes_callback_witness :
  let rv := set_X 1 0x100 (machine_on 7 ∅ ∅ 0) in
  let o := impl rv_insn_lw rv 0 (mk_ir rv_insn_lw 3 1 0 8 None None None)
             0 0 in
  (forall k, ~ raises o k) /\
  exists rv' ev,
    outcome_rv o = Some rv' /\ misalign rv' = misalign rv /\
    io_log rv' = io_log rv ++ [ev] /\ event_addr ev = 0x108.
Proof.
  apply (aligned_access_invokes_callback rv_insn_lw
           (set_X 1 0x100 (machine_on 7 ∅ ∅ 0)) 0
           (mk_ir rv_insn_lw 3 1 0 8 None None None) 0 0 3 load);
    reflexivity.
Defined.

(** ** The set, reset and filled *)

Section SetMoreFacts.
Variable set_hash : Z -> nat.


(** The scan returns when an empty slot lies ahead. *)
Lemma set_scan_returns row key : forall fuel count c,
  (count <= c)%nat -> (c - count < fuel)%nat -> row !! c = Some 0 ->
  set_scan row key count fuel <> ScanAbort.
Proof.
  induction fuel as [|fuel IH]; intros count c Hle Hfuel Hc; [lia|]. simpl.
  destruct (row !! count) as [s|] eqn:Hs.
  - destruct (Z.eqb_spec s 0); [done|]. destruct (Z.eqb_spec s key); [done|].
    assert (count <> c) by (intros ->; congruence).
    apply (IH (S count) c); [lia|lia|done].
  - apply lookup_ge_None in Hs. apply lookup_lt_Some in Hc. lia.
Qed.

(** [set_has] read off the bucket. *)
Lemma set_has_true_iff (set : list (list Z)) key :
  set_has set_hash set key = Some true <->
  exists row c,
    set !! set_hash key = Some row /\ key <> 0 /\
    occupied_by_others row key 0 c /\ row !! c = Some key.
Proof.
  unfold set_has. cbv zeta. unfold set_t in *.
  destruct (set !! set_hash key) as [row|] eqn:Hrow;
    cbn [mbind option_bind].
  - pose proof (set_scan_inv row key (S (length row)) 0) as Hinv.
    split.
    + intros H. destruct (set_scan row key 0 (S (length row))); [|done..].
      destruct Hinv as (Hk & c & _ & Hocc & Hc). by exists row, c.
    + intros (row' & c & [= <-] & Hk & Hocc & Hc).
      rewrite (set_scan_found _ key _ 0%nat c); try done; try lia.
      apply lookup_lt_Some in Hc. lia.
  - split; [done|]. by intros (? & ? & ? & _).
Qed.

Lemma set_reset_lookup (set : set_t) i row :
  set !! i = Some row ->
  set_reset set !! i = Some (replicate (length row) 0).
Proof.
  intros Hrow. unfold set_reset, set_t in *.
  by rewrite list_lookup_fmap, Hrow.
Qed.

Lemma set_reset_no_member (set : set_t) (key : Z) :
  set_has set_hash (set_reset set) key <> Some true.
Proof.
  rewrite set_has_true_iff. intros (row & c & Hrow & Hk & _ & Hc).
  unfold set_reset, set_t in *. rewrite list_lookup_fmap in Hrow.
  destruct (set !! set_hash key) as [row0|]; [|done].
  injection Hrow as <-. apply lookup_replicate in Hc as [Hc _]. congruence.
Qed.


(** Adding [key] keeps the buckets compact and changes the membership of
    no other key. *)
Lemma set_add_frame (set : set_t) key b set' :
  Forall compact_row set ->
  set_add set_hash set key = Some (b, set') ->
  Forall compact_row set' /\
  forall k, k <> key ->
    (set_has set_hash set' k = Some true <->
     set_has set_hash set k = Some true).
Proof.
  intros Hwf Hadd. unfold set_add in Hadd. cbv zeta in Hadd.
  unfold set_t in *.
  destruct (set !! set_hash key) as [row|] eqn:Hrow;
    cbn [mbind option_bind] in Hadd; [|done].
  pose proof (set_scan_inv row key (S (length row)) 0) as Hinv.
  destruct (set_scan row key 0 (S (length row))) as [|c|] eqn:Hscan;
    [| |done]; injection Hadd as <- <-; [done|].
  destruct Hinv as (_ & Hocc & Hc).
  assert (Hcompact : compact_row row)
    by (by apply (Forall_lookup_1 _ _ _ _ Hwf Hrow)).
  assert (Hclen : (c < length row)%nat) by (by eapply lookup_lt_Some).
  assert (Hidx : (set_hash key < length set)%nat)
    by (by eapply lookup_lt_Some).
  assert (Hbefore : forall j, (j < c)%nat -> row !! j <> Some 0).
  { intros j Hj. destruct (Hocc j) as (s & Hs & H0 & _); [lia|].
    rewrite Hs. congruence. }
  split.
  - apply Forall_insert; [done|].
    intros i j Hij Hj Hi. rewrite length_insert in Hj.
    destruct (decide (i = c)) as [->|Hic].
    + rewrite list_lookup_insert_eq in Hi by done. injection Hi as ->.
      rewrite list_insert_id by done. by apply (Hcompact c j).
    + rewrite list_lookup_insert_ne in Hi by done.
      assert (c < i)%nat.
      { destruct (decide (i < c)%nat) as [Hlt|]; [|lia].
        by destruct (Hbefore i Hlt). }
      rewrite list_lookup_insert_ne by lia. by apply (Hcompact i j).
  - intros k Hk. rewrite !set_has_true_iff.
    destruct (decide (set_hash k = set_hash key)) as [Heq|Hne].
    2:{ by rewrite list_lookup_insert_ne. }
    rewrite Heq, list_lookup_insert_eq, Hrow by done.
    split.
    + intros (row' & c' & [= <-] & Hk0 & Hocc' & Hc').
      exists row, c'. split; [done|]. split; [done|].
      destruct (decide (c' = c)) as [->|Hcc].
      { rewrite list_lookup_insert_eq in Hc' by done. congruence. }
      rewrite list_lookup_insert_ne in Hc' by done.
      assert (c' < c)%nat.
      { destruct (decide (c' < c)%nat); [done|].
        assert (row !! c' = Some 0).
        { apply (Hcompact c c'); [lia| |done]. by eapply lookup_lt_Some. }
        congruence. }
      split; [|done]. intros j Hj. destruct (Hocc' j Hj) as (s & Hs & ?).
      exists s. split; [|done]. by rewrite list_lookup_insert_ne in Hs by lia.
    + intros (row' & c' & [= <-] & Hk0 & Hocc' & Hc').
      assert (c' < c)%nat.
      { destruct (decide (c' < c)%nat); [done|].
        assert (row !! c' = Some 0).
        { apply (Hcompact c c'); [lia| |done]. by eapply lookup_lt_Some. }
        congruence. }
      eexists _, c'. split; [done|]. split; [done|]. split.
      * intros j Hj. destruct (Hocc' j Hj) as (s & Hs & ?).
        exists s. split; [|done]. by rewrite list_lookup_insert_ne by lia.
      * by rewrite list_lookup_insert_ne by lia.
Qed.

(** After a successful [set_add] of a non-zero key, [set_has] finds it. *)
Lemma set_add_has_key (set : set_t) key b set' :
  key <> 0 -> set_add set_hash set key = Some (b, set') ->
  set_has set_hash set' key = Some true.
Proof.
  intros Hkey Hadd. unfold set_add in Hadd. cbv zeta in Hadd.
  unfold set_t in *.
  destruct (set !! set_hash key) as [row|] eqn:Hrow;
    cbn [mbind option_bind] in Hadd; [|done].
  pose proof (set_scan_inv row key (S (length row)) 0) as Hinv.
  apply set_has_true_iff.
  destruct (set_scan row key 0 (S (length row))) as [|c|] eqn:Hscan;
    [| |done]; injection Hadd as <- <-.
  - destruct Hinv as (_ & c & _ & Hocc & Hc). by exists row, c.
  - destruct Hinv as (_ & Hocc & Hc).
    assert (Hclen : (c < length row)%nat) by (by eapply lookup_lt_Some).
    exists (<[c := key]> row), c.
    split; [apply list_lookup_insert_eq; by eapply lookup_lt_Some|].
    split; [done|]. split; [by apply occupied_by_others_insert|].
    by apply list_lookup_insert_eq.
Qed.

(** After [set_reset] a key whose bucket has a slot is not found, and
    adding it, when it is not 0, returns [true]. *)
Theorem set_reset_empties (set : set_t) (key : Z) (row : list Z) :
  set !! set_hash key = Some row -> row <> [] ->
  set_has set_hash (set_reset set) key = Some false /\
  (key <> 0 ->
   exists set',
     set_add set_hash (set_reset set) key = Some (true, set') /\
     set_has set_hash set' key = Some true).
Proof.
  intros Hrow Hne. pose proof (set_reset_lookup _ _ _ Hrow) as Hl.
  assert (Hscan : set_scan (replicate (length row) 0) key 0
                    (S (length (replicate (length row) 0))) = ScanEnd 0).
  { destruct row as [|s row]; [done|]. reflexivity. }
  split.
  - unfold set_has. cbv zeta. unfold set_t in *. rewrite Hl.
    cbn [mbind option_bind]. by rewrite Hscan.
  - intros Hk.
    assert (Hadd : set_add set_hash (set_reset set) key
              = Some (true, <[set_hash key :=
                               <[0%nat := key]> (replicate (length row) 0)]>
                              (set_reset set))).
    { unfold set_add. cbv zeta. unfold set_t in *. rewrite Hl.
      cbn [mbind option_bind]. by rewrite Hscan. }
    eexists. split; [exact Hadd|]. by eapply set_add_has_key.
Qed.

Lemma set_reset_compact (set : set_t) : Forall compact_row (set_reset set).
Proof.
  unfold set_reset. apply Forall_fmap, Forall_true. intros row i j _ Hj _.
  rewrite length_replicate in Hj. by apply lookup_replicate.
Qed.

Lemma set_add_all_members (keys : list Z) : forall (set set' : set_t) k,
  Forall compact_row set ->
  set_add_all set_hash set keys = Some set' -> k <> 0 ->
  (set_has set_hash set' k = Some true <->
   set_has set_hash set k = Some true \/ k ∈ keys).
Proof.
  induction keys as [|key keys IH]; intros set set' k Hwf Hall Hk.
  - injection Hall as <-. split; [by left|]. intros [H|H]; [done|].
    by apply elem_of_nil in H.
  - simpl in Hall.
    destruct (set_add set_hash set key) as [[b set1]|] eqn:Hadd;
      cbn [mbind option_bind] in Hall; [|done]. simpl in Hall.
    destruct (set_add_frame _ _ _ _ Hwf Hadd) as [Hwf1 Hframe].
    rewrite (IH set1 set' k Hwf1 Hall Hk), elem_of_cons.
    destruct (decide (k = key)) as [->|Hne].
    + pose proof (set_add_has_key _ _ _ _ Hk Hadd). tauto.
    + rewrite (Hframe k Hne). tauto.
Qed.

(** Starting from a reset set, after adding the keys of a list one by one
    (every call returning), a non-zero key is found exactly when it is in
    the list. *)
Theorem set_members_are_added_keys (set set' : set_t) (keys : list Z) k :
  set_add_all set_hash (set_reset set) keys = Some set' -> k <> 0 ->
  (set_has set_hash set' k = Some true <-> k ∈ keys).
Proof.
  intros Hall Hk.
  rewrite (set_add_all_members keys _ _ k (set_reset_compact set) Hall Hk).
  pose proof (set_reset_no_member set k). tauto.
Qed.

(** Adding a key changes the membership of no other key, in a set built
    from a reset set by [set_add] alone. *)
Theorem set_add_keeps_other_keys (set set1 set2 : set_t) keys key b k :
  set_add_all set_hash (set_reset set) keys = Some set1 ->
  set_add set_hash set1 key = Some (b, set2) -> k <> key ->
  (set_has set_hash set2 k = Some true <->
   set_has set_hash set1 k = Some true).
Proof.
  intros Hall Hadd Hk.
  assert (Hwf : Forall compact_row set1).
  { clear Hadd. revert Hall. generalize (set_reset_compact set).
    generalize (set_reset set). clear set.
    induction keys as [|a keys IH]; intros s Hwf Hall.
    - by injection Hall as <-.
    - simpl in Hall.
      destruct (set_add set_hash s a) as [[b' s1]|] eqn:Ha;
        cbn [mbind option_bind] in Hall; [|done].
      apply (IH s1); [|done]. by apply (set_add_frame _ _ _ _ Hwf Ha). }
  by apply (set_add_frame _ _ _ _ Hwf Hadd).
Qed.

End SetMoreFacts.

Lemma set_reset_empties_witness :
  set_has sample_set_hash (set_reset sample_set) 5 = Some false /\
  (5 <> 0 ->
   exists set',
     set_add sample_set_hash (set_reset sample_set) 5 = Some (true, set') /\
     set_has sample_set_hash set' 5 = Some true).
Proof.
  apply (set_reset_empties sample_set_hash sample_set 5 (replicate 8 0));
    [reflexivity | discriminate].
Defined.


Lemma set_members_are_added_keys_witness :
  exists set',
    set_add_all sample_set_hash (set_reset sample_set) [5; 9; 5] = Some set' /\
    (set_has sample_set_hash set' 9 = Some true <-> 9 ∈ [5; 9; 5]).
Proof.
  eexists. split; [vm_compute; reflexivity|].
  apply (set_members_are_added_keys sample_set_hash sample_set _ [5; 9; 5] 9);
    [vm_compute; reflexivity | discriminate].
Defined.

Lemma set_add_keeps_other_keys_witness :
  exists set1 set2,
    set_add_all sample_set_hash (set_reset sample_set) [5; 9] = Some set1 /\
    set_add sample_set_hash set1 13 = Some (true, set2) /\
    (set_has sample_set_hash set2 9 = Some true <->
     set_has sample_set_hash set1 9 = Some true).
Proof.
  eexists _, _. split; [vm_compute; reflexivity|].
  split; [vm_compute; reflexivity|].
  apply (set_add_keeps_other_keys sample_set_hash sample_set _ _ [5; 9] 13 true 9);
    [vm_compute; reflexivity | vm_compute; reflexivity | discriminate].
Defined.

(** ** Time *)

(** [mult_frac] computes [x * n / d] exactly whenever the remainder part
    [(x mod d) * n] and the result fit 64 bits, also when [x * n] itself
    does not fit. *)
Theorem mult_frac_exact (x n d : Z) :
  0 <= x < 2 ^ 64 -> 0 <= n -> 0 < d ->
  (x mod d) * n < 2 ^ 64 -> x * n / d < 2 ^ 64 ->
  mult_frac x n d = Some (x * n / d).
Proof.
  intros Hx Hn Hd Hr Hres. unfold mult_frac.
  destruct (Z.eqb_spec d 0); [lia|]. f_equal.
  pose proof (Z.div_mod x d) as Hdm.
  pose proof (Z.mod_pos_bound x d Hd) as Hm.
  assert (Hq : 0 <= x / d) by (apply Z.div_pos; lia).
  assert (Hsplit : x * n / d = x / d * n + x mod d * n / d).
  { replace (x * n) with ((x / d * n) * d + x mod d * n) by nia.
    rewrite Z.div_add_l by lia.
    replace (x / d * n * d + x mod d * n) with (x * n) by nia. done. }
  assert (Hrn : 0 <= x mod d * n / d) by (apply Z.div_pos; nia).
  unfold u64.
  rewrite (Z.mod_small (x mod d * n)) by nia.
  rewrite (Z.mod_small (x / d * n)) by nia.
  rewrite Z.mod_small by lia. lia.
Qed.

Lemma mult_frac_exact_witness :
  mult_frac (2 ^ 63) 3 2 = Some (2 ^ 63 * 3 / 2).
Proof.
  apply mult_frac_exact; vm_compute; try (split; [discriminate|reflexivity]);
    try discriminate; reflexivity.
Defined.

(** For a clock reading with nanoseconds below 10^9,
    [rv_clock_gettime] reports the nanoseconds and [rv_gettimeofday] the
    microseconds they contain, below 10^6; both report the same seconds,
    which are the seconds of the clock exactly when these fit an
    [int32_t]. *)
Theorem time_of_day_from_clock (t_sec t_nsec : Z) :
  0 <= t_nsec < 10 ^ 9 ->
  exists sec usec,
    rv_clock_gettime t_sec t_nsec = (sec, t_nsec) /\
    rv_gettimeofday t_sec t_nsec = (sec, usec) /\
    0 <= usec < 10 ^ 6 /\
    1000 * usec <= t_nsec < 1000 * usec + 1000 /\
    (sec = t_sec <-> - 2 ^ 31 <= t_sec < 2 ^ 31).
Proof.
  intros Hn. unfold rv_clock_gettime, rv_gettimeofday, get_time_info.
  rewrite (i32_id t_nsec) by lia.
  do 2 eexists. split; [reflexivity|]. split; [reflexivity|].
  rewrite Z.quot_div_nonneg by lia.
  pose proof (Z.div_mod t_nsec 1000).
  pose proof (Z.mod_pos_bound t_nsec 1000).
  pose proof (i32_range t_sec).
  split; [lia|]. split; [lia|]. split.
  - intros <-. done.
  - apply i32_id.
Qed.

Lemma time_of_day_from_clock_witness :
  exists sec usec,
    rv_clock_gettime 1700000000 123456789 = (sec, 123456789) /\
    rv_gettimeofday 1700000000 123456789 = (sec, usec) /\
    0 <= usec < 10 ^ 6 /\
    1000 * usec <= 123456789 < 1000 * usec + 1000 /\
    (sec = 1700000000 <-> - 2 ^ 31 <= 1700000000 < 2 ^ 31).
Proof. apply time_of_day_from_clock; lia. Defined.

(** * Witnesses: the theorems at concrete inputs *)

(** Decide a closed range statement by computation. *)
Ltac in_range := vm_compute; split; [discriminate | reflexivity].

(** Scenario 4 of the spec: -8 / 3 = -2. *)
Lemma div_rem_witness :
  is_u32 0xFFFFFFF8 /\ is_u32 3 /\
  exists q,
    reg_after (impl rv_insn_div (regs_machine 0xFFFFFFF8 3) 0
                 (op_x3_x1_x2 rv_insn_div) 0 0) 3 = Some q /\
    i32 q = -2.
Proof.
  assert (Ha : is_u32 0xFFFFFFF8) by in_range.
  assert (Hb : is_u32 3) by in_range.
  split; [exact Ha|]. split; [exact Hb|].
  destruct (div_rem_special_cases (regs_machine 0xFFFFFFF8 3) 0
              (op_x3_x1_x2 rv_insn_div) 0 0 Ha Hb)
    as [(q & Hq & _ & _ & _ & Hquot) _].
  exists q. split; [exact Hq|].
  rewrite Hquot; [reflexivity | discriminate |].
  intros [H _]. discriminate H.
Defined.

Lemma mulh_family_witness :
  is_u32 0xFFFFFFFF /\
  reg_after (impl rv_insn_mulh (regs_machine 0xFFFFFFFF 0xFFFFFFFF) 0
               (op_x3_x1_x2 rv_insn_mulh) 0 0) 3 = Some 0 /\
  reg_after (impl rv_insn_mulhsu (regs_machine 0xFFFFFFFF 0xFFFFFFFF) 0
               (op_x3_x1_x2 rv_insn_mulhsu) 0 0) 3 = Some 0xFFFFFFFF /\
  reg_after (impl rv_insn_mulhu (regs_machine 0xFFFFFFFF 0xFFFFFFFF) 0
               (op_x3_x1_x2 rv_insn_mulhu) 0 0) 3 = Some 0xFFFFFFFE.
Proof.
  assert (Ha : is_u32 0xFFFFFFFF) by in_range.
  split; [exact Ha|].
  exact (mulh_family_high_word (regs_machine 0xFFFFFFFF 0xFFFFFFFF) 0
           (op_x3_x1_x2 rv_insn_mulh) 0 0 Ha Ha).
Defined.

Lemma csrai_witness :
  is_u32 0x80000000 /\ 0 <= 4 <= 31 /\
  reg_after (impl rv_insn_csrai (regs_machine 0x80000000 0) 0
               (mk_insn rv_insn_csrai 0 1 0 0 4 None None None empty_bht)
               0 0) 1
  = Some 0xF8000000.
Proof.
  assert (Hx : is_u32 0x80000000) by in_range.
  assert (Hs : 0 <= 4 <= 31) by lia.
  split; [exact Hx|]. split; [exact Hs|].
  exact (proj1 (csrai_is_arithmetic_shift (regs_machine 0x80000000 0) 0
                  (mk_insn rv_insn_csrai 0 1 0 0 4 None None None empty_bht)
                  0 0 Hx Hs)).
Defined.

(** [BLT x1, x2, +8] at PC 8 with x1 = 3 and x2 = 5 is taken. *)
Lemma branch_witness :
  is_branch rv_insn_blt /\ is_u32 3 /\ is_u32 5 /\
  outcome_pc (impl rv_insn_blt (regs_machine 3 5) 0
                (mk_ir rv_insn_blt 0 1 2 8 None None None) 0 8)
  = Some 16.
Proof.
  assert (Hop : is_branch rv_insn_blt)
    by (unfold is_branch; repeat constructor).
  assert (Ha : is_u32 3) by in_range.
  assert (Hb : is_u32 5) by in_range.
  split; [exact Hop|]. split; [exact Ha|]. split; [exact Hb|].
  exact (proj1 (proj2 (branch_taken_iff_predicate rv_insn_blt
                         (regs_machine 3 5) 0
                         (mk_ir rv_insn_blt 0 1 2 8 None None None) 0 8
                         true Hop Ha Hb))).
Defined.

(** [JAL x1, +8] at PC 16 links 20 and continues at 24. *)
Lemma jal_witness :
  1%nat <> 0%nat /\
  reg_after (impl rv_insn_jal (machine0 ∅ ∅ 16) 0
               (mk_ir rv_insn_jal 1 0 0 8 None None None) 0 16) 1
  = Some 20 /\
  outcome_pc (impl rv_insn_jal (machine0 ∅ ∅ 16) 0
                (mk_ir rv_insn_jal 1 0 0 8 None None None) 0 16)
  = Some 24.
Proof.
  assert (Hrd : 1%nat <> 0%nat) by discriminate.
  split; [exact Hrd|].
  pose proof (jal_link_and_target (machine0 ∅ ∅ 16) 0
                (mk_ir rv_insn_jal 1 0 0 8 None None None) 0 16 Hrd)
    as [[H1 _] [[H2 _] _]].
  split; [exact H1 | exact H2].
Defined.

(** [LH x3, 0(x1)] with x1 = 0x1001 raises; [LB] at the same address
    does not. *)
Lemma misaligned_witness :
  wide_access rv_insn_lh = Some (1, load) /\
  Z.land (effective_address rv_insn_lh (regs_machine 0x1001 0)
            (op_x3_x1_x2 rv_insn_lh)) 1 <> 0 /\
  is_byte_access rv_insn_lb /\
  raises (impl rv_insn_lh (regs_machine 0x1001 0) 0
            (op_x3_x1_x2 rv_insn_lh) 0 0) load /\
  ~ raises (impl rv_insn_lb (regs_machine 0x1001 0) 0
              (op_x3_x1_x2 rv_insn_lh) 0 0) load.
Proof.
  assert (Hop : wide_access rv_insn_lh = Some (1, load)) by reflexivity.
  assert (Hmis : Z.land (effective_address rv_insn_lh (regs_machine 0x1001 0)
                           (op_x3_x1_x2 rv_insn_lh)) 1 <> 0)
    by (vm_compute; discriminate).
  assert (Hb : is_byte_access rv_insn_lb)
    by (unfold is_byte_access; repeat constructor).
  split; [exact Hop|]. split; [exact Hmis|]. split; [exact Hb|].
  destruct (misaligned_access_raises rv_insn_lh rv_insn_lb
              (regs_machine 0x1001 0) 0 (op_x3_x1_x2 rv_insn_lh) 0 0
              1 load Hop Hmis Hb)
    as [(rv' & Ho & Hm & _) [Hno _]].
  split; [|exact (Hno load)].
  exists rv', 1. split; [exact Ho | exact Hm].
Defined.

(** Adding the key 5 to the empty sample set. *)
Lemma set_add_witness :
  set_add sample_set_hash sample_set 5
  = Some (true, <[3%nat := <[0%nat := 5]> (replicate 8 0)]> sample_set) /\
  set_has sample_set_hash
    (<[3%nat := <[0%nat := 5]> (replicate 8 0)]> sample_set) 5
  = Some true.
Proof.
  assert (H : set_add sample_set_hash sample_set 5
              = Some (true, <[3%nat := <[0%nat := 5]> (replicate 8 0)]>
                              sample_set)) by reflexivity.
  split; [exact H|].
  refine (proj1 (proj1 (set_add_then_has sample_set_hash _ _ _ _ H) _)).
  discriminate.
Defined.
